(** * node-minitrace: deferred trace queues, verified against the sources

    The packages [trace-console] and [trace-log] keep every trace
    message in a singly linked queue and print the queue when the process
    exits.  This file embeds the code of
    [packages/trace-console/index.js] and [packages/trace-log/idex.js]:
    the private helpers [repeat], [join2], [indent], the module state [ctx],
    the queue cells allocated by [new Message], and the exported functions.

    Conventions of the embedding.
    - JavaScript strings are [string]s (one character per code unit; the
      code only looks at line feeds and at the ASCII class [\w]).
    - JavaScript numbers that the code uses as counters are [Z]: they
      hold integers, exactly as long as these stay below 2^53.
    - Objects created by [new Message] live in a heap, a [list] indexed by
      allocation order; a reference is an index, [null] is [None].
    - Every function is a computation in a state-and-exception monad over
      the world (module state, heap, console), so that an exception of the
      JavaScript code (a [RangeError] of [new Array], a [TypeError] of a
      property access on [null]) is a result of the model, not a gap in it.
    - [util.format] is Node.js' formatter, not code of this repository: it
      is a parameter of the development.

    The package [trace-color] has the queue of [trace-console] and adds
    ANSI colours when it prints, and [color-log] prints at once and has no
    queue; they are embedded after the two, with the test script
    [index.js] that runs a recursive factorial on a package. *)

From Stdlib Require Import ZArith String Ascii Lia List.
From stdpp Require Import base list strings.

Local Open Scope string_scope.
Local Open Scope Z_scope.

(** Let [simpl] compute appends of strings written out. *)
#[local] Arguments String.append !s1 s2 : simpl nomatch.

(** ** Results and the state-and-exception monad *)

(** What ends a computation early.  [RangeError] and [TypeError] are the
    JavaScript exceptions the code can raise; [Unallocated] is a reference
    outside the heap (impossible in JavaScript, present because references
    are numbers here); [OutOfFuel] is a loop that did not finish within its
    bound. *)
Inductive exn : Type :=
| RangeError
| TypeError
| Unallocated
| OutOfFuel.

Inductive result (A : Type) : Type :=
| Ok (a : A)
| Throw (e : exn).

Arguments Ok {A} a.
Arguments Throw {A} e.

Definition M (S A : Type) : Type := S -> result (A * S).

Definition ret {S A} (a : A) : M S A := fun s => Ok (a, s).

Definition bind {S A B} (m : M S A) (k : A -> M S B) : M S B :=
  fun s => match m s with
           | Ok (a, s') => k a s'
           | Throw e => Throw e
           end.

Definition throw {S A} (e : exn) : M S A := fun _ => Throw e.

Definition lift {S A} (r : result A) : M S A :=
  fun s => match r with
           | Ok a => Ok (a, s)
           | Throw e => Throw e
           end.

Declare Scope monad_scope.
Delimit Scope monad_scope with monad.
Notation "'let*' x ':=' m 'in' k" := (bind m (fun x => k))
  (at level 10, x name, m at level 100, k at level 200) : monad_scope.
Notation "m ;; k" := (bind m (fun _ => k))
  (at level 100, k at level 200, right associativity) : monad_scope.

(** The final world of a computation that returns nothing. *)
Definition exec {S} (m : M S unit) (s : S) : result S :=
  match m s with
  | Ok (_, s') => Ok s'
  | Throw e => Throw e
  end.

(** References to heap cells are their indices in the heap. *)
Abbreviation loc := nat (only parsing).

(** ** The console *)

(** The three console functions the packages call, and the stream each one
    writes to in Node.js. *)
Inductive console_fn : Type :=
| ConsoleLog
| ConsoleWarn
| ConsoleError.

Inductive channel : Type :=
| Stdout
| Stderr.

Definition channel_of (f : console_fn) : channel :=
  match f with
  | ConsoleLog => Stdout
  | ConsoleWarn => Stderr
  | ConsoleError => Stderr
  end.

(** ** Private helpers, identical in every package *)

(** The line feed character. *)
Definition LF : ascii := "010"%char.

Fixpoint copies (n : nat) (str : string) : string :=
  match n with
  | O => ""
  | S n' => str +:+ copies n' str
  end.

(** [repeat(str, count)] is [new Array(count + 1).join(str)]: an array of
    [count + 1] holes joined by [str], which is [count] copies of [str]
    (none when [count + 1] is 0); a negative length raises [RangeError].
    Arrays and strings are as long as needed here: the limits an engine
    puts on their lengths are left out, like the limits of memory. *)
Definition repeat (str : string) (count : Z) : result string :=
  if count + 1 <? 0 then Throw RangeError
  else Ok (copies (Z.to_nat count) str).

(** A JavaScript value that is a string or [undefined] ([None]), and its
    truth value in a condition: the empty string and [undefined] are
    false. *)
Definition truthy (v : option string) : bool :=
  match v with
  | Some s => negb (String.eqb s "")
  | None => false
  end.

Definition str (v : option string) : string := default "" v.

Definition join2 (str1 str2 : option string) : string :=
  if truthy str1 then
    if truthy str2 then str str1 +:+ " " +:+ str str2 else str str1
  else
    match str2 with
    | None => ""
    | Some s2 => s2
    end.

(** [text.indexOf(pat)]: the position of the first occurrence, or -1. *)
Definition indexOf (text pat : string) : Z :=
  match String.index 0 pat text with
  | Some n => Z.of_nat n
  | None => -1
  end.

(** [text.replace(/\n/g, by)]: every line feed replaced by [by].  The
    replacement is taken literally, as JavaScript does when it holds no
    dollar sign; [indent] is only called with runs of spaces. *)
Fixpoint replace_LF (by_ : string) (text : string) : string :=
  match text with
  | EmptyString => EmptyString
  | String c rest =>
      if Ascii.eqb c LF then by_ +:+ replace_LF by_ rest
      else String c (replace_LF by_ rest)
  end.

Definition indent (indentation text : string) : string :=
  if negb (Nat.eqb (String.length indentation) 0) then
    let text :=
      if negb (indexOf text (String LF "") =? -1)
      then replace_LF (String LF "" +:+ indentation) text
      else text in
    indentation +:+ text
  else text.

(** The class [\w] of a regular expression without the unicode flag:
    ASCII letters, digits and the underscore. *)
Definition is_word_char (c : ascii) : bool :=
  let n := nat_of_ascii c in
  ((48 <=? n) && (n <=? 57) || (65 <=? n) && (n <=? 90)
   || (97 <=? n) && (n <=? 122) || (n =? 95))%nat.

(** The longest prefix of word characters. *)
Fixpoint word_prefix (s : string) : string :=
  match s with
  | EmptyString => EmptyString
  | String c rest =>
      if is_word_char c then String c (word_prefix rest) else EmptyString
  end.

(** [message.match(/\w+/)]: [None] for [null], otherwise element 0 of the
    match, the leftmost longest run of word characters. *)
Fixpoint match_word (message : string) : option string :=
  match message with
  | EmptyString => None
  | String c rest =>
      if is_word_char c then Some (String c (word_prefix rest))
      else match_word rest
  end.

(** The name that [enter] saves for a message,
    [match ? match[0] : message]. *)
Definition saved_name (message : string) : string :=
  match match_word message with
  | Some m0 => m0
  | None => message
  end.

(** [names.push(x)] and [names.pop()] on a JavaScript array used as a
    stack: the top is the last element, and popping an empty array gives
    [undefined]. *)
Definition array_push {A} (a : list A) (x : A) : list A := a ++ [x].

Definition array_pop {A} (a : list A) : option A * list A :=
  (last a, removelast a).

(** A run of [w] spaces, and the separator line that [show] prints before
    the messages. *)
Definition spaces (w : Z) : string := copies (Z.to_nat w) " ".

Definition separator : string := copies 80 "-".

(** A text indented by [wd] spaces: the spaces, then the text with the same
    spaces put after each of its line feeds. *)
Definition indented (wd : Z) (txt : string) : string :=
  spaces wd +:+ replace_LF (String LF (spaces wd)) txt.

(** The severity of a message: which of [log], [warn] and [error]
    enqueued it. *)
Inductive severity : Type :=
| Info
| Warning
| Err.

(** ** Linked cells *)

(** What the two packages share about their queues, stated for any type of
    cell with a [next] field. *)
Section LinkedCells.

Context {Msg : Type} (next : Msg -> option loc).

(** The cells reached from [curr] by following [next], at most [fuel] of
    them. *)
Fixpoint walk (fuel : nat) (h : list Msg) (curr : option loc) : list Msg :=
  match fuel, curr with
  | S fuel', Some a =>
      match h !! a with
      | Some m => m :: walk fuel' h (next m)
      | None => []
      end
  | _, _ => []
  end.

(** Cells are chained in allocation order: each one points to the cell
    allocated after it, and the last one to nothing. *)
Definition linked (h : list Msg) : Prop :=
  forall i m, h !! i = Some m ->
    next m = if decide (S i < length h)%nat then Some (S i) else None.

End LinkedCells.

(** ** packages/trace-console/index.js *)

Module TraceConsole.

(** A queue cell, [function Message(text, width, type)]. *)
Record Message : Type := mkMessage {
  next : option loc;
  text : string;
  width : Z;
  type : Z
}.

(** [Message.prototype.LOG], [WARN], [ERROR]. *)
Definition LOG : Z := 1.
Definition WARN : Z := 2.
Definition ERROR : Z := 3.

(** The private data of the module, [var ctx]. *)
Record Ctx : Type := mkCtx {
  indentSize : Z;
  indentLevel : Z;
  indentWidth : Z;
  head : option loc;
  tail : option loc;
  names : list string
}.

(** Everything the module can read or change: its private data, the heap
    of queue cells, and the calls made to the console so far, oldest
    first. *)
Record World : Type := mkWorld {
  ctx : Ctx;
  heap : list Message;
  console : list (console_fn * string)
}.

Definition set_next (n : option loc) (m : Message) : Message :=
  mkMessage n (text m) (width m) (type m).

Definition set_indentLevel (v : Z) (c : Ctx) : Ctx :=
  mkCtx (indentSize c) v (indentWidth c) (head c) (tail c) (names c).
Definition set_indentWidth (v : Z) (c : Ctx) : Ctx :=
  mkCtx (indentSize c) (indentLevel c) v (head c) (tail c) (names c).
Definition set_head (v : option loc) (c : Ctx) : Ctx :=
  mkCtx (indentSize c) (indentLevel c) (indentWidth c) v (tail c) (names c).
Definition set_tail (v : option loc) (c : Ctx) : Ctx :=
  mkCtx (indentSize c) (indentLevel c) (indentWidth c) (head c) v (names c).
Definition set_names (v : list string) (c : Ctx) : Ctx :=
  mkCtx (indentSize c) (indentLevel c) (indentWidth c) (head c) (tail c) v.

(** The state at module load. *)
Definition init : World :=
  mkWorld (mkCtx 2 0 0 None None []) [] [].

(** *** Primitive actions *)

Definition get_ctx : M World Ctx := fun w => Ok (ctx w, w).

Definition modify_ctx (f : Ctx -> Ctx) : M World unit :=
  fun w => Ok (tt, mkWorld (f (ctx w)) (heap w) (console w)).

(** [new Message(text, width, type)]: a fresh cell whose [next] is
    [null]. *)
Definition new_Message (text : string) (width type : Z) : M World loc :=
  fun w => Ok (length (heap w),
               mkWorld (ctx w) (heap w ++ [mkMessage None text width type])
                       (console w)).

(** Reading the fields of the cell a reference points to. *)
Definition load (a : loc) : M World Message :=
  fun w => match heap w !! a with
           | Some m => Ok (m, w)
           | None => Throw Unallocated
           end.

(** [a.next = n]. *)
Definition store_next (a : loc) (n : option loc) : M World unit :=
  fun w => match heap w !! a with
           | Some m =>
               Ok (tt, mkWorld (ctx w) (<[a := set_next n m]> (heap w))
                               (console w))
           | None => Throw Unallocated
           end.

(** [console.log(line)], [console.warn(line)], [console.error(line)]. *)
Definition console_call (f : console_fn) (line : string) : M World unit :=
  fun w => Ok (tt, mkWorld (ctx w) (heap w) (console w ++ [(f, line)])).

Local Open Scope monad_scope.

(** *** [show] *)

(** The body of the [do ... while (curr)] loop of [show].  [fuel] bounds
    the number of iterations. *)
Fixpoint show_loop (fuel : nat) (curr : loc) (indentwidth : Z)
    (indentation : string) : M World unit :=
  match fuel with
  | O => throw OutOfFuel
  | S fuel' =>
      let* m := load curr in
      let* ind :=
        (if negb (width m =? indentwidth) then
           let* s := lift (repeat " " (width m)) in ret (width m, s)
         else ret (indentwidth, indentation)) in
      (if type m =? LOG then
         console_call ConsoleLog (indent (snd ind) (text m))
       else if type m =? WARN then
         console_call ConsoleWarn (indent (snd ind) (text m))
       else
         console_call ConsoleError (indent (snd ind) (text m)));;
      match next m with
      | Some curr' => show_loop fuel' curr' (fst ind) (snd ind)
      | None => ret tt
      end
  end.

(** [show]: the loop gets one unit of fuel per allocated cell, which is
    enough to walk any chain that does not revisit a cell. *)
Definition show : M World unit :=
  let* c := get_ctx in
  match head c with
  | Some curr =>
      let* dashes := lift (repeat "-" 80) in
      console_call ConsoleLog dashes;;
      (fun w => show_loop (length (heap w)) curr 0 "" w)
  | None => ret tt
  end.

(** *** [write] *)

Definition write (text : string) (type : Z) : M World unit :=
  let* c := get_ctx in
  let* message := new_Message text (indentWidth c) type in
  match head c with
  | None => modify_ctx (set_head (Some message))
  | Some _ =>
      match tail c with
      | Some t => store_next t (Some message)
      | None => throw TypeError
      end
  end;;
  modify_ctx (set_tail (Some message)).

(** *** The exported functions *)

Section Exports.

(** The arguments of a call are values of some type, and [util.format]
    turns a list of them into the formatted message. *)
Variable value : Type.
Variable util_format : list value -> string.

Definition exports_log (args : list value) : M World unit :=
  write (util_format args) LOG.

Definition exports_warn (args : list value) : M World unit :=
  write (util_format args) WARN.

Definition exports_error (args : list value) : M World unit :=
  write (util_format args) ERROR.

Definition exports_ignore (args : list value) : M World unit :=
  ret tt.

Definition exports_indent (args : list value) : M World unit :=
  (if (0 <? length args)%nat then exports_log args else ret tt);;
  modify_ctx (fun c =>
    let c := set_indentLevel (indentLevel c + 1) c in
    set_indentWidth (indentLevel c * indentSize c) c).

Definition exports_unindent : M World unit :=
  let* c := get_ctx in
  if indentLevel c >? 0 then
    modify_ctx (fun c =>
      let c := set_indentLevel (indentLevel c - 1) c in
      set_indentWidth (indentLevel c * indentSize c) c)
  else ret tt.

Definition exports_enter (args : list value) : M World unit :=
  let message := util_format args in
  let match_ := match_word message in
  modify_ctx (fun c =>
    set_names (array_push (names c)
                 (match match_ with Some m0 => m0 | None => message end)) c);;
  let* c := get_ctx in
  let* pad := lift (repeat " " (indentSize c - 1)) in
  let text := ">" +:+ pad +:+ message in
  write text LOG;;
  exports_indent [].

Definition exports_leave (args : list value) : M World unit :=
  let message := util_format args in
  let* c := get_ctx in
  let name := fst (array_pop (names c)) in
  modify_ctx (fun c => set_names (snd (array_pop (names c))) c);;
  let* c := get_ctx in
  let* pad := lift (repeat " " (indentSize c - 1)) in
  let text := "<" +:+ pad +:+ join2 name (Some message) in
  exports_unindent;;
  write text LOG.

(** A call of an exported function.  [group] and [groupEnd] are the same
    functions as [indent] and [unindent]. *)
Inductive call : Type :=
| Log (args : list value)
| Warn (args : list value)
| Error (args : list value)
| Ignore (args : list value)
| Indent (args : list value)
| Unindent
| Enter (args : list value)
| Leave (args : list value).

Definition do_call (c : call) : M World unit :=
  match c with
  | Log args => exports_log args
  | Warn args => exports_warn args
  | Error args => exports_error args
  | Ignore args => exports_ignore args
  | Indent args => exports_indent args
  | Unindent => exports_unindent
  | Enter args => exports_enter args
  | Leave args => exports_leave args
  end.

Fixpoint do_calls (cs : list call) : M World unit :=
  match cs with
  | [] => ret tt
  | c :: cs' => do_call c;; do_calls cs'
  end.

(** The call that enqueues a message of a given severity, and the message
    type it stores. *)
Definition message_call (s : severity) (args : list value) : call :=
  match s with
  | Info => Log args
  | Warning => Warn args
  | Err => Error args
  end.

(** A call that changes the indentation and enqueues nothing. *)
Definition level_call (c : call) : Prop :=
  c = Indent [] \/ c = Unindent.

End Exports.

Definition type_of (s : severity) : Z :=
  match s with
  | Info => LOG
  | Warning => WARN
  | Err => ERROR
  end.

(** *** The queue as a list, and the invariant of the module *)

(** The messages waiting in the queue, head first. *)
Definition queue (w : World) : list Message :=
  walk next (length (heap w)) (heap w) (head (ctx w)).

(** What a message carries besides its link. *)
Definition payload (m : Message) : string * Z * Z :=
  (text m, width m, type m).

Definition pending (w : World) : list (string * Z * Z) :=
  map payload (queue w).

(** What holds of the world after any sequence of calls. *)
Record Inv (w : World) : Prop := mkInv {
  inv_size : indentSize (ctx w) = 2;
  inv_level : 0 <= indentLevel (ctx w);
  inv_width : indentWidth (ctx w) = indentLevel (ctx w) * indentSize (ctx w);
  inv_linked : linked next (heap w);
  inv_head : head (ctx w) =
             match length (heap w) with O => None | S _ => Some O end;
  inv_tail : tail (ctx w) =
             match length (heap w) with O => None | S n => Some n end;
  inv_widths : Forall (fun m => 0 <= width m) (heap w);
  inv_types : Forall (fun m => type m = LOG \/ type m = WARN \/ type m = ERROR)
                     (heap w);
  inv_console : console w = []
}.

(** The message types that [write] is called with. *)
Definition valid_type (ty : Z) : Prop := ty = LOG \/ ty = WARN \/ ty = ERROR.

(** The world after a step: the invariant holds again, and the level, the
    scope names and the messages are the given ones. *)
Definition effect (w w' : World) (level' : Z) (names' : list string)
    (new : list (string * Z * Z)) : Prop :=
  Inv w' /\
  indentLevel (ctx w') = level' /\
  names (ctx w') = names' /\
  map payload (heap w') = (map payload (heap w) ++ new)%list.

(** A message of type [ty] printed with the console function [f] went to
    the channel of its severity: standard output for [LOG], standard error
    for [WARN] and [ERROR]. *)
Definition routed (ty : Z) (f : console_fn) : Prop :=
  ty = LOG /\ channel_of f = Stdout \/
  (ty = WARN \/ ty = ERROR) /\ channel_of f = Stderr.

(** What [show] prints for one message, and for a whole queue. *)
Definition printer_of (type : Z) : console_fn :=
  if type =? LOG then ConsoleLog
  else if type =? WARN then ConsoleWarn
  else ConsoleError.

Definition render (m : Message) : console_fn * string :=
  (printer_of (type m), indent (spaces (width m)) (text m)).

Definition printed (q : list Message) : list (console_fn * string) :=
  match q with
  | [] => []
  | _ :: _ => (ConsoleLog, separator) :: map render q
  end.

End TraceConsole.

(** ** packages/trace-log/idex.js *)

(** The same queue, with cells that carry no message type: every function
    enqueues with [write(text)] and [show] prints every cell with
    [console.log]. *)
Module TraceLog.

(** A queue cell, [function Message(text, width)]. *)
Record Message : Type := mkMessage {
  next : option loc;
  text : string;
  width : Z
}.

Record Ctx : Type := mkCtx {
  indentSize : Z;
  indentLevel : Z;
  indentWidth : Z;
  head : option loc;
  tail : option loc;
  names : list string
}.

Record World : Type := mkWorld {
  ctx : Ctx;
  heap : list Message;
  console : list (console_fn * string)
}.

Definition set_next (n : option loc) (m : Message) : Message :=
  mkMessage n (text m) (width m).

Definition set_indentLevel (v : Z) (c : Ctx) : Ctx :=
  mkCtx (indentSize c) v (indentWidth c) (head c) (tail c) (names c).
Definition set_indentWidth (v : Z) (c : Ctx) : Ctx :=
  mkCtx (indentSize c) (indentLevel c) v (head c) (tail c) (names c).
Definition set_head (v : option loc) (c : Ctx) : Ctx :=
  mkCtx (indentSize c) (indentLevel c) (indentWidth c) v (tail c) (names c).
Definition set_tail (v : option loc) (c : Ctx) : Ctx :=
  mkCtx (indentSize c) (indentLevel c) (indentWidth c) (head c) v (names c).
Definition set_names (v : list string) (c : Ctx) : Ctx :=
  mkCtx (indentSize c) (indentLevel c) (indentWidth c) (head c) (tail c) v.

Definition init : World :=
  mkWorld (mkCtx 2 0 0 None None []) [] [].

Definition get_ctx : M World Ctx := fun w => Ok (ctx w, w).

Definition modify_ctx (f : Ctx -> Ctx) : M World unit :=
  fun w => Ok (tt, mkWorld (f (ctx w)) (heap w) (console w)).

Definition new_Message (text : string) (width : Z) : M World loc :=
  fun w => Ok (length (heap w),
               mkWorld (ctx w) (heap w ++ [mkMessage None text width])
                       (console w)).

Definition load (a : loc) : M World Message :=
  fun w => match heap w !! a with
           | Some m => Ok (m, w)
           | None => Throw Unallocated
           end.

Definition store_next (a : loc) (n : option loc) : M World unit :=
  fun w => match heap w !! a with
           | Some m =>
               Ok (tt, mkWorld (ctx w) (<[a := set_next n m]> (heap w))
                               (console w))
           | None => Throw Unallocated
           end.

Definition console_call (f : console_fn) (line : string) : M World unit :=
  fun w => Ok (tt, mkWorld (ctx w) (heap w) (console w ++ [(f, line)])).

Local Open Scope monad_scope.

Fixpoint show_loop (fuel : nat) (curr : loc) (indentwidth : Z)
    (indentation : string) : M World unit :=
  match fuel with
  | O => throw OutOfFuel
  | S fuel' =>
      let* m := load curr in
      let* ind :=
        (if negb (width m =? indentwidth) then
           let* s := lift (repeat " " (width m)) in ret (width m, s)
         else ret (indentwidth, indentation)) in
      console_call ConsoleLog (indent (snd ind) (text m));;
      match next m with
      | Some curr' => show_loop fuel' curr' (fst ind) (snd ind)
      | None => ret tt
      end
  end.

Definition show : M World unit :=
  let* c := get_ctx in
  match head c with
  | Some curr =>
      let* dashes := lift (repeat "-" 80) in
      console_call ConsoleLog dashes;;
      (fun w => show_loop (length (heap w)) curr 0 "" w)
  | None => ret tt
  end.

Definition write (text : string) : M World unit :=
  let* c := get_ctx in
  let* message := new_Message text (indentWidth c) in
  match head c with
  | None => modify_ctx (set_head (Some message))
  | Some _ =>
      match tail c with
      | Some t => store_next t (Some message)
      | None => throw TypeError
      end
  end;;
  modify_ctx (set_tail (Some message)).

Section Exports.

Variable value : Type.
Variable util_format : list value -> string.

Definition exports_log (args : list value) : M World unit :=
  write (util_format args).

Definition exports_warn (args : list value) : M World unit :=
  write (util_format args).

Definition exports_error (args : list value) : M World unit :=
  write (util_format args).

Definition exports_ignore (args : list value) : M World unit :=
  ret tt.

Definition exports_indent (args : list value) : M World unit :=
  (if (0 <? length args)%nat then exports_log args else ret tt);;
  modify_ctx (fun c =>
    let c := set_indentLevel (indentLevel c + 1) c in
    set_indentWidth (indentLevel c * indentSize c) c).

Definition exports_unindent : M World unit :=
  let* c := get_ctx in
  if indentLevel c >? 0 then
    modify_ctx (fun c =>
      let c := set_indentLevel (indentLevel c - 1) c in
      set_indentWidth (indentLevel c * indentSize c) c)
  else ret tt.

Definition exports_enter (args : list value) : M World unit :=
  let message := util_format args in
  let match_ := match_word message in
  modify_ctx (fun c =>
    set_names (array_push (names c)
                 (match match_ with Some m0 => m0 | None => message end)) c);;
  let* c := get_ctx in
  let* pad := lift (repeat " " (indentSize c - 1)) in
  let text := ">" +:+ pad +:+ message in
  write text;;
  exports_indent [].

Definition exports_leave (args : list value) : M World unit :=
  let message := util_format args in
  let* c := get_ctx in
  let name := fst (array_pop (names c)) in
  modify_ctx (fun c => set_names (snd (array_pop (names c))) c);;
  let* c := get_ctx in
  let* pad := lift (repeat " " (indentSize c - 1)) in
  let text := "<" +:+ pad +:+ join2 name (Some message) in
  exports_unindent;;
  write text.

Inductive call : Type :=
| Log (args : list value)
| Warn (args : list value)
| Error (args : list value)
| Ignore (args : list value)
| Indent (args : list value)
| Unindent
| Enter (args : list value)
| Leave (args : list value).

Definition do_call (c : call) : M World unit :=
  match c with
  | Log args => exports_log args
  | Warn args => exports_warn args
  | Error args => exports_error args
  | Ignore args => exports_ignore args
  | Indent args => exports_indent args
  | Unindent => exports_unindent
  | Enter args => exports_enter args
  | Leave args => exports_leave args
  end.

Fixpoint do_calls (cs : list call) : M World unit :=
  match cs with
  | [] => ret tt
  | c :: cs' => do_call c;; do_calls cs'
  end.

End Exports.

(** *** The queue as a list, and the invariant of the module *)

Definition queue (w : World) : list Message :=
  walk next (length (heap w)) (heap w) (head (ctx w)).

Definition payload (m : Message) : string * Z :=
  (text m, width m).

Definition pending (w : World) : list (string * Z) :=
  map payload (queue w).

Record Inv (w : World) : Prop := mkInv {
  inv_size : indentSize (ctx w) = 2;
  inv_level : 0 <= indentLevel (ctx w);
  inv_width : indentWidth (ctx w) = indentLevel (ctx w) * indentSize (ctx w);
  inv_linked : linked next (heap w);
  inv_head : head (ctx w) =
             match length (heap w) with O => None | S _ => Some O end;
  inv_tail : tail (ctx w) =
             match length (heap w) with O => None | S n => Some n end;
  inv_widths : Forall (fun m => 0 <= width m) (heap w);
  inv_console : console w = []
}.

Definition effect (w w' : World) (level' : Z) (names' : list string)
    (new : list (string * Z)) : Prop :=
  Inv w' /\
  indentLevel (ctx w') = level' /\
  names (ctx w') = names' /\
  map payload (heap w') = (map payload (heap w) ++ new)%list.

Definition render (m : Message) : console_fn * string :=
  (ConsoleLog, indent (spaces (width m)) (text m)).

Definition printed (q : list Message) : list (console_fn * string) :=
  match q with
  | [] => []
  | _ :: _ => (ConsoleLog, separator) :: map render q
  end.

End TraceLog.

(** ** Notions the statements use *)

(** The lines of a text: the pieces between its line feeds. *)
Fixpoint split_LF (s : string) : list string :=
  match s with
  | EmptyString => [EmptyString]
  | String c rest =>
      if Ascii.eqb c LF then EmptyString :: split_LF rest
      else match split_LF rest with
           | l :: ls => String c l :: ls
           | [] => [String c EmptyString]
           end
  end.

(** Lines put back together with one line feed between neighbours. *)
Fixpoint join_LF (ls : list string) : string :=
  match ls with
  | [] => EmptyString
  | l :: ls' =>
      match ls' with
      | [] => l
      | _ :: _ => l +:+ String LF (join_LF ls')
      end
  end.

(** Every character of a string satisfies a test. *)
Fixpoint all_chars (p : ascii -> bool) (s : string) : bool :=
  match s with
  | EmptyString => true
  | String c rest => p c && all_chars p rest
  end.

(** [w] is the first word of [message]: a non-empty run of word characters
    with no word character before it and none right after it. *)
Definition first_word_of (message w : string) : Prop :=
  exists before after,
    message = before +:+ w +:+ after /\
    w <> EmptyString /\
    all_chars is_word_char w = true /\
    all_chars (fun c => negb (is_word_char c)) before = true /\
    match after with
    | EmptyString => True
    | String c _ => is_word_char c = false
    end.

(** The scope name as the specification words it: the first
    whitespace-delimited token of the message, or the whole message when
    there is no such token. *)
Definition is_space (c : ascii) : bool :=
  let n := nat_of_ascii c in
  ((n =? 32) || (9 <=? n) && (n <=? 13))%nat.

Fixpoint until_space (s : string) : string :=
  match s with
  | EmptyString => EmptyString
  | String c rest =>
      if is_space c then EmptyString else String c (until_space rest)
  end.

Fixpoint first_token (s : string) : option string :=
  match s with
  | EmptyString => None
  | String c rest =>
      if is_space c then first_token rest
      else Some (String c (until_space rest))
  end.

Definition scope_name_by_token (message : string) : string :=
  default message (first_token message).

(** A formatter to run the model with: the arguments are strings, joined
    by single spaces. *)
Definition join_args (args : list string) : string := String.concat " " args.

(** ** Sequences of calls *)

Section CallSequences.

Variable value : Type.

(** Calls that come in matched pairs around their bodies: [enter] with
    its [leave], [indent] with its [unindent], with messages and further
    pairs in between and after. *)
Inductive balanced : list (TraceConsole.call value) -> Prop :=
| balanced_nil : balanced []
| balanced_log args cs :
    balanced cs -> balanced (TraceConsole.Log value args :: cs)
| balanced_warn args cs :
    balanced cs -> balanced (TraceConsole.Warn value args :: cs)
| balanced_error args cs :
    balanced cs -> balanced (TraceConsole.Error value args :: cs)
| balanced_ignore args cs :
    balanced cs -> balanced (TraceConsole.Ignore value args :: cs)
| balanced_scope a x body cs :
    balanced body -> balanced cs ->
    balanced (TraceConsole.Enter value a ::
              body ++ TraceConsole.Leave value x :: cs)
| balanced_group a body cs :
    balanced body -> balanced cs ->
    balanced (TraceConsole.Indent value a ::
              body ++ TraceConsole.Unindent value :: cs).

(** The number of messages a call enqueues. *)
Definition enqueues (c : TraceConsole.call value) : nat :=
  match c with
  | TraceConsole.Log _ _ => 1
  | TraceConsole.Warn _ _ => 1
  | TraceConsole.Error _ _ => 1
  | TraceConsole.Ignore _ _ => 0
  | TraceConsole.Indent _ [] => 0
  | TraceConsole.Indent _ (_ :: _) => 1
  | TraceConsole.Unindent _ => 0
  | TraceConsole.Enter _ _ => 1
  | TraceConsole.Leave _ _ => 1
  end.

(** The same call, made to trace-log. *)
Definition to_log_call (c : TraceConsole.call value) : TraceLog.call value :=
  match c with
  | TraceConsole.Log _ args => TraceLog.Log value args
  | TraceConsole.Warn _ args => TraceLog.Warn value args
  | TraceConsole.Error _ args => TraceLog.Error value args
  | TraceConsole.Ignore _ args => TraceLog.Ignore value args
  | TraceConsole.Indent _ args => TraceLog.Indent value args
  | TraceConsole.Unindent _ => TraceLog.Unindent value
  | TraceConsole.Enter _ args => TraceLog.Enter value args
  | TraceConsole.Leave _ args => TraceLog.Leave value args
  end.

End CallSequences.

(** What holds of every message in the queue of trace-console: a width
    that is even and not negative, and one of the three types. *)
Definition entry_ok (p : string * Z * Z) : Prop :=
  0 <= snd (fst p) /\ Z.even (snd (fst p)) = true /\
  TraceConsole.valid_type (snd p).

(** A message of trace-console without its type, as trace-log stores
    it. *)
Definition strip_type (p : string * Z * Z) : string * Z :=
  (fst (fst p), snd (fst p)).

(** A world of trace-console and a world of trace-log are at the same
    point: same level, same names, same messages up to the type. *)
Definition same_point (wc : TraceConsole.World) (wl : TraceLog.World) : Prop :=
  TraceConsole.Inv wc /\ TraceLog.Inv wl /\
  TraceLog.indentLevel (TraceLog.ctx wl)
  = TraceConsole.indentLevel (TraceConsole.ctx wc) /\
  TraceLog.names (TraceLog.ctx wl)
  = TraceConsole.names (TraceConsole.ctx wc) /\
  map TraceLog.payload (TraceLog.heap wl)
  = map strip_type (map TraceConsole.payload (TraceConsole.heap wc)).

(** What the [show] of trace-console prints for a message, from what the
    message carries. *)
Definition render_payload (p : string * Z * Z) : console_fn * string :=
  (TraceConsole.printer_of (snd p), indent (spaces (snd (fst p))) (fst (fst p))).

(** ** The terminal *)

(** What trace-color and color-log read of the process to decide on
    colours, and the decision itself, which the two packages spell out in
    the same words. *)
Module Terminal.

(** [os_release] is [parseInt(os.release(), 10)], [None] for [NaN];
    [TERM] is [process.env.TERM], [None] when the variable is not set;
    [isTTY] of a stream that is not a terminal is [undefined], here
    [false]. *)
Record Env : Type := mkEnv {
  platform : string;
  os_release : option Z;
  TERM : option string;
  stdout_isTTY : bool;
  stderr_isTTY : bool
}.

(** Letters of the two cases are the same character to a regular
    expression with the flag [i]. *)
Definition to_lower (c : ascii) : ascii :=
  let n := nat_of_ascii c in
  if ((65 <=? n) && (n <=? 90))%nat then ascii_of_nat (n + 32) else c.

Definition to_upper (c : ascii) : ascii :=
  let n := nat_of_ascii c in
  if ((97 <=? n) && (n <=? 122))%nat then ascii_of_nat (n - 32) else c.

Fixpoint map_chars (f : ascii -> ascii) (s : string) : string :=
  match s with
  | EmptyString => EmptyString
  | String c rest => String (f c) (map_chars f rest)
  end.

(** [pat] occurs somewhere in [s]. *)
Fixpoint contains (pat s : string) : bool :=
  String.prefix pat s ||
  match s with
  | EmptyString => false
  | String _ rest => contains pat rest
  end.

(** [/^screen|^xterm|^vt100|^rxvt|color|ansi|cygwin|linux/i.test(s)]. *)
Definition terms_test (s : string) : bool :=
  let l := map_chars to_lower s in
  String.prefix "screen" l || String.prefix "xterm" l
  || String.prefix "vt100" l || String.prefix "rxvt" l
  || contains "color" l || contains "ansi" l
  || contains "cygwin" l || contains "linux" l.

(** The argument of [test] as a string: [undefined] reads
    ["undefined"]. *)
Definition to_string (v : option string) : string :=
  default "undefined" v.

Definition hascolor (e : Env) : bool :=
  if String.eqb (platform e) "win32"
     && match os_release e with
        | Some release => 10 <=? release
        | None => false
        end
  then true
  else if terms_test (to_string (TERM e)) then true
  else false.

(** The escape character and the pairs of escape sequences that switch a
    colour on and off. *)
Definition ESC : ascii := "027"%char.

Definition white : string * string := (String ESC "[37m", String ESC "[39m").
Definition yellow : string * string := (String ESC "[33m", String ESC "[39m").
Definition red : string * string := (String ESC "[31m", String ESC "[39m").

(** The object [styles]: a pair of sequences or [null] per console
    function. *)
Record Styles : Type := mkStyles {
  log : option (string * string);
  warn : option (string * string);
  error : option (string * string)
}.

(** A line between the two sequences of a style, or as it is without
    style. *)
Definition styled (style : option (string * string)) (line : string) : string :=
  match style with
  | Some (on, off) => on +:+ line +:+ off
  | None => line
  end.

(** Whether the stream a console function writes to is a terminal. *)
Definition isTTY (e : Env) (c : channel) : bool :=
  match c with
  | Stdout => stdout_isTTY e
  | Stderr => stderr_isTTY e
  end.

End Terminal.

(** ** packages/trace-color/index.js *)

(** trace-color has the [Message], [ctx], [write] and exported functions
    of trace-console, word for word; they are taken from [TraceConsole].
    Its own are the [Printer] and the [show] that prints through it. *)
Module TraceColor.

Import TraceConsole.

Local Open Scope monad_scope.

(** [function Printer()]: the object it builds has the one field
    [styles]. *)
Record Printer : Type := mkPrinter {
  styles : Terminal.Styles
}.

Definition new_Printer (e : Terminal.Env) : Printer :=
  let hascolor := Terminal.hascolor e in
  let outcolor := hascolor && Terminal.stdout_isTTY e in
  let errcolor := hascolor && Terminal.stderr_isTTY e in
  mkPrinter
    (Terminal.mkStyles
       (if outcolor then Some Terminal.white else None)
       (if errcolor then Some Terminal.yellow else None)
       (if errcolor then Some Terminal.red else None)).

(** [Printer.prototype.log], [warn] and [error]. *)
Definition Printer_log (this : Printer) (message : string) : M World unit :=
  match Terminal.log (styles this) with
  | Some (s0, s1) => console_call ConsoleLog (s0 +:+ message +:+ s1)
  | None => console_call ConsoleLog message
  end.

Definition Printer_warn (this : Printer) (message : string) : M World unit :=
  match Terminal.warn (styles this) with
  | Some (s0, s1) => console_call ConsoleWarn (s0 +:+ message +:+ s1)
  | None => console_call ConsoleWarn message
  end.

Definition Printer_error (this : Printer) (message : string) : M World unit :=
  match Terminal.error (styles this) with
  | Some (s0, s1) => console_call ConsoleError (s0 +:+ message +:+ s1)
  | None => console_call ConsoleError message
  end.

Fixpoint show_loop (printer : Printer) (fuel : nat) (curr : loc)
    (indentwidth : Z) (indentation : string) : M World unit :=
  match fuel with
  | O => throw OutOfFuel
  | S fuel' =>
      let* m := load curr in
      let* ind :=
        (if negb (width m =? indentwidth) then
           let* s := lift (repeat " " (width m)) in ret (width m, s)
         else ret (indentwidth, indentation)) in
      (if type m =? LOG then
         Printer_log printer (indent (snd ind) (text m))
       else if type m =? WARN then
         Printer_warn printer (indent (snd ind) (text m))
       else
         Printer_error printer (indent (snd ind) (text m)));;
      match next m with
      | Some curr' => show_loop printer fuel' curr' (fst ind) (snd ind)
      | None => ret tt
      end
  end.

(** [show], in the environment the process has when it exits. *)
Definition show (e : Terminal.Env) : M World unit :=
  let* c := get_ctx in
  match head c with
  | Some curr =>
      let printer := new_Printer e in
      let* dashes := lift (repeat "-" 80) in
      Printer_log printer dashes;;
      (fun w => show_loop printer (length (heap w)) curr 0 "" w)
  | None => ret tt
  end.

(** The style the printer has for a console function, and a call to the
    console with its line put in that style. *)
Definition style_of (p : Printer) (f : console_fn) : option (string * string) :=
  match f with
  | ConsoleLog => Terminal.log (styles p)
  | ConsoleWarn => Terminal.warn (styles p)
  | ConsoleError => Terminal.error (styles p)
  end.

Definition paint (p : Printer) (ev : console_fn * string) : console_fn * string :=
  (fst ev, Terminal.styled (style_of p (fst ev)) (snd ev)).

End TraceColor.

(** ** color-log *)

(** The package that prints at once (the source file whose module name is
    [color-log]).  It has no queue: its state is the indentation it keeps
    for itself when the console has no [group]. *)
Module ColorLog.

Local Open Scope monad_scope.

(** The terminal, and whether [console.group] and [console.groupEnd]
    are defined. *)
Record Env : Type := mkEnv {
  term : Terminal.Env;
  console_group : bool;
  console_groupEnd : bool
}.

(** What the package does to the console: a line printed with one of the
    three functions, or a call of [console.group()] or
    [console.groupEnd()]. *)
Inductive event : Type :=
| Printed (f : console_fn) (line : string)
| ConsoleGroup
| ConsoleGroupEnd.

(** The variable [indentation] and the console. *)
Record State : Type := mkState {
  indentation : string;
  console : list event
}.

Definition init : State := mkState "" [].

Definition console_call (ev : event) : M State unit :=
  fun s => Ok (tt, mkState (indentation s) (console s ++ [ev])).

(** [s.slice(start, end)]: negative positions count from the end, and
    positions are cut to the string. *)
Definition slice (s : string) (start end_ : Z) : string :=
  let len := Z.of_nat (String.length s) in
  let from := if start <? 0 then Z.max (len + start) 0 else Z.min start len in
  let to := if end_ <? 0 then Z.max (len + end_) 0 else Z.min end_ len in
  String.substring (Z.to_nat from) (Z.to_nat (Z.max (to - from) 0)) s.

Section Exports.

Variable value : Type.
Variable util_format : list value -> string.
Variable e : Env.

(** [var styles]: no style for [log]. *)
Definition styles : Terminal.Styles :=
  let hascolor := Terminal.hascolor (term e) in
  Terminal.mkStyles
    None
    (if hascolor then Some Terminal.yellow else None)
    (if hascolor then Some Terminal.red else None).

(** [var indent]: the text as it is when the console has [group],
    otherwise the text behind the current [indentation], by the code of
    the helper [indent]. *)
Definition indent' (text : string) : M State string :=
  if console_group e then ret text
  else fun s => Ok (indent (indentation s) text, s).

Definition exports_log (args : list value) : M State unit :=
  let message := util_format args in
  let style :=
    if Terminal.stdout_isTTY (term e) then Terminal.log styles else None in
  match style with
  | Some (s0, s1) =>
      let* t := indent' message in
      console_call (Printed ConsoleLog (s0 +:+ t +:+ s1))
  | None =>
      let* t := indent' message in
      console_call (Printed ConsoleLog t)
  end.

Definition exports_warn (args : list value) : M State unit :=
  let message := util_format args in
  let style :=
    if Terminal.stderr_isTTY (term e) then Terminal.warn styles else None in
  match style with
  | Some (s0, s1) =>
      let* t := indent' message in
      console_call (Printed ConsoleWarn (s0 +:+ t +:+ s1))
  | None =>
      let* t := indent' message in
      console_call (Printed ConsoleWarn t)
  end.

Definition exports_error (args : list value) : M State unit :=
  let message := util_format args in
  let style :=
    if Terminal.stderr_isTTY (term e) then Terminal.error styles else None in
  match style with
  | Some (s0, s1) =>
      let* t := indent' message in
      console_call (Printed ConsoleError (s0 +:+ t +:+ s1))
  | None =>
      let* t := indent' message in
      console_call (Printed ConsoleError t)
  end.

Definition exports_group (args : list value) : M State unit :=
  if console_group e then
    (if (0 <? length args)%nat then exports_log args else ret tt);;
    console_call ConsoleGroup
  else
    (if (0 <? length args)%nat then exports_log args else ret tt);;
    (fun s => Ok (tt, mkState (indentation s +:+ "  ") (console s))).

Definition exports_groupEnd : M State unit :=
  if console_groupEnd e then console_call ConsoleGroupEnd
  else
    fun s =>
      if negb (Nat.eqb (String.length (indentation s)) 0) then
        Ok (tt, mkState
                  (slice (indentation s) 0
                         (Z.of_nat (String.length (indentation s)) - 2))
                  (console s))
      else Ok (tt, s).

Inductive call : Type :=
| Log (args : list value)
| Warn (args : list value)
| Error (args : list value)
| Group (args : list value)
| GroupEnd.

Definition do_call (c : call) : M State unit :=
  match c with
  | Log args => exports_log args
  | Warn args => exports_warn args
  | Error args => exports_error args
  | Group args => exports_group args
  | GroupEnd => exports_groupEnd
  end.

Fixpoint do_calls (cs : list call) : M State unit :=
  match cs with
  | [] => ret tt
  | c :: cs' => do_call c;; do_calls cs'
  end.

(** The same call made to trace-console, where [group] and [groupEnd]
    are other names of [indent] and [unindent]. *)
Definition to_console_call (c : call) : TraceConsole.call value :=
  match c with
  | Log args => TraceConsole.Log value args
  | Warn args => TraceConsole.Warn value args
  | Error args => TraceConsole.Error value args
  | Group args => TraceConsole.Indent value args
  | GroupEnd => TraceConsole.Unindent value
  end.

(** The style a line printed with a console function gets. *)
Definition style_of (f : console_fn) : option (string * string) :=
  match f with
  | ConsoleLog =>
      if Terminal.stdout_isTTY (term e) then Terminal.log styles else None
  | ConsoleWarn =>
      if Terminal.stderr_isTTY (term e) then Terminal.warn styles else None
  | ConsoleError =>
      if Terminal.stderr_isTTY (term e) then Terminal.error styles else None
  end.

(** A line of trace-console as color-log prints it. *)
Definition paint (ev : console_fn * string) : event :=
  Printed (fst ev) (Terminal.styled (style_of (fst ev)) (snd ev)).

(** color-log and trace-console are at the same point: the indentation
    is the current width in spaces, and the lines printed so far are the
    messages queued so far. *)
Definition in_step (s : State) (wc : TraceConsole.World) : Prop :=
  TraceConsole.Inv wc /\
  indentation s = spaces (TraceConsole.indentWidth (TraceConsole.ctx wc)) /\
  console s
  = map paint (map render_payload
                   (map TraceConsole.payload (TraceConsole.heap wc))).

(** What a call does to the console when the console has [group] and
    [groupEnd]. *)
Definition native_events (c : call) : list event :=
  match c with
  | Log args => [paint (ConsoleLog, util_format args)]
  | Warn args => [paint (ConsoleWarn, util_format args)]
  | Error args => [paint (ConsoleError, util_format args)]
  | Group [] => [ConsoleGroup]
  | Group (a :: args) =>
      [paint (ConsoleLog, util_format (a :: args)); ConsoleGroup]
  | GroupEnd => [ConsoleGroupEnd]
  end.

End Exports.

End ColorLog.

(** ** index.js, the test script *)

(** The script runs a recursive factorial under [enter]/[leave] pairs
    guarded by [try ... finally], on the package it is told to test.
    Its functions return or throw: a computation of the script ends with
    an [outcome], what the script's own [throw] raises being caught by
    its [catch] and seen by its [finally].  An exception raised inside a
    package ([Throw]) is not followed into these handlers: the model of the
    script stops there, and the statements about the script are about runs
    in which no package raises one.  The numbers the script computes are
    [Z]: a factorial is the JavaScript number as long as it stays below
    2^53, which is up to 18!. *)
Module TestScript.

(** The values the script passes around. *)
Inductive jsval : Type :=
| VUndefined
| VNumber (n : Z)
| VString (s : string)
| VError (message : string).

Inductive outcome (A : Type) : Type :=
| Returned (a : A)
| Raised (e : jsval).

Arguments Returned {A} a.
Arguments Raised {A} e.

Definition Script (W A : Type) : Type := M W (outcome A).

Definition sret {W A} (a : A) : Script W A := ret (Returned a).

Definition sbind {W A B} (m : Script W A) (k : A -> Script W B) : Script W B :=
  bind m (fun o => match o with
                   | Returned a => k a
                   | Raised e => ret (Raised e)
                   end).

(** [throw e]. *)
Definition raise {W A} (e : jsval) : Script W A := ret (Raised e).

(** A call of a function that returns nothing and does not throw. *)
Definition call {W} (m : M W unit) : Script W unit :=
  bind m (fun _ => ret (Returned tt)).

(** [try { body } catch (e) { handler }]. *)
Definition try_catch {W A} (body : Script W A) (handler : jsval -> Script W A)
    : Script W A :=
  bind body (fun o => match o with
                      | Returned a => ret (Returned a)
                      | Raised e => handler e
                      end).

(** [try { body } finally { fin }], where [fin] sees what the body has
    assigned before it ended: its result if it came to its end, nothing
    if it threw.  When [fin] ends normally the outcome of the body
    stands; when [fin] throws, that exception replaces it. *)
Definition try_finally {W A} (body : Script W A)
    (fin : option A -> Script W unit) : Script W A :=
  bind body (fun o =>
    bind (fin (match o with Returned a => Some a | Raised _ => None end))
         (fun f => match f with
                   | Returned _ => ret o
                   | Raised e' => ret (Raised e')
                   end)).

Declare Scope script_scope.
Delimit Scope script_scope with script.
Notation "'let*' x ':=' m 'in' k" := (sbind m (fun x => k))
  (at level 10, x name, m at level 100, k at level 200) : script_scope.
Notation "m ;; k" := (sbind m (fun _ => k))
  (at level 100, k at level 200, right associativity) : script_scope.

Local Open Scope script_scope.

(** The module under test, [var trace]: an object that has some of these
    functions. *)
Record Trace (W : Type) : Type := mkTrace {
  log : option (list jsval -> M W unit);
  warn : option (list jsval -> M W unit);
  error : option (list jsval -> M W unit);
  enter : option (list jsval -> M W unit);
  leave : option (list jsval -> M W unit);
  group : option (list jsval -> M W unit);
  groupEnd : option (list jsval -> M W unit)
}.

Arguments log {W} _.
Arguments warn {W} _.
Arguments error {W} _.
Arguments enter {W} _.
Arguments leave {W} _.
Arguments group {W} _.
Arguments groupEnd {W} _.

Section Script.

Variable W : Type.

(** [console.log] and [console.error] of the process, the name of the
    module under test, and the module. *)
Variable console_log : list jsval -> M W unit.
Variable console_error : list jsval -> M W unit.
Variable target : string.
Variable trace : Trace W.

(** The script's own [repeat], the code of the packages' helper. *)
Definition script_repeat (str : string) (count : Z) : Script W string :=
  bind (lift (repeat str count)) (fun s => ret (Returned s)).

Definition prologue : Script W unit :=
  let* dashes := script_repeat "-" 80 in
  call (console_log [VString dashes]);;
  call (console_log [VString ("Testing " +:+ target)]);;
  if String.eqb target "color-log" then
    let* dashes := script_repeat "-" 80 in
    call (console_log [VString dashes])
  else sret tt.

(** The wrappers [log], [warn], [error], [enter] and [leave]: the function
    of the module when it has one, otherwise a fallback. *)
Definition script_log (args : list jsval) : Script W unit :=
  match log trace with
  | Some f => call (f args)
  | None =>
      call (console_error [VString "log is undefined."]);;
      call (console_error args)
  end.

Definition script_warn (args : list jsval) : Script W unit :=
  match warn trace with
  | Some f => call (f args)
  | None =>
      call (console_error [VString "warn is undefined."]);;
      call (console_error args)
  end.

Definition script_error (args : list jsval) : Script W unit :=
  match error trace with
  | Some f => call (f args)
  | None =>
      call (console_error [VString "error is undefined."]);;
      call (console_error args)
  end.

Definition script_enter (args : list jsval) : Script W unit :=
  match enter trace with
  | Some f => call (f args)
  | None =>
      match group trace with
      | Some g => call (g args)
      | None =>
          call (console_error [VString "enter is undefined."]);;
          call (console_error args)
      end
  end.

Definition script_leave (args : list jsval) : Script W unit :=
  match leave trace with
  | Some f => call (f args)
  | None =>
      match groupEnd trace with
      | Some g => call (g []);; script_log args
      | None =>
          call (console_error [VString "leave is undefined."]);;
          call (console_error args)
      end
  end.

(** The variable [result] as an argument: [undefined] until assigned. *)
Definition result_value (result : option Z) : jsval :=
  match result with
  | Some r => VNumber r
  | None => VUndefined
  end.

(** The body of [factorial(value, first)]; [fuel] bounds the depth of the
    recursion. *)
Fixpoint factorial_rec (fuel : nat) (value first : Z) : Script W Z :=
  match fuel with
  | O => throw OutOfFuel
  | S fuel' =>
      script_enter [VString "factorial value=%d"; VNumber value];;
      try_finally
        (if value >? 1 then
           script_log [VString "calculating (%d-1)!"; VNumber value];;
           let* r := factorial_rec fuel' (value - 1) first in
           sret (r * value)
         else
           (if first =? 4 then
              script_warn [VString "throwing..."];;
              try_catch (raise (VError "throwing..."))
                        (fun e => script_error [e]);;
              script_warn [VString "throwing again..."];;
              raise (VError "throwing...")
            else sret tt);;
           script_log [VString "returning 1"];;
           sret 1)
        (fun result =>
           script_leave [VString "result=%d"; result_value result])
  end.

(** [factorial(value, first)]: the recursion is at most [value] calls
    deep, one call deep below 2. *)
Definition factorial (value first : Z) : Script W Z :=
  factorial_rec (S (Z.to_nat value)) value first.

(** The loop [for (i = ...; i < 5; ++i)] of [main], from [i] on. *)
Fixpoint main_loop (fuel : nat) (i : Z) : Script W unit :=
  match fuel with
  | O => throw OutOfFuel
  | S fuel' =>
      if i <? 5 then
        let* f := factorial i i in
        script_log [VString "%d! = %d"; VNumber i; VNumber f];;
        main_loop fuel' (i + 1)
      else sret tt
  end.

Definition main : Script W unit :=
  script_enter [VString "main"];;
  try_finally (main_loop 6 0) (fun _ => script_leave []).

(** The body of the script. *)
Definition run : Script W unit :=
  try_catch
    (prologue;;
     try_catch main (fun e => script_error [e]))
    (fun e => call (console_error [e])).

End Script.

(** trace-console as the module under test. *)
Definition trace_console (util_format : list jsval -> string)
    : Trace TraceConsole.World :=
  mkTrace TraceConsole.World
    (Some (TraceConsole.exports_log jsval util_format))
    (Some (TraceConsole.exports_warn jsval util_format))
    (Some (TraceConsole.exports_error jsval util_format))
    (Some (TraceConsole.exports_enter jsval util_format))
    (Some (TraceConsole.exports_leave jsval util_format))
    (Some (TraceConsole.exports_indent jsval util_format))
    (Some (fun _ => TraceConsole.exports_unindent)).

(** A formatter to run the script with: strings as they are, any other
    value by a one-letter tag, joined by single spaces. *)
Definition tag_format (args : list jsval) : string :=
  String.concat " "
    (map (fun v => match v with
                   | VString s => s
                   | VNumber _ => "n"
                   | VUndefined => "u"
                   | VError _ => "e"
                   end) args).

(** color-log as the module under test: it has neither [enter] nor
    [leave]. *)
Definition trace_color_log (util_format : list jsval -> string)
    (e : ColorLog.Env) : Trace ColorLog.State :=
  mkTrace ColorLog.State
    (Some (ColorLog.exports_log jsval util_format e))
    (Some (ColorLog.exports_warn jsval util_format e))
    (Some (ColorLog.exports_error jsval util_format e))
    None
    None
    (Some (ColorLog.exports_group jsval util_format e))
    (Some (fun _ => ColorLog.exports_groupEnd e)).

(** The factorial of an integer, 1 below 2. *)
Definition Zfact (n : Z) : Z := Z.of_nat (fact (Z.to_nat n)).

(** What [factorial] ends with. *)
Definition factorial_outcome (value first : Z) : outcome Z :=
  if first =? 4 then Raised (VError "throwing...")
  else Returned (Zfact value).

(** A world of trace-console keeps its level and names and gains the
    messages [new]. *)
Definition keeps (w w' : TraceConsole.World) (new : list (string * Z * Z))
    : Prop :=
  TraceConsole.effect w w'
    (TraceConsole.indentLevel (TraceConsole.ctx w))
    (TraceConsole.names (TraceConsole.ctx w)) new.

End TestScript.

(** * Facts *)

(** ** The helpers *)

Lemma append_empty_r (s : string) : s +:+ "" = s.
Proof. induction s as [|c s IH]; simpl; [reflexivity | now rewrite IH]. Qed.

Lemma append_assoc (a b c : string) : (a +:+ b) +:+ c = a +:+ (b +:+ c).
Proof. induction a as [|x a IH]; simpl; [reflexivity | now rewrite IH]. Qed.

Lemma length_copies_char (n : nat) (c : ascii) :
  String.length (copies n (String c "")) = n.
Proof. induction n as [|n IH]; simpl; [reflexivity | now rewrite IH]. Qed.

Lemma repeat_nonneg (s : string) (n : Z) :
  0 <= n -> repeat s n = Ok (copies (Z.to_nat n) s).
Proof.
  intros Hn. unfold repeat.
  destruct (n + 1 <? 0) eqn:E; [apply Z.ltb_lt in E; lia | reflexivity].
Qed.

Lemma repeat_spaces (w : Z) : 0 <= w -> repeat " " w = Ok (spaces w).
Proof. apply repeat_nonneg. Qed.

#[local] Arguments ascii_dec : simpl never.
#[local] Arguments Ascii.eqb : simpl never.

(** When [indexOf] does not find a line feed, the text has none. *)
Lemma index_LF_None (s : string) :
  String.index 0 (String LF "") s = None ->
  all_chars (fun c => negb (Ascii.eqb c LF)) s = true.
Proof.
  induction s as [|c s IH]; simpl; [reflexivity |].
  destruct (ascii_dec LF c) as [->|Hne].
  - destruct s; discriminate.
  - intros H. destruct (String.index 0 (String LF "") s); [discriminate |].
    rewrite IH by reflexivity.
    destruct (Ascii.eqb c LF) eqn:E; [apply Ascii.eqb_eq in E; congruence | reflexivity].
Qed.

Lemma replace_LF_absent (by_ s : string) :
  all_chars (fun c => negb (Ascii.eqb c LF)) s = true -> replace_LF by_ s = s.
Proof.
  induction s as [|c s IH]; simpl; [reflexivity |].
  destruct (Ascii.eqb c LF); simpl; [discriminate |].
  intros H. now rewrite IH.
Qed.

Lemma replace_LF_by_LF (s : string) : replace_LF (String LF "") s = s.
Proof.
  induction s as [|c s IH]; simpl; [reflexivity |].
  destruct (Ascii.eqb c LF) eqn:E; rewrite IH; [|reflexivity].
  apply Ascii.eqb_eq in E. now subst.
Qed.

(** [indent] in closed form: the indentation, then the text with the
    indentation put after every line feed. *)
Lemma indent_closed (ind text : string) :
  indent ind text = ind +:+ replace_LF (String LF ind) text.
Proof.
  unfold indent. destruct ind as [|c ind]; simpl.
  - now rewrite replace_LF_by_LF.
  - f_equal. unfold indexOf.
    destruct (String.index 0 (String LF "") text) as [n|] eqn:E; simpl.
    + destruct (Z.of_nat n =? -1) eqn:E1; [apply Z.eqb_eq in E1; lia | reflexivity].
    + now rewrite replace_LF_absent by now apply index_LF_None.
Qed.

Lemma split_LF_nonempty (s : string) : split_LF s <> [].
Proof.
  induction s as [|c s IH]; simpl; [discriminate |].
  destruct (Ascii.eqb c LF); [discriminate |].
  destruct (split_LF s); discriminate.
Qed.

Lemma replace_LF_lines (ind p text : string) :
  p +:+ replace_LF (String LF ind) text =
  match split_LF text with
  | l :: ls => join_LF ((p +:+ l) :: map (String.append ind) ls)
  | [] => p
  end.
Proof.
  revert p. induction text as [|c s IH]; intros p; simpl.
  - reflexivity.
  - pose proof (split_LF_nonempty s) as Hne.
    destruct (Ascii.eqb c LF) eqn:E.
    + specialize (IH ind).
      destruct (split_LF s) as [|l ls]; [congruence |].
      simpl map. cbv iota. rewrite <- IH, append_empty_r.
      reflexivity.
    + specialize (IH (p +:+ String c "")).
      destruct (split_LF s) as [|l ls]; [congruence |].
      rewrite append_assoc in IH. simpl in IH.
      rewrite IH, append_assoc. reflexivity.
Qed.

(** [indent] line by line: every line of the text gets the indentation. *)
Lemma indent_lines (ind text : string) :
  indent ind text = join_LF (map (String.append ind) (split_LF text)).
Proof.
  rewrite indent_closed, replace_LF_lines.
  pose proof (split_LF_nonempty text).
  destruct (split_LF text); [congruence | reflexivity].
Qed.

Lemma join_split_LF (text : string) : join_LF (split_LF text) = text.
Proof.
  rewrite <- (map_id (split_LF text)).
  rewrite <- (indent_lines "" text) at 1. reflexivity.
Qed.

Lemma word_prefix_split (s : string) :
  exists after,
    s = word_prefix s +:+ after /\
    all_chars is_word_char (word_prefix s) = true /\
    match after with
    | EmptyString => True
    | String c _ => is_word_char c = false
    end.
Proof.
  induction s as [|c s (after & Hs & Hall & Hafter)]; simpl.
  - exists "". auto.
  - destruct (is_word_char c) eqn:E.
    + exists after. simpl. rewrite E, Hall. repeat split; [congruence | assumption].
    + exists (String c s). simpl. auto.
Qed.

(** The regular expression finds the first word of the message. *)
Lemma match_word_Some (s w : string) :
  match_word s = Some w -> first_word_of s w.
Proof.
  revert w. induction s as [|c s IH]; simpl; intros w H; [discriminate |].
  destruct (is_word_char c) eqn:E.
  - injection H as <-.
    destruct (word_prefix_split s) as (after & Hs & Hall & Hafter).
    exists "", after. simpl. rewrite E, Hall.
    repeat split; [congruence | discriminate | assumption].
  - destruct (IH w H) as (before & after & Hs & Hw & Hall & Hb & Ha).
    exists (String c before), after. simpl. rewrite E, Hb.
    repeat split; [congruence | assumption .. ].
Qed.

(** It finds nothing exactly when the message has no word character. *)
Lemma match_word_None (s : string) :
  match_word s = None <->
  all_chars (fun c => negb (is_word_char c)) s = true.
Proof.
  induction s as [|c s IH]; simpl; [tauto |].
  destruct (is_word_char c); simpl; [split; discriminate | exact IH].
Qed.

Lemma truthy_Some (s : string) : truthy (Some s) = true <-> s <> "".
Proof.
  simpl. destruct (String.eqb_spec s ""); simpl; split; congruence.
Qed.

Lemma join2_both (name message : string) :
  name <> "" -> message <> "" ->
  join2 (Some name) (Some message) = name +:+ " " +:+ message.
Proof.
  intros Hn Hm. unfold join2.
  apply truthy_Some in Hn, Hm. now rewrite Hn, Hm.
Qed.

Lemma join2_name_only (name : string) :
  name <> "" -> join2 (Some name) (Some "") = name.
Proof. intros Hn. unfold join2. apply truthy_Some in Hn. now rewrite Hn. Qed.

Lemma join2_message_only (name : option string) (message : string) :
  truthy name = false -> join2 name (Some message) = message.
Proof. intros Hn. unfold join2. now rewrite Hn. Qed.

(** ** Linked cells *)

Section LinkedFacts.

Context {Msg : Type} (next : Msg -> option loc).

Lemma linked_nil : linked next [].
Proof. intros i m H. discriminate. Qed.

Lemma linked_singleton (m : Msg) : next m = None -> linked next [m].
Proof.
  intros Hm i x H. destruct i as [|i]; simpl in *; [|discriminate].
  injection H as <-. exact Hm.
Qed.

(** Appending a fresh cell and making the old last cell point to it keeps
    the chain. *)
Lemma linked_snoc (h : list Msg) (t : loc) (m' mnew : Msg) :
  linked next h ->
  (S t = length h)%nat ->
  next m' = Some (length h) ->
  next mnew = None ->
  linked next (<[t := m']> (h ++ [mnew])%list).
Proof.
  intros Hl Ht Hm' Hnew i m Hi.
  rewrite length_insert, length_app. simpl.
  destruct (decide (i = t)) as [->|Hne].
  - rewrite list_lookup_insert_eq in Hi by (rewrite length_app; simpl; lia).
    injection Hi as <-. rewrite Hm'.
    destruct (decide (S t < length h + 1)%nat); [congruence | lia].
  - rewrite list_lookup_insert_ne in Hi by congruence.
    destruct (decide (i < length h)%nat) as [Hlt|Hge].
    + rewrite lookup_app_l in Hi by assumption.
      rewrite (Hl i m Hi).
      destruct (decide (S i < length h)%nat); [|lia].
      destruct (decide (S i < length h + 1)%nat); [reflexivity | lia].
    + rewrite lookup_app_r in Hi by lia.
      destruct (i - length h)%nat eqn:E; simpl in Hi; [|discriminate].
      injection Hi as <-. rewrite Hnew.
      destruct (decide (S i < length h + 1)%nat); [lia | reflexivity].
Qed.

(** Walking a chain from cell [i] visits the cells from [i] on, in order. *)
Lemma walk_linked (h : list Msg) :
  linked next h ->
  forall k i, (i + k = length h)%nat ->
    walk next k h (Some i) = drop i h.
Proof.
  intros Hl k. induction k as [|k IH]; intros i Hik; cbn [walk].
  - rewrite drop_ge by lia. reflexivity.
  - destruct (lookup_lt_is_Some_2 h i) as [m Hm]; [lia |].
    rewrite Hm, (drop_S _ _ _ Hm). f_equal.
    rewrite (Hl i m Hm).
    destruct (decide (S i < length h)%nat).
    + apply IH. lia.
    + rewrite drop_ge by lia. destruct k; reflexivity.
Qed.

End LinkedFacts.

Lemma bind_Ok {S A B} (m : M S A) (k : A -> M S B) (s s' : S) (a : A) :
  m s = Ok (a, s') -> bind m k s = k a s'.
Proof. intros H. unfold bind. now rewrite H. Qed.

Lemma map_insert_same {A B} (f : A -> B) (l : list A) (i : nat) (x y : A) :
  l !! i = Some y -> f x = f y -> map f (<[i := x]> l) = map f l.
Proof.
  revert i. induction l as [|a l IH]; intros [|i] Hi Hf; simpl in *;
    try discriminate.
  - injection Hi as ->. now rewrite Hf.
  - f_equal. now apply IH.
Qed.

Lemma exec_Ok {S} (m : M S unit) (s s' : S) :
  exec m s = Ok s' <-> m s = Ok (tt, s').
Proof.
  unfold exec. destruct (m s) as [[[] s1]|e]; split; congruence.
Qed.

Lemma exec_bind {S} (m k : M S unit) (s s1 : S) :
  exec m s = Ok s1 -> exec (bind m (fun _ => k)) s = exec k s1.
Proof.
  intros H. apply exec_Ok in H. unfold exec at 1.
  now rewrite (bind_Ok _ _ _ _ _ H).
Qed.

Lemma length_removelast {A} (l : list A) :
  length (removelast l) = (length l - 1)%nat.
Proof.
  destruct l as [|a l]; [reflexivity |].
  destruct (exists_last (l := a :: l)) as (l' & x & ->); [discriminate |].
  rewrite removelast_last, length_app. simpl. lia.
Qed.

(** Splitting an [effect] into its four parts. *)
Ltac effect_split := split; [|split; [|split]].

(** ** trace-console *)

Module ConsoleFacts.

Import TraceConsole.

Local Open Scope monad_scope.

Lemma Inv_init : Inv init.
Proof.
  constructor; simpl; try reflexivity; try lia; try constructor.
  apply linked_nil.
Qed.

(** Changing the level (with its width) and the names keeps the
    invariant. *)
Lemma Inv_ctx (w : World) (level' : Z) (names' : list string) :
  Inv w -> 0 <= level' ->
  Inv (mkWorld (mkCtx (indentSize (ctx w)) level'
                      (level' * indentSize (ctx w))
                      (head (ctx w)) (tail (ctx w)) names')
               (heap w) (console w)).
Proof. intros [] Hl. constructor; simpl; auto. Qed.

Lemma write_spec (w : World) (txt : string) (ty : Z) :
  Inv w -> valid_type ty ->
  exists w', write txt ty w = Ok (tt, w') /\
    effect w w' (indentLevel (ctx w)) (names (ctx w))
           [(txt, indentWidth (ctx w), ty)].
Proof.
  destruct w as [[sz lv wd hd tl ns] h out].
  intros [Hsz Hlv Hwd Hlk Hhd Htl Hws Hts Hout] Hty. simpl in *. subst.
  assert (Hw : 0 <= lv * 2) by lia.
  destruct (length h) as [|n] eqn:Hlen.
  - destruct h; [|discriminate].
    eexists. split; [reflexivity |].
    repeat split; simpl; auto using linked_singleton.
  - destruct (lookup_lt_is_Some_2 h n) as [mt Hmt]; [lia |].
    set (new := mkMessage None txt (lv * 2) ty).
    assert (Hmt' : (h ++ [new])%list !! n = Some mt)
      by (rewrite lookup_app_l by lia; exact Hmt).
    exists (mkWorld (mkCtx 2 lv (lv * 2) (Some 0%nat) (Some (length h)) ns)
              (<[n := set_next (Some (length h)) mt]> (h ++ [new])%list) []).
    split.
    + unfold write, bind, get_ctx, new_Message, store_next, modify_ctx.
      cbn [ctx heap console head tail indentWidth].
      fold new. rewrite Hmt'. reflexivity.
    + repeat split; cbn [ctx heap console indentSize indentLevel indentWidth
                         head tail names]; auto;
        rewrite ?length_insert, ?length_app, ?Nat.add_1_r; cbn [length];
        auto.
      * apply linked_snoc; auto; lia.
      * apply Forall_insert.
        -- apply Forall_app. split; [assumption |].
           constructor; [exact Hw | constructor].
        -- simpl. eapply Forall_lookup_1 in Hmt; [|exact Hws]. exact Hmt.
      * apply Forall_insert.
        -- apply Forall_app. split; [assumption |].
           constructor; [exact Hty | constructor].
        -- simpl. eapply Forall_lookup_1 in Hmt; [|exact Hts]. exact Hmt.
      * rewrite (map_insert_same _ _ _ _ mt Hmt') by reflexivity.
        rewrite map_app. reflexivity.
Qed.

Lemma effect_trans (w w1 w2 : World) l1 n1 new1 l2 n2 new2 :
  effect w w1 l1 n1 new1 -> effect w1 w2 l2 n2 new2 ->
  effect w w2 l2 n2 (new1 ++ new2).
Proof.
  intros (_ & _ & _ & H1) (HI & Hl & Hn & H2).
  effect_split; auto. now rewrite H2, H1, <- app_assoc.
Qed.

(** A change of level and names alone. *)
Lemma effect_ctx (w : World) (level' : Z) (names' : list string) :
  Inv w -> 0 <= level' ->
  effect w (mkWorld (mkCtx (indentSize (ctx w)) level'
                           (level' * indentSize (ctx w))
                           (head (ctx w)) (tail (ctx w)) names')
                    (heap w) (console w))
         level' names' [].
Proof.
  intros HI Hl. effect_split; simpl; auto using Inv_ctx.
  now rewrite app_nil_r.
Qed.

Lemma effect_refl (w : World) :
  Inv w -> effect w w (indentLevel (ctx w)) (names (ctx w)) [].
Proof. intros HI. effect_split; auto. now rewrite app_nil_r. Qed.

(** The queue of a world that satisfies the invariant is its heap. *)
Lemma queue_heap (w : World) : Inv w -> queue w = heap w.
Proof.
  intros HI. unfold queue. rewrite (inv_head w HI).
  destruct (length (heap w)) eqn:E.
  - destruct (heap w); [reflexivity | discriminate].
  - rewrite <- E. now rewrite (walk_linked next _ (inv_linked w HI)) by lia.
Qed.

Lemma pending_heap (w : World) : Inv w -> pending w = map payload (heap w).
Proof. intros HI. unfold pending. now rewrite queue_heap. Qed.

(** *** [show] *)

(** One iteration of the loop: whatever indentation is cached, the cell is
    printed with its own width, and the loop goes on with that width. *)
Lemma show_loop_step (fuel : nat) (i : loc) (iw : Z) (ind : string)
    (c : Ctx) (h : list Message) (out : list (console_fn * string))
    (m : Message) :
  h !! i = Some m -> 0 <= width m -> repeat " " iw = Ok ind ->
  show_loop (S fuel) i iw ind (mkWorld c h out) =
  match next m with
  | Some j =>
      show_loop fuel j (width m) (spaces (width m))
                (mkWorld c h (out ++ [render m]))
  | None => Ok (tt, mkWorld c h (out ++ [render m]))
  end.
Proof.
  intros Hm Hwm Hind.
  cbn [show_loop]. unfold bind at 1, load at 1. cbn [heap]. rewrite Hm.
  assert (Hcache :
    (if negb (width m =? iw)
     then bind (lift (repeat " " (width m))) (fun s => ret (width m, s))
     else ret (iw, ind)) (mkWorld c h out)
    = Ok ((width m, spaces (width m)), mkWorld c h out)).
  { destruct (width m =? iw) eqn:E; simpl.
    - apply Z.eqb_eq in E. subst iw.
      rewrite repeat_spaces in Hind by assumption. now injection Hind as <-.
    - unfold bind, lift. now rewrite repeat_spaces by assumption. }
  rewrite (bind_Ok _ _ _ _ _ Hcache). cbn [fst snd].
  assert (Hprint :
    (if type m =? LOG
     then console_call ConsoleLog (indent (spaces (width m)) (text m))
     else if type m =? WARN
       then console_call ConsoleWarn (indent (spaces (width m)) (text m))
       else console_call ConsoleError (indent (spaces (width m)) (text m)))
      (mkWorld c h out)
    = Ok (tt, mkWorld c h (out ++ [render m]))).
  { unfold render, printer_of.
    destruct (type m =? LOG); [reflexivity |].
    destruct (type m =? WARN); reflexivity. }
  rewrite (bind_Ok _ _ _ _ _ Hprint).
  destruct (next m); reflexivity.
Qed.

(** The loop prints the cells from [i] on and touches nothing but the
    console. *)
Lemma show_loop_spec (h : list Message) :
  linked next h -> Forall (fun m => 0 <= width m) h ->
  forall k i iw ind c out,
    (i + S k = length h)%nat ->
    repeat " " iw = Ok ind ->
    show_loop (S k) i iw ind (mkWorld c h out) =
    Ok (tt, mkWorld c h (out ++ map render (drop i h))).
Proof.
  intros Hl Hw k. induction k as [|k IH]; intros i iw ind c out Hik Hind;
    destruct (lookup_lt_is_Some_2 h i) as [m Hm]; try lia;
    pose proof (Forall_lookup_1 _ _ _ _ Hw Hm) as Hwm; simpl in Hwm;
    rewrite (drop_S _ _ _ Hm), (show_loop_step _ _ _ _ _ _ _ m Hm Hwm Hind),
      (Hl i m Hm);
    destruct (decide (S i < length h)%nat); try lia.
  - rewrite drop_ge by lia. reflexivity.
  - rewrite IH by (try lia; now apply repeat_spaces).
    now rewrite <- app_assoc.
Qed.

(** [show] on a well-formed queue: the separator and the messages are
    appended to the console, and nothing else changes. *)
Lemma show_linked (w : World) :
  head (ctx w) = match length (heap w) with O => None | S _ => Some O end ->
  linked next (heap w) ->
  Forall (fun m => 0 <= width m) (heap w) ->
  show w = Ok (tt, mkWorld (ctx w) (heap w) (console w ++ printed (heap w))).
Proof.
  intros Hhd Hlk Hws.
  destruct w as [c h out]. cbn [ctx heap console] in *.
  unfold show, bind at 1, get_ctx. cbn [ctx]. rewrite Hhd.
  destruct (length h) as [|n] eqn:Hlen.
  - destruct h; [|discriminate]. unfold ret, printed. now rewrite app_nil_r.
  - change (repeat "-" 80) with (Ok separator).
    unfold bind, lift, console_call. cbn [ctx heap console]. rewrite Hlen.
    rewrite (show_loop_spec h Hlk Hws) by (lia || reflexivity).
    rewrite drop_0, <- app_assoc.
    destruct h; [discriminate | reflexivity].
Qed.

Lemma show_spec (w : World) :
  Inv w ->
  show w = Ok (tt, mkWorld (ctx w) (heap w) (console w ++ printed (heap w))).
Proof. intros HI. apply show_linked; apply HI. Qed.

(** *** The exported functions *)

Section WithFormatter.

Variable value : Type.
Variable util_format : list value -> string.

Local Abbreviation exports_log := (exports_log value util_format).
Local Abbreviation exports_warn := (exports_warn value util_format).
Local Abbreviation exports_error := (exports_error value util_format).
Local Abbreviation exports_indent := (exports_indent value util_format).
Local Abbreviation exports_enter := (exports_enter value util_format).
Local Abbreviation exports_leave := (exports_leave value util_format).
Local Abbreviation do_call := (do_call value util_format).
Local Abbreviation do_calls := (do_calls value util_format).

Lemma log_spec (w : World) (args : list value) :
  Inv w ->
  exists w', exports_log args w = Ok (tt, w') /\
    effect w w' (indentLevel (ctx w)) (names (ctx w))
           [(util_format args, indentWidth (ctx w), LOG)].
Proof. intros HI. apply write_spec; [assumption | left; reflexivity]. Qed.

Lemma warn_spec (w : World) (args : list value) :
  Inv w ->
  exists w', exports_warn args w = Ok (tt, w') /\
    effect w w' (indentLevel (ctx w)) (names (ctx w))
           [(util_format args, indentWidth (ctx w), WARN)].
Proof. intros HI. apply write_spec; [assumption | right; left; reflexivity]. Qed.

Lemma error_spec (w : World) (args : list value) :
  Inv w ->
  exists w', exports_error args w = Ok (tt, w') /\
    effect w w' (indentLevel (ctx w)) (names (ctx w))
           [(util_format args, indentWidth (ctx w), ERROR)].
Proof. intros HI. apply write_spec; [assumption | right; right; reflexivity]. Qed.

(** The assignment [ctx.indentWidth = ++ctx.indentLevel * ctx.indentSize]. *)
Lemma increase_spec (w : World) :
  Inv w ->
  exists w',
    modify_ctx (fun c =>
      let c := set_indentLevel (indentLevel c + 1) c in
      set_indentWidth (indentLevel c * indentSize c) c) w = Ok (tt, w') /\
    effect w w' (indentLevel (ctx w) + 1) (names (ctx w)) [].
Proof.
  intros HI. eexists. split; [reflexivity |].
  apply (effect_ctx w (indentLevel (ctx w) + 1) (names (ctx w)) HI).
  pose proof (inv_level _ HI). lia.
Qed.

Lemma indent_spec (w : World) (args : list value) :
  Inv w ->
  exists w', exports_indent args w = Ok (tt, w') /\
    effect w w' (indentLevel (ctx w) + 1) (names (ctx w))
           (match args with
            | [] => []
            | _ :: _ => [(util_format args, indentWidth (ctx w), LOG)]
            end).
Proof.
  intros HI. unfold TraceConsole.exports_indent.
  destruct args as [|a args]; cbn [length Nat.ltb Nat.leb].
  - destruct (increase_spec w HI) as (w' & Hrun & Heff).
    exists w'. split; [|exact Heff]. unfold bind, ret. exact Hrun.
  - destruct (log_spec w (a :: args) HI) as (w1 & Hrun1 & Heff1).
    destruct (increase_spec w1 (proj1 Heff1)) as (w' & Hrun & Heff).
    exists w'. split.
    + rewrite (bind_Ok _ _ _ _ _ Hrun1). exact Hrun.
    + destruct Heff1 as (HI1 & Hl1 & Hn1 & Hp1).
      rewrite Hl1, Hn1 in Heff.
      apply (effect_trans w w1 w' _ _ _ _ _ _
               (conj HI1 (conj Hl1 (conj Hn1 Hp1))) Heff).
Qed.

Lemma unindent_spec (w : World) :
  Inv w ->
  exists w', exports_unindent w = Ok (tt, w') /\
    effect w w' (Z.max 0 (indentLevel (ctx w) - 1)) (names (ctx w)) [].
Proof.
  intros HI. pose proof (inv_level _ HI) as Hl.
  unfold exports_unindent, bind, get_ctx.
  destruct (indentLevel (ctx w) >? 0) eqn:E.
  - eexists. split; [reflexivity |].
    apply Z.gtb_lt in E.
    replace (Z.max 0 (indentLevel (ctx w) - 1)) with (indentLevel (ctx w) - 1)
      by lia.
    apply (effect_ctx w (indentLevel (ctx w) - 1) (names (ctx w)) HI). lia.
  - exists w. split; [reflexivity |].
    assert (indentLevel (ctx w) = 0)
      by (pose proof (Zgt_cases (indentLevel (ctx w)) 0) as G;
          rewrite E in G; lia).
    replace (Z.max 0 (indentLevel (ctx w) - 1)) with (indentLevel (ctx w))
      by lia.
    apply effect_refl, HI.
Qed.

Lemma enter_spec (w : World) (args : list value) :
  Inv w ->
  exists w', exports_enter args w = Ok (tt, w') /\
    effect w w' (indentLevel (ctx w) + 1)
           (names (ctx w) ++ [saved_name (util_format args)])
           [("> " +:+ util_format args, indentWidth (ctx w), LOG)].
Proof.
  intros HI. unfold TraceConsole.exports_enter.
  set (message := util_format args).
  pose proof (effect_ctx w (indentLevel (ctx w))
                (names (ctx w) ++ [saved_name message]) HI (inv_level _ HI))
    as Heff0.
  rewrite <- (inv_width _ HI) in Heff0.
  set (w0 := mkWorld _ _ _) in Heff0.
  assert (Hrun0 : modify_ctx (fun c =>
            set_names (array_push (names c)
              match match_word message with
              | Some m0 => m0
              | None => message
              end) c) w = Ok (tt, w0)) by reflexivity.
  rewrite (bind_Ok _ _ _ _ _ Hrun0).
  unfold bind at 1, get_ctx.
  replace (indentSize (ctx w0)) with 2 by (symmetry; apply (inv_size w HI)).
  change (lift (repeat " " (2 - 1))) with (lift (S := World) (Ok " ")).
  unfold bind at 1, lift.
  destruct (write_spec w0 (">" +:+ " " +:+ message) LOG (proj1 Heff0))
    as (w1 & Hrun1 & Heff1); [left; reflexivity |].
  rewrite (bind_Ok _ _ _ _ _ Hrun1).
  destruct (indent_spec w1 [] (proj1 Heff1)) as (w2 & Hrun2 & Heff2).
  exists w2. split; [exact Hrun2 |].
  pose proof (effect_trans _ _ _ _ _ _ _ _ _ Heff0
               (effect_trans _ _ _ _ _ _ _ _ _ Heff1 Heff2)) as Heff.
  destruct Heff1 as (_ & Hl1 & Hn1 & _).
  rewrite Hl1, Hn1 in Heff. exact Heff.
Qed.

Lemma leave_spec (w : World) (args : list value) :
  Inv w ->
  exists w', exports_leave args w = Ok (tt, w') /\
    effect w w' (Z.max 0 (indentLevel (ctx w) - 1))
           (removelast (names (ctx w)))
           [("< " +:+ join2 (last (names (ctx w))) (Some (util_format args)),
             Z.max 0 (indentLevel (ctx w) - 1) * 2, LOG)].
Proof.
  intros HI. unfold TraceConsole.exports_leave.
  set (message := util_format args).
  unfold bind at 1, get_ctx at 1.
  pose proof (effect_ctx w (indentLevel (ctx w))
                (removelast (names (ctx w))) HI (inv_level _ HI)) as Heff0.
  rewrite <- (inv_width _ HI) in Heff0.
  set (w0 := mkWorld _ _ _) in Heff0.
  assert (Hrun0 : modify_ctx (fun c =>
            set_names (snd (array_pop (names c))) c) w = Ok (tt, w0))
    by reflexivity.
  rewrite (bind_Ok _ _ _ _ _ Hrun0).
  unfold bind at 1, get_ctx.
  replace (indentSize (ctx w0)) with 2 by (symmetry; apply (inv_size w HI)).
  change (lift (repeat " " (2 - 1))) with (lift (S := World) (Ok " ")).
  unfold bind at 1, lift.
  destruct (unindent_spec w0 (proj1 Heff0)) as (w1 & Hrun1 & Heff1).
  rewrite (bind_Ok _ _ _ _ _ Hrun1).
  cbn [array_pop fst].
  destruct (write_spec w1
              ("<" +:+ " " +:+ join2 (last (names (ctx w))) (Some message))
              LOG (proj1 Heff1))
    as (w2 & Hrun2 & Heff2); [left; reflexivity |].
  exists w2. split; [exact Hrun2 |].
  pose proof (effect_trans _ _ _ _ _ _ _ _ _ Heff0
               (effect_trans _ _ _ _ _ _ _ _ _ Heff1 Heff2)) as Heff.
  destruct Heff1 as (HI1 & Hl1 & Hn1 & _).
  rewrite (inv_width _ HI1), (inv_size _ HI1), Hl1, Hn1 in Heff.
  exact Heff.
Qed.

Local Abbreviation message_call := (message_call value).
Local Abbreviation level_call := (level_call value).

Lemma do_call_effect (w : World) (c : call value) :
  Inv w ->
  exists w' lv ns new, do_call c w = Ok (tt, w') /\ effect w w' lv ns new.
Proof.
  intros HI. destruct c as [args|args|args|args|args| |args|args]; simpl.
  - destruct (log_spec w args HI) as (w' & ? & ?); eauto 6.
  - destruct (warn_spec w args HI) as (w' & ? & ?); eauto 6.
  - destruct (error_spec w args HI) as (w' & ? & ?); eauto 6.
  - exists w. do 3 eexists. split; [reflexivity | apply effect_refl, HI].
  - destruct (indent_spec w args HI) as (w' & ? & ?); eauto 6.
  - destruct (unindent_spec w HI) as (w' & ? & ?); eauto 6.
  - destruct (enter_spec w args HI) as (w' & ? & ?); eauto 6.
  - destruct (leave_spec w args HI) as (w' & ? & ?); eauto 6.
Qed.

(** Any sequence of calls runs to the end, keeps the invariant, and only
    appends to the queue. *)
Lemma do_calls_Inv (cs : list (call value)) (w : World) :
  Inv w ->
  exists w' new, exec (do_calls cs) w = Ok w' /\ Inv w' /\
    pending w' = (pending w ++ new)%list.
Proof.
  revert w. induction cs as [|c cs IH]; intros w HI.
  - exists w, []. rewrite app_nil_r. auto.
  - destruct (do_call_effect w c HI) as (w1 & lv & ns & new1 & Hrun & Heff).
    destruct Heff as (HI1 & _ & _ & Hp).
    destruct (IH w1 HI1) as (w' & new & Hrun' & HI' & Hp').
    exists w', (new1 ++ new)%list. split; [|split; [exact HI' |]].
    + cbn [TraceConsole.do_calls]. apply exec_Ok in Hrun.
      now rewrite (exec_bind _ _ _ _ Hrun).
    + rewrite Hp', !pending_heap, Hp, app_assoc by assumption. reflexivity.
Qed.

(** What [show] does to a world that satisfies the invariant. *)
Lemma show_exec (w : World) :
  Inv w ->
  exec show w = Ok (mkWorld (ctx w) (heap w) (printed (queue w))).
Proof.
  intros HI. apply exec_Ok. rewrite (show_spec w HI), queue_heap by assumption.
  now rewrite (inv_console _ HI).
Qed.

(** Messages enqueued one after the other get the width of the moment. *)
Lemma message_calls_spec (msgs : list (severity * list value)) (w : World) :
  Inv w ->
  exists w',
    exec (do_calls (map (fun m => message_call (fst m) (snd m)) msgs)) w
    = Ok w' /\
    Inv w' /\
    ctx w' = mkCtx (indentSize (ctx w)) (indentLevel (ctx w))
                   (indentWidth (ctx w)) (head (ctx w')) (tail (ctx w'))
                   (names (ctx w)) /\
    pending w' =
    (pending w ++
     map (fun m => (util_format (snd m), indentWidth (ctx w), type_of (fst m)))
         msgs)%list.
Proof.
  revert w. induction msgs as [|[sev args] msgs IH]; intros w HI.
  - exists w. rewrite app_nil_r.
    split; [reflexivity | split; [exact HI | split; [|reflexivity]]].
    now destruct w as [[]].
  - assert (Hstep : exists w1,
        do_call (message_call sev args) w = Ok (tt, w1) /\
        effect w w1 (indentLevel (ctx w)) (names (ctx w))
               [(util_format args, indentWidth (ctx w), type_of sev)]).
    { destruct sev; simpl;
        [apply log_spec | apply warn_spec | apply error_spec]; exact HI. }
    destruct Hstep as (w1 & Hrun & HI1 & Hl1 & Hn1 & Hp1).
    destruct (IH w1 HI1) as (w' & Hrun' & HI' & Hc' & Hp').
    assert (Hwd : indentWidth (ctx w1) = indentWidth (ctx w))
      by (rewrite (inv_width _ HI1), (inv_width _ HI), Hl1,
            (inv_size _ HI1), (inv_size _ HI); reflexivity).
    exists w'. split; [|split; [exact HI' | split]].
    + cbn [map TraceConsole.do_calls fst snd]. apply exec_Ok in Hrun.
      now rewrite (exec_bind _ _ _ _ Hrun).
    + rewrite Hc', Hl1, Hn1, Hwd, (inv_size _ HI1), (inv_size _ HI).
      reflexivity.
    + rewrite Hp', !pending_heap, Hp1, Hwd, <- app_assoc by assumption.
      reflexivity.
Qed.

(** Calls that only change the level leave the queue alone. *)
Lemma level_calls_spec (cs : list (call value)) (w : World) :
  Inv w -> Forall level_call cs ->
  exists w', exec (do_calls cs) w = Ok w' /\ Inv w' /\ pending w' = pending w.
Proof.
  intros HI Hcs. revert w HI.
  induction Hcs as [|c cs Hc _ IH]; intros w HI.
  - exists w. auto.
  - assert (Hstep : exists w1 lv, do_call c w = Ok (tt, w1) /\
                      effect w w1 lv (names (ctx w)) []).
    { destruct Hc as [-> | ->]; simpl.
      - destruct (indent_spec w [] HI) as (w1 & ? & ?); eauto.
      - destruct (unindent_spec w HI) as (w1 & ? & ?); eauto. }
    destruct Hstep as (w1 & lv & Hrun & HI1 & _ & _ & Hp1).
    destruct (IH w1 HI1) as (w' & Hrun' & HI' & Hp').
    exists w'. split; [|split; [exact HI' |]].
    + cbn [TraceConsole.do_calls]. apply exec_Ok in Hrun.
      now rewrite (exec_bind _ _ _ _ Hrun).
    + rewrite Hp', !pending_heap, Hp1, app_nil_r by assumption. reflexivity.
Qed.

Lemma printed_lines (q : list Message) :
  map snd (printed q) =
  match map payload q with
  | [] => []
  | _ :: _ =>
      separator :: map (fun p => indented (snd (fst p)) (fst (fst p)))
                       (map payload q)
  end.
Proof.
  destruct q as [|m q]; [reflexivity |].
  cbn [printed map snd]. f_equal. rewrite !map_map.
  f_equal; [apply indent_closed |].
  apply map_ext. intros x. apply indent_closed.
Qed.

(** *** Claims about the queue and its drain *)

(** C1: after any calls, a sequence of [log]/[warn]/[error] calls adds one
    message per call to the queue, in call order, each stamped with the
    indentation width of the moment it was enqueued; calls that change the
    indentation afterwards leave the queue and its widths as they are; and
    [show] then prints, after the separator line, one line per queued
    message, in queue order, each indented by its stored width. *)
Theorem drain_prints_one_line_per_call
    (before : list (call value)) (msgs : list (severity * list value))
    (after : list (call value)) :
  Forall level_call after ->
  exists w0 w1 w2 w',
    exec (do_calls before) init = Ok w0 /\
    exec (do_calls (map (fun m => message_call (fst m) (snd m)) msgs)) w0
    = Ok w1 /\
    exec (do_calls after) w1 = Ok w2 /\
    exec show w2 = Ok w' /\
    pending w1 =
    (pending w0 ++
     map (fun m => (util_format (snd m), indentWidth (ctx w0), type_of (fst m)))
         msgs)%list /\
    pending w2 = pending w1 /\
    map snd (console w') =
    match pending w2 with
    | [] => []
    | _ :: _ =>
        separator :: map (fun p => indented (snd (fst p)) (fst (fst p)))
                         (pending w2)
    end.
Proof.
  intros Hafter.
  destruct (do_calls_Inv before init Inv_init) as (w0 & _ & H0 & HI0 & _).
  destruct (message_calls_spec msgs w0 HI0) as (w1 & H1 & HI1 & _ & Hp1).
  destruct (level_calls_spec after w1 HI1 Hafter) as (w2 & H2 & HI2 & Hp2).
  exists w0, w1, w2, (mkWorld (ctx w2) (heap w2) (printed (queue w2))).
  repeat (split; [assumption |]).
  split; [apply show_exec, HI2 |].
  repeat (split; [assumption |]).
  cbn [console]. apply printed_lines.
Qed.

(** What a step that satisfies [effect] leaves behind, in the terms the
    claims use. *)
Lemma effect_facts (w w' : World) lv ns new :
  Inv w -> effect w w' lv ns new ->
  Inv w' /\
  pending w' = (pending w ++ new)%list /\
  indentLevel (ctx w') = lv /\
  indentWidth (ctx w') = lv * 2 /\
  indentSize (ctx w') = 2 /\
  names (ctx w') = ns.
Proof.
  intros HI (HI' & Hl & Hn & Hp).
  rewrite !pending_heap, (inv_width _ HI'), (inv_size _ HI'), Hl
    by assumption.
  auto 10.
Qed.

(** *** Claims about [enter] and [leave] *)

(** C2: in the world after any calls, [leave] pops the name pushed last
    (the last element of [names]); the line it enqueues is the close
    marker ["<"] padded to one indentation unit, followed by the name and
    the message joined by one space when both are non-empty, by the name
    alone when the message is empty, and by the message alone (possibly
    empty) when there is no name or the name is empty; the line is stamped
    with the width after the decrease.  Nested pairs pop in reverse order:
    after [enter a; enter b], the first [leave] uses the name of [b] and
    the second the name of [a]. *)
Theorem leave_pops_last_name_and_joins
    (cs : list (call value)) (args : list value) :
  exists w w',
    exec (do_calls cs) init = Ok w /\
    exec (exports_leave args) w = Ok w' /\
    names (ctx w') = removelast (names (ctx w)) /\
    indentLevel (ctx w') = Z.max 0 (indentLevel (ctx w) - 1) /\
    indentWidth (ctx w') = indentLevel (ctx w') * indentSize (ctx w') /\
    Z.of_nat (String.length ("<" +:+ " ")) = indentSize (ctx w') /\
    (exists joined,
       pending w' =
       (pending w ++ [("<" +:+ " " +:+ joined, indentWidth (ctx w'), LOG)])%list
       /\
       (forall n, last (names (ctx w)) = Some n -> n <> "" ->
          util_format args <> "" ->
          joined = n +:+ " " +:+ util_format args) /\
       (forall n, last (names (ctx w)) = Some n -> n <> "" ->
          util_format args = "" -> joined = n) /\
       (last (names (ctx w)) = None \/ last (names (ctx w)) = Some "" ->
          joined = util_format args)) /\
    (forall a b : list value,
       exists w2,
         exec (exports_enter a;; exports_enter b;;
               exports_leave [];; exports_leave []) w = Ok w2 /\
         names (ctx w2) = names (ctx w) /\
         pending w2 =
         (pending w ++
          [(">" +:+ " " +:+ util_format a, indentWidth (ctx w), LOG);
           (">" +:+ " " +:+ util_format b, indentWidth (ctx w) + 2, LOG);
           ("<" +:+ " " +:+ join2 (Some (saved_name (util_format b)))
                                  (Some (util_format [])),
            indentWidth (ctx w) + 2, LOG);
           ("<" +:+ " " +:+ join2 (Some (saved_name (util_format a)))
                                  (Some (util_format [])),
            indentWidth (ctx w), LOG)])%list).
Proof.
  destruct (do_calls_Inv cs init Inv_init) as (w & _ & Hw & HI & _).
  destruct (leave_spec w args HI) as (w' & Hrun & Heff).
  destruct (effect_facts _ _ _ _ _ HI Heff)
    as (HI' & Hp & Hl & Hwd & Hsz & Hn).
  exists w, w'. split; [exact Hw |]. split; [now apply exec_Ok |].
  split; [exact Hn |]. split; [exact Hl |].
  split; [now rewrite Hwd, Hl, Hsz |]. split; [now rewrite Hsz |].
  split.
  - exists (join2 (last (names (ctx w))) (Some (util_format args))).
    split; [now rewrite Hp, Hwd |].
    split; [|split].
    + intros n -> Hn1 Hm. now apply join2_both.
    + intros n -> Hn1 ->. now apply join2_name_only.
    + intros [-> | ->]; reflexivity.
  - intros a b.
    destruct (enter_spec w a HI) as (w1 & Hrun1 & Heff1).
    destruct (effect_facts _ _ _ _ _ HI Heff1)
      as (HI1 & Hp1 & Hl1 & Hwd1 & Hsz1 & Hn1).
    destruct (enter_spec w1 b HI1) as (w2 & Hrun2 & Heff2).
    destruct (effect_facts _ _ _ _ _ HI1 Heff2)
      as (HI2 & Hp2 & Hl2 & Hwd2 & Hsz2 & Hn2).
    destruct (leave_spec w2 [] HI2) as (w3 & Hrun3 & Heff3).
    destruct (effect_facts _ _ _ _ _ HI2 Heff3)
      as (HI3 & Hp3 & Hl3 & Hwd3 & Hsz3 & Hn3).
    destruct (leave_spec w3 [] HI3) as (w4 & Hrun4 & Heff4).
    destruct (effect_facts _ _ _ _ _ HI3 Heff4)
      as (HI4 & Hp4 & Hl4 & Hwd4 & Hsz4 & Hn4).
    exists w4. split; [|split].
    + apply exec_Ok in Hrun1, Hrun2, Hrun3.
      rewrite (exec_bind _ _ _ _ Hrun1), (exec_bind _ _ _ _ Hrun2),
        (exec_bind _ _ _ _ Hrun3).
      now apply exec_Ok.
    + rewrite Hn4, Hn3, Hn2, Hn1, !removelast_last. reflexivity.
    + pose proof (inv_level _ HI) as Hlv. pose proof (inv_width _ HI) as Hw0.
      rewrite (inv_size _ HI) in Hw0.
      rewrite Hp4, Hp3, Hp2, Hp1, Hn3, Hn2, Hn1, Hwd1, Hl3, Hl2, Hl1.
      rewrite removelast_last, !last_snoc, Hw0, <- !app_assoc.
      cbn [app].
      replace (Z.max 0 (indentLevel (ctx w) + 1 + 1 - 1))
        with (indentLevel (ctx w) + 1) by lia.
      replace (Z.max 0 (indentLevel (ctx w) + 1 - 1))
        with (indentLevel (ctx w)) by lia.
      replace ((indentLevel (ctx w) + 1) * 2)
        with (indentLevel (ctx w) * 2 + 2) by lia.
      reflexivity.
Qed.

(** C3, amended: in the world after any calls, [enter] enqueues the
    message prefixed with the open marker [">"] padded to one indentation
    unit, stamped with the width before the increase; it pushes the first
    word of the message, that is its leftmost longest run of word
    characters (letters, digits, underscore), or the whole message when it
    has no word character; and it increases the level by one. *)
Theorem enter_enqueues_and_saves_first_word
    (cs : list (call value)) (args : list value) :
  exists w w',
    exec (do_calls cs) init = Ok w /\
    exec (exports_enter args) w = Ok w' /\
    pending w' =
    (pending w ++
     [(">" +:+ " " +:+ util_format args, indentWidth (ctx w), LOG)])%list /\
    Z.of_nat (String.length (">" +:+ " ")) = indentSize (ctx w) /\
    (exists name,
       names (ctx w') = (names (ctx w) ++ [name])%list /\
       (first_word_of (util_format args) name \/
        all_chars (fun c => negb (is_word_char c)) (util_format args) = true /\
        name = util_format args)) /\
    indentLevel (ctx w') = indentLevel (ctx w) + 1 /\
    indentWidth (ctx w') = indentWidth (ctx w) + indentSize (ctx w).
Proof.
  destruct (do_calls_Inv cs init Inv_init) as (w & _ & Hw & HI & _).
  destruct (enter_spec w args HI) as (w' & Hrun & Heff).
  destruct (effect_facts _ _ _ _ _ HI Heff)
    as (HI' & Hp & Hl & Hwd & Hsz & Hn).
  exists w, w'. split; [exact Hw |]. split; [now apply exec_Ok |].
  split; [exact Hp |]. split; [now rewrite (inv_size _ HI) |].
  split; [|split; [exact Hl |]].
  - exists (saved_name (util_format args)). split; [exact Hn |].
    unfold saved_name.
    destruct (match_word (util_format args)) as [m0|] eqn:E.
    + left. now apply match_word_Some.
    + right. split; [now apply match_word_None | reflexivity].
  - rewrite Hwd, (inv_width _ HI), (inv_size _ HI). lia.
Qed.

(** C10: in the world after any calls, [enter] with a message that has no
    word character pushes the message itself and enqueues the open marker
    [">"] with its padding followed by the message, at the current width;
    with no argument at all the message is what [util.format()] returns,
    the empty string. *)
Theorem enter_without_word_saves_message (cs : list (call value)) :
  exists w,
    exec (do_calls cs) init = Ok w /\
    (forall args,
       all_chars (fun c => negb (is_word_char c)) (util_format args) = true ->
       exists w',
         exec (exports_enter args) w = Ok w' /\
         names (ctx w') = (names (ctx w) ++ [util_format args])%list /\
         pending w' =
         (pending w ++
          [(">" +:+ " " +:+ util_format args, indentWidth (ctx w), LOG)])%list)
    /\
    (util_format [] = "" ->
       exists w',
         exec (exports_enter []) w = Ok w' /\
         names (ctx w') = (names (ctx w) ++ [""])%list /\
         pending w' =
         (pending w ++ [(">" +:+ " ", indentWidth (ctx w), LOG)])%list).
Proof.
  destruct (do_calls_Inv cs init Inv_init) as (w & _ & Hw & HI & _).
  exists w. split; [exact Hw |].
  assert (Hgen : forall args,
    all_chars (fun c => negb (is_word_char c)) (util_format args) = true ->
    exists w',
      exec (exports_enter args) w = Ok w' /\
      names (ctx w') = (names (ctx w) ++ [util_format args])%list /\
      pending w' =
      (pending w ++
       [(">" +:+ " " +:+ util_format args, indentWidth (ctx w), LOG)])%list).
  { intros args Hnone.
    destruct (enter_spec w args HI) as (w' & Hrun & Heff).
    destruct (effect_facts _ _ _ _ _ HI Heff)
      as (HI' & Hp & Hl & Hwd & Hsz & Hn).
    exists w'. split; [now apply exec_Ok |]. split; [|exact Hp].
    rewrite Hn. unfold saved_name.
    apply match_word_None in Hnone. now rewrite Hnone. }
  split; [exact Hgen |].
  intros Hnil. destruct (Hgen []) as (w' & Hrun & Hn & Hp).
  - now rewrite Hnil.
  - exists w'. rewrite Hnil in Hn, Hp. auto.
Qed.

(** *** Claims about the indentation level *)

(** C6: after any sequence of calls (none of which raises an exception)
    the level is not negative and the width is the level times the unit,
    which stays 2; when the level is 0, [unindent] changes nothing, and a
    message enqueued after it is stamped with width 0. *)
Theorem level_never_negative (cs : list (call value)) :
  exists w,
    exec (do_calls cs) init = Ok w /\
    0 <= indentLevel (ctx w) /\
    indentWidth (ctx w) = indentLevel (ctx w) * indentSize (ctx w) /\
    indentSize (ctx w) = 2 /\
    (indentLevel (ctx w) = 0 ->
       exec exports_unindent w = Ok w /\
       forall sev args,
         exists w',
           exec (exports_unindent;; do_call (message_call sev args)) w = Ok w'
           /\
           pending w' =
           (pending w ++ [(util_format args, 0, type_of sev)])%list).
Proof.
  destruct (do_calls_Inv cs init Inv_init) as (w & _ & Hw & HI & _).
  exists w. split; [exact Hw |].
  split; [apply HI |]. split; [apply HI |]. split; [apply HI |].
  intros H0.
  assert (Hun : exec exports_unindent w = Ok w).
  { unfold exec, exports_unindent, bind, get_ctx. now rewrite H0. }
  split; [exact Hun |].
  intros sev args.
  destruct (message_calls_spec [(sev, args)] w HI) as (w' & Hrun & _ & _ & Hp).
  exists w'. rewrite (exec_bind _ _ _ _ Hun). split.
  - cbn [map TraceConsole.do_calls fst snd] in Hrun.
    unfold exec in *. unfold bind, ret in Hrun.
    destruct (do_call (message_call sev args) w) as [[[] w1]|e];
      [exact Hrun | discriminate].
  - rewrite Hp. cbn [map fst snd].
    now rewrite (inv_width _ HI), H0.
Qed.

Lemma do_call_bounded (w : World) (c : call value) :
  Inv w -> c <> Unindent value ->
  Z.of_nat (length (names (ctx w))) <= indentLevel (ctx w) ->
  exists w',
    do_call c w = Ok (tt, w') /\ Inv w' /\
    Z.of_nat (length (names (ctx w'))) <= indentLevel (ctx w').
Proof.
  intros HI Hc Hb.
  destruct c as [args|args|args|args|args| |args|args]; simpl;
    [ destruct (log_spec w args HI) as (w' & Hrun & HI' & Hl & Hn & _)
    | destruct (warn_spec w args HI) as (w' & Hrun & HI' & Hl & Hn & _)
    | destruct (error_spec w args HI) as (w' & Hrun & HI' & Hl & Hn & _)
    | exists w; auto
    | destruct (indent_spec w args HI) as (w' & Hrun & HI' & Hl & Hn & _)
    | congruence
    | destruct (enter_spec w args HI) as (w' & Hrun & HI' & Hl & Hn & _)
    | destruct (leave_spec w args HI) as (w' & Hrun & HI' & Hl & Hn & _) ];
    try (exists w'; split; [exact Hrun |]; split; [exact HI' |];
         rewrite Hl, Hn, ?length_app, ?length_removelast; simpl; lia).
Qed.

(** C5, amended: after any sequence of calls of [log], [warn], [error],
    [ignore], [indent], [enter] and [leave] (no direct [unindent]), the
    scope-name stack is at most as long as the nesting level. *)
Theorem names_bounded_by_level_without_unindent (cs : list (call value)) :
  Forall (fun c => c <> Unindent value) cs ->
  exists w,
    exec (do_calls cs) init = Ok w /\
    Z.of_nat (length (names (ctx w))) <= indentLevel (ctx w).
Proof.
  intros Hcs.
  enough (Hgen : forall w, Inv w ->
            Z.of_nat (length (names (ctx w))) <= indentLevel (ctx w) ->
            exists w', exec (do_calls cs) w = Ok w' /\
              Z.of_nat (length (names (ctx w'))) <= indentLevel (ctx w'))
    by (apply Hgen; [apply Inv_init | simpl; lia]).
  induction Hcs as [|c cs Hc _ IH]; intros w HI Hb.
  - exists w. auto.
  - destruct (do_call_bounded w c HI Hc Hb) as (w1 & Hrun & HI1 & Hb1).
    destruct (IH w1 HI1 Hb1) as (w' & Hrun' & Hb').
    exists w'. split; [|exact Hb'].
    cbn [TraceConsole.do_calls]. apply exec_Ok in Hrun.
    now rewrite (exec_bind _ _ _ _ Hrun).
Qed.

(** *** Claims about [show] *)

Lemma pending_nil_heap (w : World) : Inv w -> pending w = [] -> heap w = [].
Proof.
  intros HI Hp. rewrite pending_heap in Hp by assumption.
  destruct (heap w); [reflexivity | discriminate].
Qed.

(** C4, amended: in the world after any calls, [show] on an empty queue
    prints nothing (no separator line) and changes nothing; on any queue,
    a second [show] prints again exactly what the first one printed, the
    separator line included, because [show] does not empty the queue. *)
Theorem drain_again_repeats_output (cs : list (call value)) :
  exists w w1 w2 out,
    exec (do_calls cs) init = Ok w /\
    exec show w = Ok w1 /\
    exec show w1 = Ok w2 /\
    console w1 = (console w ++ out)%list /\
    console w2 = (console w1 ++ out)%list /\
    (pending w = [] -> out = [] /\ w1 = w /\ w2 = w) /\
    (pending w <> [] ->
       exists lines, out = (ConsoleLog, separator) :: lines /\
                     length lines = length (pending w)).
Proof.
  destruct (do_calls_Inv cs init Inv_init) as (w & _ & Hw & HI & _).
  pose proof (show_spec w HI) as H1.
  set (w1 := mkWorld (ctx w) (heap w) (console w ++ printed (heap w))) in H1.
  assert (H2 : show w1 =
               Ok (tt, mkWorld (ctx w) (heap w)
                         (console w1 ++ printed (heap w))))
    by (apply (show_linked w1); apply HI).
  exists w, w1, (mkWorld (ctx w) (heap w) (console w1 ++ printed (heap w))),
    (printed (heap w)).
  split; [exact Hw |]. split; [now apply exec_Ok |].
  split; [now apply exec_Ok |]. split; [reflexivity |].
  split; [reflexivity |]. split.
  - intros Hp. apply (pending_nil_heap w HI) in Hp.
    subst w1. cbn [console]. rewrite Hp. cbn [printed].
    rewrite !app_nil_r, <- Hp. now destruct w.
  - intros Hp. rewrite pending_heap in * by assumption.
    destruct (heap w) as [|m h]; [now contradiction Hp |].
    exists (map render (m :: h)). split; [reflexivity |].
    now rewrite !length_map.
Qed.

Lemma length_spaces (wd : Z) :
  0 <= wd -> Z.of_nat (String.length (spaces wd)) = wd.
Proof. intros H. unfold spaces. rewrite length_copies_char. lia. Qed.

(** C7: in the world after any calls, [show] prints every queued message
    line by line: the text is cut at its line feeds, every piece, not only
    the first, is prefixed with the spaces of the message's stored width,
    and the pieces are joined by line feeds again; the stored width is not
    negative, the prefix has exactly that many characters, and the pieces
    joined without prefix are the text itself. *)
Theorem drain_indents_every_line (cs : list (call value)) :
  exists w w',
    exec (do_calls cs) init = Ok w /\
    exec show w = Ok w' /\
    map snd (console w') =
    match pending w with
    | [] => []
    | _ :: _ =>
        separator ::
        map (fun p =>
               join_LF (map (String.append (spaces (snd (fst p))))
                            (split_LF (fst (fst p)))))
            (pending w)
    end /\
    Forall (fun p => 0 <= snd (fst p) /\
                     Z.of_nat (String.length (spaces (snd (fst p))))
                     = snd (fst p) /\
                     join_LF (split_LF (fst (fst p))) = fst (fst p))
           (pending w).
Proof.
  destruct (do_calls_Inv cs init Inv_init) as (w & _ & Hw & HI & _).
  exists w, (mkWorld (ctx w) (heap w) (printed (queue w))).
  split; [exact Hw |]. split; [now apply show_exec |]. split.
  - cbn [console]. rewrite printed_lines. fold (pending w).
    destruct (pending w) as [|p ps]; [reflexivity |]. f_equal.
    apply map_ext. intros x. unfold indented.
    rewrite <- indent_closed. apply indent_lines.
  - rewrite pending_heap by assumption. apply Forall_map.
    eapply Forall_impl; [apply (inv_widths _ HI) |].
    intros m Hm. simpl. auto using length_spaces, join_split_LF.
Qed.

(** [show] reads the state and writes to the console only, whatever the
    world. *)
Lemma show_loop_frame (fuel : nat) :
  forall (i : loc) (iw : Z) (ind : string) (w w' : World),
    show_loop fuel i iw ind w = Ok (tt, w') ->
    ctx w' = ctx w /\ heap w' = heap w.
Proof.
  induction fuel as [|fuel IH]; intros i iw ind w w' H; [discriminate |].
  cbn [show_loop] in H. unfold bind at 1, load at 1 in H.
  destruct (heap w !! i) as [m|]; [|discriminate].
  unfold bind at 1 in H.
  destruct ((if negb (width m =? iw)
             then bind (lift (repeat " " (width m)))
                       (fun s => ret (width m, s))
             else ret (iw, ind)) w) as [[[iw' ind'] w1]|e] eqn:E1;
    [|discriminate].
  assert (Hw1 : w1 = w).
  { destruct (negb (width m =? iw)).
    - unfold bind, lift, ret in E1.
      destruct (repeat " " (width m)); congruence.
    - unfold ret in E1. congruence. }
  subst w1. cbn [fst snd] in H. unfold bind at 1 in H.
  destruct ((if type m =? LOG
             then console_call ConsoleLog (indent ind' (text m))
             else if type m =? WARN
               then console_call ConsoleWarn (indent ind' (text m))
               else console_call ConsoleError (indent ind' (text m))) w)
    as [[[] w2]|e] eqn:E2; [|discriminate].
  assert (Hw2 : ctx w2 = ctx w /\ heap w2 = heap w).
  { destruct (type m =? LOG); [|destruct (type m =? WARN)];
      unfold console_call in E2; injection E2 as <-; auto. }
  destruct Hw2 as [Hc2 Hh2].
  destruct (next m) as [j|].
  - apply IH in H. destruct H as [-> ->]. auto.
  - unfold ret in H. injection H as <-. auto.
Qed.

Lemma show_frame (w w' : World) :
  exec show w = Ok w' -> ctx w' = ctx w /\ heap w' = heap w.
Proof.
  intros H. apply exec_Ok in H. unfold show, bind at 1, get_ctx in H.
  destruct (head (ctx w)) as [curr|].
  - unfold bind at 1, lift in H.
    destruct (repeat "-" 80) as [dashes|e]; [|discriminate].
    unfold bind at 1, console_call at 1 in H.
    apply show_loop_frame in H. exact H.
  - unfold ret in H. injection H as <-. auto.
Qed.

(** C9: [show] changes no part of the module state.  In the world after
    any calls it returns, and the private data ([head], [tail], level,
    width, names) and the heap of queue cells are what they were, so the
    queue still holds every message; and whatever the world, a [show] that
    returns has left the private data and the heap as they were. *)
Theorem drain_leaves_state_unchanged (cs : list (call value)) :
  (exists w w',
     exec (do_calls cs) init = Ok w /\
     exec show w = Ok w' /\
     ctx w' = ctx w /\ heap w' = heap w /\ queue w' = queue w) /\
  (forall w w' : World,
     exec show w = Ok w' -> ctx w' = ctx w /\ heap w' = heap w).
Proof.
  split; [|exact show_frame].
  destruct (do_calls_Inv cs init Inv_init) as (w & _ & Hw & HI & _).
  exists w, (mkWorld (ctx w) (heap w) (printed (queue w))).
  split; [exact Hw |]. split; [now apply show_exec |]. auto.
Qed.

(** In trace-console every queued message has one of the three types and
    [show] hands it to the console function of its severity. *)
Lemma console_routes_by_severity (cs : list (call value)) :
  exists w w' out,
    exec (do_calls cs) init = Ok w /\
    exec show w = Ok w' /\
    console w' = match out with
                 | [] => []
                 | _ :: _ => (ConsoleLog, separator) :: out
                 end /\
    Forall2 (fun p ev => routed (snd p) (fst ev)) (pending w) out /\
    (forall sev args,
       exists w1,
         exec (do_call (message_call sev args)) w = Ok w1 /\
         pending w1 =
         (pending w ++
          [(util_format args, indentWidth (ctx w), type_of sev)])%list).
Proof.
  destruct (do_calls_Inv cs init Inv_init) as (w & _ & Hw & HI & _).
  exists w, (mkWorld (ctx w) (heap w) (printed (queue w))),
    (map render (queue w)).
  split; [exact Hw |]. split; [now apply show_exec |]. split; [|split].
  - cbn [console]. unfold printed. now destruct (queue w).
  - unfold pending. rewrite queue_heap by assumption.
    pose proof (inv_types _ HI) as Hty.
    induction Hty as [|m h Hm _ IH]; cbn [map]; constructor; [|exact IH].
    unfold render, payload, routed, printer_of. cbn [fst snd].
    destruct Hm as [-> | [-> | ->]]; simpl; auto.
  - intros sev args.
    destruct (message_calls_spec [(sev, args)] w HI)
      as (w1 & Hrun & _ & _ & Hp).
    exists w1. split; [|exact Hp].
    cbn [map TraceConsole.do_calls fst snd] in Hrun.
    unfold exec in *. unfold bind, ret in Hrun.
    destruct (do_call (message_call sev args) w) as [[[] w2]|e];
      [exact Hrun | discriminate].
Qed.

End WithFormatter.

(** The statement above at [indent(); log("a"); warn("b"); unindent()]. *)
Lemma drain_prints_one_line_per_call_witness :
  Forall (level_call string) [Unindent string] /\
  exists w0 w1 w2 w',
    exec (do_calls string join_args [Indent string []]) init = Ok w0 /\
    exec (do_calls string join_args
            (map (fun m => message_call string (fst m) (snd m))
                 [(Info, ["a"]); (Warning, ["b"])])) w0 = Ok w1 /\
    exec (do_calls string join_args [Unindent string]) w1 = Ok w2 /\
    exec show w2 = Ok w' /\
    pending w1 =
    (pending w0 ++
     map (fun m => (join_args (snd m), indentWidth (ctx w0), type_of (fst m)))
         [(Info, ["a"]); (Warning, ["b"])])%list /\
    pending w2 = pending w1 /\
    map snd (console w') =
    match pending w2 with
    | [] => []
    | _ :: _ =>
        separator :: map (fun p => indented (snd (fst p)) (fst (fst p)))
                         (pending w2)
    end.
Proof.
  split.
  - constructor; [right; reflexivity | constructor].
  - apply (drain_prints_one_line_per_call string join_args
             [Indent string []] [(Info, ["a"]); (Warning, ["b"])]
             [Unindent string]).
    constructor; [right; reflexivity | constructor].
Defined.


(** The statement above at [enter("bar baz"); leave("done")], and its last
    part at [enter("A"); enter("B"); leave(); leave()] from module load. *)
Lemma leave_pops_last_name_and_joins_witness :
  (exists w w',
     exec (do_calls string join_args [Enter string ["bar baz"]]) init = Ok w /\
     exec (exports_leave string join_args ["done"]) w = Ok w' /\
     last (names (ctx w)) = Some "bar" /\
     names (ctx w') = [] /\
     pending w' = [("> bar baz", 0, LOG); ("< bar done", 0, LOG)]) /\
  (exists w2,
     exec (exports_enter string join_args ["A"];;
           exports_enter string join_args ["B"];;
           exports_leave string join_args [];;
           exports_leave string join_args [])%monad init = Ok w2 /\
     names (ctx w2) = [] /\
     pending w2 = [("> A", 0, LOG); ("> B", 2, LOG);
                   ("< B", 2, LOG); ("< A", 0, LOG)]).
Proof.
  split.
  - destruct (leave_pops_last_name_and_joins string join_args
                [Enter string ["bar baz"]] ["done"])
      as (w & w' & Hw & Hrun & Hn & _ & _ & _ & (joined & Hp & Hboth & _) & _).
    exists w, w'. split; [exact Hw |]. split; [exact Hrun |].
    vm_compute in Hw. injection Hw as <-.
    split; [reflexivity |]. split; [exact Hn |].
    rewrite Hp, (Hboth "bar" eq_refl); [|discriminate |discriminate].
    vm_compute in Hrun. injection Hrun as <-. reflexivity.
  - destruct (leave_pops_last_name_and_joins string join_args [] [])
      as (w & _ & Hw & _ & _ & _ & _ & _ & _ & Hnest).
    vm_compute in Hw. injection Hw as <-.
    destruct (Hnest ["A"] ["B"]) as (w2 & Hrun & Hn & Hp).
    exists w2. split; [exact Hrun |]. split; [exact Hn | exact Hp].
Defined.

(** C3, as stated, fails on [enter("a-b")] at module load: the first
    whitespace-delimited token of the message is ["a-b"], and the name
    pushed is ["a"]. *)
Lemma enter_saves_first_token_counterexample :
  ~ exists w',
      exec (exports_enter string join_args ["a-b"]) init = Ok w' /\
      names (ctx w') =
      (names (ctx init) ++ [scope_name_by_token (join_args ["a-b"])])%list.
Proof.
  intros (w' & Hrun & Hn). vm_compute in Hrun. injection Hrun as <-.
  vm_compute in Hn. discriminate.
Qed.

(** C4, as stated, fails after [log("a")]: the second [show] prints the
    separator and the message again. *)
Lemma drain_twice_counterexample :
  exists w1 w2,
    exec (exports_log string join_args ["a"];; show)%monad init = Ok w1 /\
    exec show w1 = Ok w2 /\
    console w1 = [(ConsoleLog, separator); (ConsoleLog, "a")] /\
    console w2 = [(ConsoleLog, separator); (ConsoleLog, "a");
                  (ConsoleLog, separator); (ConsoleLog, "a")] /\
    w2 <> w1.
Proof.
  eexists. eexists. split; [vm_compute; reflexivity |].
  split; [vm_compute; reflexivity |]. split; [reflexivity |].
  split; [reflexivity | discriminate].
Qed.

(** The statement above after [indent()], when the queue is empty. *)
Lemma drain_again_repeats_output_witness :
  exists w,
    exec (do_calls string join_args [Indent string []]) init = Ok w /\
    pending w = [] /\
    exec show w = Ok w.
Proof.
  destruct (drain_again_repeats_output string join_args [Indent string []])
    as (w & w1 & w2 & out & Hw & H1 & _ & _ & _ & Hempty & _).
  exists w. split; [exact Hw |].
  vm_compute in Hw. injection Hw as <-.
  split; [reflexivity |].
  destruct (Hempty eq_refl) as (_ & Hw1 & _). now rewrite Hw1 in H1.
Defined.

(** C5, as stated, fails on [enter("A"); unindent()]: one name is left on
    the stack at level 0. *)
Lemma names_bounded_by_level_counterexample :
  exists w,
    exec (do_calls string join_args [Enter string ["A"]; Unindent string])
         init = Ok w /\
    names (ctx w) = ["A"] /\
    indentLevel (ctx w) = 0 /\
    ~ Z.of_nat (length (names (ctx w))) <= indentLevel (ctx w).
Proof.
  eexists. split; [vm_compute; reflexivity |].
  split; [reflexivity |]. split; [reflexivity |]. simpl. lia.
Qed.

(** The statement above at [enter("A"); leave(); leave()]. *)
Lemma names_bounded_by_level_without_unindent_witness :
  Forall (fun c => c <> Unindent string)
         [Enter string ["A"]; Leave string []; Leave string []] /\
  exists w,
    exec (do_calls string join_args
            [Enter string ["A"]; Leave string []; Leave string []]) init
    = Ok w /\
    Z.of_nat (length (names (ctx w))) <= indentLevel (ctx w).
Proof.
  assert (H : Forall (fun c => c <> Unindent string)
                [Enter string ["A"]; Leave string []; Leave string []])
    by (repeat constructor; discriminate).
  split; [exact H |].
  exact (names_bounded_by_level_without_unindent string join_args _ H).
Defined.

(** The statement above after [unindent()] at module load, followed by
    [warn("x")]. *)
Lemma level_never_negative_witness :
  exists w,
    exec (do_calls string join_args [Unindent string]) init = Ok w /\
    indentLevel (ctx w) = 0 /\
    exec (exports_unindent) w = Ok w /\
    exists w',
      exec (exports_unindent;;
            do_call string join_args (message_call string Warning ["x"]))%monad
           w = Ok w' /\
      pending w' = (pending w ++ [("x", 0, WARN)])%list.
Proof.
  destruct (level_never_negative string join_args [Unindent string])
    as (w & Hw & _ & _ & _ & Hzero).
  exists w. split; [exact Hw |].
  assert (H0 : indentLevel (ctx w) = 0)
    by (vm_compute in Hw; injection Hw as <-; reflexivity).
  split; [exact H0 |].
  destruct (Hzero H0) as (Hun & Hmsg). split; [exact Hun |].
  exact (Hmsg Warning ["x"]).
Defined.

(** The second part of the statement above at the world after [log("a")]. *)
Lemma drain_leaves_state_unchanged_witness :
  let w := mkWorld (mkCtx 2 0 0 (Some 0%nat) (Some 0%nat) [])
                   [mkMessage None "a" 0 LOG] [] in
  let w' := mkWorld (mkCtx 2 0 0 (Some 0%nat) (Some 0%nat) [])
                    [mkMessage None "a" 0 LOG]
                    [(ConsoleLog, separator); (ConsoleLog, "a")] in
  exec show w = Ok w' /\ ctx w' = ctx w /\ heap w' = heap w.
Proof.
  intros w w'.
  assert (H : exec show w = Ok w') by reflexivity.
  split; [exact H |].
  exact (proj2 (drain_leaves_state_unchanged string join_args []) w w' H).
Defined.

(** The statement above at module load, for [enter("--")] and [enter()]. *)
Lemma enter_without_word_saves_message_witness :
  all_chars (fun c => negb (is_word_char c)) (join_args ["--"]) = true /\
  join_args [] = "" /\
  exists w,
    exec (do_calls string join_args []) init = Ok w /\
    (exists w',
       exec (exports_enter string join_args ["--"]) w = Ok w' /\
       names (ctx w') = (names (ctx w) ++ ["--"])%list /\
       pending w' = (pending w ++ [("> --", indentWidth (ctx w), LOG)])%list)
    /\
    (exists w',
       exec (exports_enter string join_args []) w = Ok w' /\
       names (ctx w') = (names (ctx w) ++ [""])%list /\
       pending w' = (pending w ++ [("> ", indentWidth (ctx w), LOG)])%list).
Proof.
  split; [reflexivity |]. split; [reflexivity |].
  destruct (enter_without_word_saves_message string join_args [])
    as (w & Hw & Hnone & Hnil).
  exists w. split; [exact Hw |]. split.
  - exact (Hnone ["--"] eq_refl).
  - exact (Hnil eq_refl).
Defined.

End ConsoleFacts.

(** ** trace-log *)

(** The same facts for the queue of trace-log; their names start with
    [tl_]. *)

Module LogFacts.

Import TraceLog.

Local Open Scope monad_scope.

Lemma tl_Inv_init : Inv init.
Proof.
  constructor; simpl; try reflexivity; try lia; try constructor.
  apply linked_nil.
Qed.

(** Changing the level (with its width) and the names keeps the
    invariant. *)
Lemma tl_Inv_ctx (w : World) (level' : Z) (names' : list string) :
  Inv w -> 0 <= level' ->
  Inv (mkWorld (mkCtx (indentSize (ctx w)) level'
                      (level' * indentSize (ctx w))
                      (head (ctx w)) (tail (ctx w)) names')
               (heap w) (console w)).
Proof. intros [] Hl. constructor; simpl; auto. Qed.

Lemma tl_write_spec (w : World) (txt : string) :
  Inv w ->
  exists w', write txt w = Ok (tt, w') /\
    effect w w' (indentLevel (ctx w)) (names (ctx w))
           [(txt, indentWidth (ctx w))].
Proof.
  destruct w as [[sz lv wd hd tl ns] h out].
  intros [Hsz Hlv Hwd Hlk Hhd Htl Hws Hout]. simpl in *. subst.
  assert (Hw : 0 <= lv * 2) by lia.
  destruct (length h) as [|n] eqn:Hlen.
  - destruct h; [|discriminate].
    eexists. split; [reflexivity |].
    repeat split; simpl; auto using linked_singleton.
  - destruct (lookup_lt_is_Some_2 h n) as [mt Hmt]; [lia |].
    set (new := mkMessage None txt (lv * 2)).
    assert (Hmt' : (h ++ [new])%list !! n = Some mt)
      by (rewrite lookup_app_l by lia; exact Hmt).
    exists (mkWorld (mkCtx 2 lv (lv * 2) (Some 0%nat) (Some (length h)) ns)
              (<[n := set_next (Some (length h)) mt]> (h ++ [new])%list) []).
    split.
    + unfold write, bind, get_ctx, new_Message, store_next, modify_ctx.
      cbn [ctx heap console head tail indentWidth].
      fold new. rewrite Hmt'. reflexivity.
    + repeat split; cbn [ctx heap console indentSize indentLevel indentWidth
                         head tail names]; auto;
        rewrite ?length_insert, ?length_app, ?Nat.add_1_r; cbn [length];
        auto.
      * apply linked_snoc; auto; lia.
      * apply Forall_insert.
        -- apply Forall_app. split; [assumption |].
           constructor; [exact Hw | constructor].
        -- simpl. eapply Forall_lookup_1 in Hmt; [|exact Hws]. exact Hmt.
      * rewrite (map_insert_same _ _ _ _ mt Hmt') by reflexivity.
        rewrite map_app. reflexivity.
Qed.

Lemma tl_effect_trans (w w1 w2 : World) l1 n1 new1 l2 n2 new2 :
  effect w w1 l1 n1 new1 -> effect w1 w2 l2 n2 new2 ->
  effect w w2 l2 n2 (new1 ++ new2).
Proof.
  intros (_ & _ & _ & H1) (HI & Hl & Hn & H2).
  effect_split; auto. now rewrite H2, H1, <- app_assoc.
Qed.

(** A change of level and names alone. *)
Lemma tl_effect_ctx (w : World) (level' : Z) (names' : list string) :
  Inv w -> 0 <= level' ->
  effect w (mkWorld (mkCtx (indentSize (ctx w)) level'
                           (level' * indentSize (ctx w))
                           (head (ctx w)) (tail (ctx w)) names')
                    (heap w) (console w))
         level' names' [].
Proof.
  intros HI Hl. effect_split; simpl; auto using tl_Inv_ctx.
  now rewrite app_nil_r.
Qed.

Lemma tl_effect_refl (w : World) :
  Inv w -> effect w w (indentLevel (ctx w)) (names (ctx w)) [].
Proof. intros HI. effect_split; auto. now rewrite app_nil_r. Qed.

(** The queue of a world that satisfies the invariant is its heap. *)
Lemma tl_queue_heap (w : World) : Inv w -> queue w = heap w.
Proof.
  intros HI. unfold queue. rewrite (inv_head w HI).
  destruct (length (heap w)) eqn:E.
  - destruct (heap w); [reflexivity | discriminate].
  - rewrite <- E. now rewrite (walk_linked next _ (inv_linked w HI)) by lia.
Qed.

Lemma tl_pending_heap (w : World) : Inv w -> pending w = map payload (heap w).
Proof. intros HI. unfold pending. now rewrite tl_queue_heap. Qed.

(** *** [show] *)

(** One iteration of the loop: whatever indentation is cached, the cell is
    printed with its own width, and the loop goes on with that width. *)
Lemma tl_show_loop_step (fuel : nat) (i : loc) (iw : Z) (ind : string)
    (c : Ctx) (h : list Message) (out : list (console_fn * string))
    (m : Message) :
  h !! i = Some m -> 0 <= width m -> repeat " " iw = Ok ind ->
  show_loop (S fuel) i iw ind (mkWorld c h out) =
  match next m with
  | Some j =>
      show_loop fuel j (width m) (spaces (width m))
                (mkWorld c h (out ++ [render m]))
  | None => Ok (tt, mkWorld c h (out ++ [render m]))
  end.
Proof.
  intros Hm Hwm Hind.
  cbn [show_loop]. unfold bind at 1, load at 1. cbn [heap]. rewrite Hm.
  assert (Hcache :
    (if negb (width m =? iw)
     then bind (lift (repeat " " (width m))) (fun s => ret (width m, s))
     else ret (iw, ind)) (mkWorld c h out)
    = Ok ((width m, spaces (width m)), mkWorld c h out)).
  { destruct (width m =? iw) eqn:E; simpl.
    - apply Z.eqb_eq in E. subst iw.
      rewrite repeat_spaces in Hind by assumption. now injection Hind as <-.
    - unfold bind, lift. now rewrite repeat_spaces by assumption. }
  rewrite (bind_Ok _ _ _ _ _ Hcache). cbn [fst snd].
  assert (Hprint :
    console_call ConsoleLog (indent (spaces (width m)) (text m))
      (mkWorld c h out)
    = Ok (tt, mkWorld c h (out ++ [render m]))) by reflexivity.
  rewrite (bind_Ok _ _ _ _ _ Hprint).
  destruct (next m); reflexivity.
Qed.

(** The loop prints the cells from [i] on and touches nothing but the
    console. *)
Lemma tl_show_loop_spec (h : list Message) :
  linked next h -> Forall (fun m => 0 <= width m) h ->
  forall k i iw ind c out,
    (i + S k = length h)%nat ->
    repeat " " iw = Ok ind ->
    show_loop (S k) i iw ind (mkWorld c h out) =
    Ok (tt, mkWorld c h (out ++ map render (drop i h))).
Proof.
  intros Hl Hw k. induction k as [|k IH]; intros i iw ind c out Hik Hind;
    destruct (lookup_lt_is_Some_2 h i) as [m Hm]; try lia;
    pose proof (Forall_lookup_1 _ _ _ _ Hw Hm) as Hwm; simpl in Hwm;
    rewrite (drop_S _ _ _ Hm), (tl_show_loop_step _ _ _ _ _ _ _ m Hm Hwm Hind),
      (Hl i m Hm);
    destruct (decide (S i < length h)%nat); try lia.
  - rewrite drop_ge by lia. reflexivity.
  - rewrite IH by (try lia; now apply repeat_spaces).
    now rewrite <- app_assoc.
Qed.

(** [show] on a well-formed queue: the separator and the messages are
    appended to the console, and nothing else changes. *)
Lemma tl_show_linked (w : World) :
  head (ctx w) = match length (heap w) with O => None | S _ => Some O end ->
  linked next (heap w) ->
  Forall (fun m => 0 <= width m) (heap w) ->
  show w = Ok (tt, mkWorld (ctx w) (heap w) (console w ++ printed (heap w))).
Proof.
  intros Hhd Hlk Hws.
  destruct w as [c h out]. cbn [ctx heap console] in *.
  unfold show, bind at 1, get_ctx. cbn [ctx]. rewrite Hhd.
  destruct (length h) as [|n] eqn:Hlen.
  - destruct h; [|discriminate]. unfold ret, printed. now rewrite app_nil_r.
  - change (repeat "-" 80) with (Ok separator).
    unfold bind, lift, console_call. cbn [ctx heap console]. rewrite Hlen.
    rewrite (tl_show_loop_spec h Hlk Hws) by (lia || reflexivity).
    rewrite drop_0, <- app_assoc.
    destruct h; [discriminate | reflexivity].
Qed.

Lemma tl_show_spec (w : World) :
  Inv w ->
  show w = Ok (tt, mkWorld (ctx w) (heap w) (console w ++ printed (heap w))).
Proof. intros HI. apply tl_show_linked; apply HI. Qed.

(** *** The exported functions *)

Section WithFormatter.

Variable value : Type.
Variable util_format : list value -> string.

Local Abbreviation exports_log := (exports_log value util_format).
Local Abbreviation exports_warn := (exports_warn value util_format).
Local Abbreviation exports_error := (exports_error value util_format).
Local Abbreviation exports_indent := (exports_indent value util_format).
Local Abbreviation exports_enter := (exports_enter value util_format).
Local Abbreviation exports_leave := (exports_leave value util_format).
Local Abbreviation do_call := (do_call value util_format).
Local Abbreviation do_calls := (do_calls value util_format).

Lemma tl_log_spec (w : World) (args : list value) :
  Inv w ->
  exists w', exports_log args w = Ok (tt, w') /\
    effect w w' (indentLevel (ctx w)) (names (ctx w))
           [(util_format args, indentWidth (ctx w))].
Proof. apply tl_write_spec. Qed.

Lemma tl_warn_spec (w : World) (args : list value) :
  Inv w ->
  exists w', exports_warn args w = Ok (tt, w') /\
    effect w w' (indentLevel (ctx w)) (names (ctx w))
           [(util_format args, indentWidth (ctx w))].
Proof. apply tl_write_spec. Qed.

Lemma tl_error_spec (w : World) (args : list value) :
  Inv w ->
  exists w', exports_error args w = Ok (tt, w') /\
    effect w w' (indentLevel (ctx w)) (names (ctx w))
           [(util_format args, indentWidth (ctx w))].
Proof. apply tl_write_spec. Qed.

(** The assignment [ctx.indentWidth = ++ctx.indentLevel * ctx.indentSize]. *)
Lemma tl_increase_spec (w : World) :
  Inv w ->
  exists w',
    modify_ctx (fun c =>
      let c := set_indentLevel (indentLevel c + 1) c in
      set_indentWidth (indentLevel c * indentSize c) c) w = Ok (tt, w') /\
    effect w w' (indentLevel (ctx w) + 1) (names (ctx w)) [].
Proof.
  intros HI. eexists. split; [reflexivity |].
  apply (tl_effect_ctx w (indentLevel (ctx w) + 1) (names (ctx w)) HI).
  pose proof (inv_level _ HI). lia.
Qed.

Lemma tl_indent_spec (w : World) (args : list value) :
  Inv w ->
  exists w', exports_indent args w = Ok (tt, w') /\
    effect w w' (indentLevel (ctx w) + 1) (names (ctx w))
           (match args with
            | [] => []
            | _ :: _ => [(util_format args, indentWidth (ctx w))]
            end).
Proof.
  intros HI. unfold TraceLog.exports_indent.
  destruct args as [|a args]; cbn [length Nat.ltb Nat.leb].
  - destruct (tl_increase_spec w HI) as (w' & Hrun & Heff).
    exists w'. split; [|exact Heff]. unfold bind, ret. exact Hrun.
  - destruct (tl_log_spec w (a :: args) HI) as (w1 & Hrun1 & Heff1).
    destruct (tl_increase_spec w1 (proj1 Heff1)) as (w' & Hrun & Heff).
    exists w'. split.
    + rewrite (bind_Ok _ _ _ _ _ Hrun1). exact Hrun.
    + destruct Heff1 as (HI1 & Hl1 & Hn1 & Hp1).
      rewrite Hl1, Hn1 in Heff.
      apply (tl_effect_trans w w1 w' _ _ _ _ _ _
               (conj HI1 (conj Hl1 (conj Hn1 Hp1))) Heff).
Qed.

Lemma tl_unindent_spec (w : World) :
  Inv w ->
  exists w', exports_unindent w = Ok (tt, w') /\
    effect w w' (Z.max 0 (indentLevel (ctx w) - 1)) (names (ctx w)) [].
Proof.
  intros HI. pose proof (inv_level _ HI) as Hl.
  unfold exports_unindent, bind, get_ctx.
  destruct (indentLevel (ctx w) >? 0) eqn:E.
  - eexists. split; [reflexivity |].
    apply Z.gtb_lt in E.
    replace (Z.max 0 (indentLevel (ctx w) - 1)) with (indentLevel (ctx w) - 1)
      by lia.
    apply (tl_effect_ctx w (indentLevel (ctx w) - 1) (names (ctx w)) HI). lia.
  - exists w. split; [reflexivity |].
    assert (indentLevel (ctx w) = 0)
      by (pose proof (Zgt_cases (indentLevel (ctx w)) 0) as G;
          rewrite E in G; lia).
    replace (Z.max 0 (indentLevel (ctx w) - 1)) with (indentLevel (ctx w))
      by lia.
    apply tl_effect_refl, HI.
Qed.

Lemma tl_enter_spec (w : World) (args : list value) :
  Inv w ->
  exists w', exports_enter args w = Ok (tt, w') /\
    effect w w' (indentLevel (ctx w) + 1)
           (names (ctx w) ++ [saved_name (util_format args)])
           [("> " +:+ util_format args, indentWidth (ctx w))].
Proof.
  intros HI. unfold TraceLog.exports_enter.
  set (message := util_format args).
  pose proof (tl_effect_ctx w (indentLevel (ctx w))
                (names (ctx w) ++ [saved_name message]) HI (inv_level _ HI))
    as Heff0.
  rewrite <- (inv_width _ HI) in Heff0.
  set (w0 := mkWorld _ _ _) in Heff0.
  assert (Hrun0 : modify_ctx (fun c =>
            set_names (array_push (names c)
              match match_word message with
              | Some m0 => m0
              | None => message
              end) c) w = Ok (tt, w0)) by reflexivity.
  rewrite (bind_Ok _ _ _ _ _ Hrun0).
  unfold bind at 1, get_ctx.
  replace (indentSize (ctx w0)) with 2 by (symmetry; apply (inv_size w HI)).
  change (lift (repeat " " (2 - 1))) with (lift (S := World) (Ok " ")).
  unfold bind at 1, lift.
  destruct (tl_write_spec w0 (">" +:+ " " +:+ message) (proj1 Heff0))
    as (w1 & Hrun1 & Heff1).
  rewrite (bind_Ok _ _ _ _ _ Hrun1).
  destruct (tl_indent_spec w1 [] (proj1 Heff1)) as (w2 & Hrun2 & Heff2).
  exists w2. split; [exact Hrun2 |].
  pose proof (tl_effect_trans _ _ _ _ _ _ _ _ _ Heff0
               (tl_effect_trans _ _ _ _ _ _ _ _ _ Heff1 Heff2)) as Heff.
  destruct Heff1 as (_ & Hl1 & Hn1 & _).
  rewrite Hl1, Hn1 in Heff. exact Heff.
Qed.

Lemma tl_leave_spec (w : World) (args : list value) :
  Inv w ->
  exists w', exports_leave args w = Ok (tt, w') /\
    effect w w' (Z.max 0 (indentLevel (ctx w) - 1))
           (removelast (names (ctx w)))
           [("< " +:+ join2 (last (names (ctx w))) (Some (util_format args)),
             Z.max 0 (indentLevel (ctx w) - 1) * 2)].
Proof.
  intros HI. unfold TraceLog.exports_leave.
  set (message := util_format args).
  unfold bind at 1, get_ctx at 1.
  pose proof (tl_effect_ctx w (indentLevel (ctx w))
                (removelast (names (ctx w))) HI (inv_level _ HI)) as Heff0.
  rewrite <- (inv_width _ HI) in Heff0.
  set (w0 := mkWorld _ _ _) in Heff0.
  assert (Hrun0 : modify_ctx (fun c =>
            set_names (snd (array_pop (names c))) c) w = Ok (tt, w0))
    by reflexivity.
  rewrite (bind_Ok _ _ _ _ _ Hrun0).
  unfold bind at 1, get_ctx.
  replace (indentSize (ctx w0)) with 2 by (symmetry; apply (inv_size w HI)).
  change (lift (repeat " " (2 - 1))) with (lift (S := World) (Ok " ")).
  unfold bind at 1, lift.
  destruct (tl_unindent_spec w0 (proj1 Heff0)) as (w1 & Hrun1 & Heff1).
  rewrite (bind_Ok _ _ _ _ _ Hrun1).
  cbn [array_pop fst].
  destruct (tl_write_spec w1
              ("<" +:+ " " +:+ join2 (last (names (ctx w))) (Some message))
              (proj1 Heff1))
    as (w2 & Hrun2 & Heff2).
  exists w2. split; [exact Hrun2 |].
  pose proof (tl_effect_trans _ _ _ _ _ _ _ _ _ Heff0
               (tl_effect_trans _ _ _ _ _ _ _ _ _ Heff1 Heff2)) as Heff.
  destruct Heff1 as (HI1 & Hl1 & Hn1 & _).
  rewrite (inv_width _ HI1), (inv_size _ HI1), Hl1, Hn1 in Heff.
  exact Heff.
Qed.


Lemma tl_do_call_effect (w : World) (c : call value) :
  Inv w ->
  exists w' lv ns new, do_call c w = Ok (tt, w') /\ effect w w' lv ns new.
Proof.
  intros HI. destruct c as [args|args|args|args|args| |args|args]; simpl.
  - destruct (tl_log_spec w args HI) as (w' & ? & ?); eauto 6.
  - destruct (tl_warn_spec w args HI) as (w' & ? & ?); eauto 6.
  - destruct (tl_error_spec w args HI) as (w' & ? & ?); eauto 6.
  - exists w. do 3 eexists. split; [reflexivity | apply tl_effect_refl, HI].
  - destruct (tl_indent_spec w args HI) as (w' & ? & ?); eauto 6.
  - destruct (tl_unindent_spec w HI) as (w' & ? & ?); eauto 6.
  - destruct (tl_enter_spec w args HI) as (w' & ? & ?); eauto 6.
  - destruct (tl_leave_spec w args HI) as (w' & ? & ?); eauto 6.
Qed.

(** Any sequence of calls runs to the end, keeps the invariant, and only
    appends to the queue. *)
Lemma tl_do_calls_Inv (cs : list (call value)) (w : World) :
  Inv w ->
  exists w' new, exec (do_calls cs) w = Ok w' /\ Inv w' /\
    pending w' = (pending w ++ new)%list.
Proof.
  revert w. induction cs as [|c cs IH]; intros w HI.
  - exists w, []. rewrite app_nil_r. auto.
  - destruct (tl_do_call_effect w c HI) as (w1 & lv & ns & new1 & Hrun & Heff).
    destruct Heff as (HI1 & _ & _ & Hp).
    destruct (IH w1 HI1) as (w' & new & Hrun' & HI' & Hp').
    exists w', (new1 ++ new)%list. split; [|split; [exact HI' |]].
    + cbn [TraceLog.do_calls]. apply exec_Ok in Hrun.
      now rewrite (exec_bind _ _ _ _ Hrun).
    + rewrite Hp', !tl_pending_heap, Hp, app_assoc by assumption. reflexivity.
Qed.

(** What [show] does to a world that satisfies the invariant. *)
Lemma tl_show_exec (w : World) :
  Inv w ->
  exec show w = Ok (mkWorld (ctx w) (heap w) (printed (queue w))).
Proof.
  intros HI. apply exec_Ok. rewrite (tl_show_spec w HI), tl_queue_heap by assumption.
  now rewrite (inv_console _ HI).
Qed.

(** In trace-log every queued message, whichever function enqueued it, is
    printed with [console.log]. *)
Lemma tl_all_to_console_log (cs : list (call value)) :
  exists w w',
    exec (do_calls cs) init = Ok w /\
    exec show w = Ok w' /\
    Forall (fun ev => fst ev = ConsoleLog /\ channel_of (fst ev) = Stdout)
           (console w') /\
    length (console w') =
    match pending w with
    | [] => O
    | _ :: _ => S (length (pending w))
    end /\
    (forall args,
       exists w1 w2,
         exec (exports_warn args) w = Ok w1 /\
         pending w1 = (pending w ++ [(util_format args, indentWidth (ctx w))])%list
         /\
         exec (exports_error args) w = Ok w2 /\
         pending w2 = (pending w ++ [(util_format args, indentWidth (ctx w))])%list).
Proof.
  destruct (tl_do_calls_Inv cs init tl_Inv_init) as (w & _ & Hw & HI & _).
  exists w, (mkWorld (ctx w) (heap w) (printed (queue w))).
  split; [exact Hw |]. split; [now apply tl_show_exec |].
  cbn [console]. unfold pending. split; [|split].
  - unfold printed. destruct (queue w) as [|m q]; [constructor |].
    constructor; [split; reflexivity |].
    apply Forall_map, Forall_forall. intros x _. split; reflexivity.
  - unfold printed. destruct (queue w) as [|m q]; [reflexivity |].
    cbn [length]. now rewrite !length_map.
  - intros args.
    destruct (tl_warn_spec w args HI) as (w1 & Hrun1 & HI1 & _ & _ & Hp1).
    destruct (tl_error_spec w args HI) as (w2 & Hrun2 & HI2 & _ & _ & Hp2).
    exists w1, w2. fold (pending w1) (pending w2) (pending w).
    rewrite !tl_pending_heap by assumption.
    split; [now apply exec_Ok |]. split; [exact Hp1 |].
    split; [now apply exec_Ok | exact Hp2].
Qed.

End WithFormatter.

End LogFacts.

(** ** Both packages *)

(** C8, amended: during [show], trace-console routes every message to the
    channel of its severity, messages enqueued by [log] (type [LOG]) to
    standard output, and messages enqueued by [warn] and [error] (types
    [WARN] and [ERROR]) to standard error; trace-log stores no severity
    and prints every message, also those enqueued by [warn] and [error],
    with [console.log] on standard output. *)
Theorem drain_routes_by_severity_in_trace_console
    (value : Type) (util_format : list value -> string)
    (cs : list (TraceConsole.call value)) (cs' : list (TraceLog.call value)) :
  (exists w w' out,
     exec (TraceConsole.do_calls value util_format cs) TraceConsole.init
     = Ok w /\
     exec TraceConsole.show w = Ok w' /\
     TraceConsole.console w' = match out with
                               | [] => []
                               | _ :: _ => (ConsoleLog, separator) :: out
                               end /\
     Forall2 (fun p ev => TraceConsole.routed (snd p) (fst ev))
             (TraceConsole.pending w) out /\
     (forall sev args,
        exists w1,
          exec (TraceConsole.do_call value util_format
                  (TraceConsole.message_call value sev args)) w = Ok w1 /\
          TraceConsole.pending w1 =
          (TraceConsole.pending w ++
           [(util_format args, TraceConsole.indentWidth (TraceConsole.ctx w),
             TraceConsole.type_of sev)])%list)) /\
  (exists w w',
     exec (TraceLog.do_calls value util_format cs') TraceLog.init = Ok w /\
     exec TraceLog.show w = Ok w' /\
     Forall (fun ev => fst ev = ConsoleLog /\ channel_of (fst ev) = Stdout)
            (TraceLog.console w') /\
     length (TraceLog.console w') =
     match TraceLog.pending w with
     | [] => O
     | _ :: _ => S (length (TraceLog.pending w))
     end /\
     (forall args,
        exists w1 w2,
          exec (TraceLog.exports_warn value util_format args) w = Ok w1 /\
          TraceLog.pending w1 =
          (TraceLog.pending w ++
           [(util_format args, TraceLog.indentWidth (TraceLog.ctx w))])%list /\
          exec (TraceLog.exports_error value util_format args) w = Ok w2 /\
          TraceLog.pending w2 =
          (TraceLog.pending w ++
           [(util_format args, TraceLog.indentWidth (TraceLog.ctx w))])%list)).
Proof.
  split.
  - apply ConsoleFacts.console_routes_by_severity.
  - apply LogFacts.tl_all_to_console_log.
Qed.

(** C8, as stated, fails in trace-log on [warn("w")]: [show] prints the
    warning with [console.log], and nothing goes to standard error. *)
Lemma drain_routes_warning_to_stderr_counterexample :
  exists w',
    exec (bind (TraceLog.exports_warn string join_args ["w"])
               (fun _ => TraceLog.show)) TraceLog.init = Ok w' /\
    TraceLog.console w' = [(ConsoleLog, separator); (ConsoleLog, "w")] /\
    ~ exists f line,
        In (f, line) (TraceLog.console w') /\ channel_of f = Stderr.
Proof.
  eexists. split; [vm_compute; reflexivity |]. split; [reflexivity |].
  intros (f & line & [H | [H | []]] & Hf); injection H as <- _; discriminate.
Qed.

(** * More of the code *)

(** ** The helpers *)

Lemma length_append (a b : string) :
  String.length (a +:+ b) = (String.length a + String.length b)%nat.
Proof. induction a as [|c a IH]; simpl; [reflexivity | now rewrite IH]. Qed.


Lemma copies_add (m n : nat) (s : string) :
  copies (m + n) s = copies m s +:+ copies n s.
Proof.
  induction m as [|m IH]; simpl; [reflexivity |].
  now rewrite IH, append_assoc.
Qed.




Lemma all_chars_append (p : ascii -> bool) (a b : string) :
  all_chars p (a +:+ b) = all_chars p a && all_chars p b.
Proof.
  induction a as [|c a IH]; simpl; [reflexivity |].
  now rewrite IH, andb_assoc.
Qed.







Lemma word_prefix_of_word (w : string) :
  all_chars is_word_char w = true -> word_prefix w = w.
Proof.
  induction w as [|c w IH]; simpl; [reflexivity |].
  destruct (is_word_char c); simpl; [|discriminate].
  intros H. now rewrite IH.
Qed.

(** The name that [enter] saves is stable: saving the name of a saved
    name gives the same name, and a saved name that holds a word
    character holds nothing else. *)
Theorem saved_name_idempotent (message : string) :
  saved_name (saved_name message) = saved_name message /\
  (all_chars (fun c => negb (is_word_char c)) message = false ->
   all_chars is_word_char (saved_name message) = true).
Proof.
  unfold saved_name at 2 3 4.
  destruct (match_word message) as [w|] eqn:E.
  - destruct (match_word_Some _ _ E) as (_ & _ & _ & Hne & Hall & _).
    split; [|intros _; exact Hall].
    unfold saved_name. destruct w as [|c w]; [congruence |].
    simpl in *. destruct (is_word_char c); [|discriminate].
    simpl in Hall. now rewrite word_prefix_of_word.
  - split; [unfold saved_name; now rewrite E |].
    apply match_word_None in E. congruence.
Qed.

(** The statement above at ["a-b c"], whose saved name is ["a"]. *)
Lemma saved_name_idempotent_witness :
  saved_name "a-b c" = "a" /\
  all_chars is_word_char (saved_name "a-b c") = true.
Proof.
  split; [reflexivity |].
  exact (proj2 (saved_name_idempotent "a-b c") eq_refl).
Defined.

(** ** trace-console: how calls compose *)

Module ConsoleSequences.

Import TraceConsole ConsoleFacts.

Local Open Scope monad_scope.

Section WithFormatter.

Variable value : Type.
Variable util_format : list value -> string.

Local Abbreviation exports_log := (exports_log value util_format).
Local Abbreviation exports_indent := (exports_indent value util_format).
Local Abbreviation exports_enter := (exports_enter value util_format).
Local Abbreviation exports_leave := (exports_leave value util_format).
Local Abbreviation do_call := (do_call value util_format).
Local Abbreviation do_calls := (do_calls value util_format).
Local Abbreviation reach := (do_calls_Inv value util_format).

Lemma exec_do_calls_cons (c : call value) (cs : list (call value))
    (w w1 : World) :
  do_call c w = Ok (tt, w1) ->
  exec (do_calls (c :: cs)) w = exec (do_calls cs) w1.
Proof.
  intros H. cbn [TraceConsole.do_calls]. apply exec_bind. now apply exec_Ok.
Qed.

Lemma exec_do_calls_app (cs1 cs2 : list (call value)) (w w1 : World) :
  exec (do_calls cs1) w = Ok w1 ->
  exec (do_calls (cs1 ++ cs2)) w = exec (do_calls cs2) w1.
Proof.
  revert w. induction cs1 as [|c cs1 IH]; intros w H.
  - injection H as <-. reflexivity.
  - cbn [app TraceConsole.do_calls] in *. unfold exec, bind in *.
    destruct (do_call c w) as [[[] w2]|e]; [|discriminate].
    now apply IH.
Qed.

Lemma lookup_map {A B} (f : A -> B) (l : list A) (i : nat) :
  map f l !! i = option_map f (l !! i).
Proof.
  revert i. induction l as [|a l IH]; intros [|i]; simpl; auto.
Qed.

(** Two chains of cells with the same payloads are the same heap. *)
Lemma linked_payload_ext (h h' : list Message) :
  linked next h -> linked next h' ->
  map payload h = map payload h' -> h = h'.
Proof.
  intros Hl Hl' Hp.
  assert (Hlen : length h = length h')
    by (rewrite <- (length_map payload h), Hp; apply length_map).
  apply list_eq. intros i.
  destruct (h !! i) as [m|] eqn:Hm.
  - destruct (lookup_lt_is_Some_2 h' i) as [m' Hm'];
      [rewrite <- Hlen; eapply lookup_lt_Some; exact Hm |].
    rewrite Hm'. f_equal.
    pose proof (Hl i m Hm) as Hn. pose proof (Hl' i m' Hm') as Hn'.
    rewrite <- Hlen in Hn'.
    assert (Hpm : payload m = payload m').
    { apply (f_equal (fun l => l !! i)) in Hp.
      rewrite !lookup_map, Hm, Hm' in Hp. simpl in Hp. congruence. }
    destruct m, m'. unfold payload in Hpm. simpl in *. congruence.
  - symmetry. apply lookup_ge_None. rewrite <- Hlen.
    now apply lookup_ge_None.
Qed.

(** Two worlds that satisfy the invariant and agree on level, names and
    messages are the same world. *)
Lemma Inv_ext (w w' : World) :
  Inv w -> Inv w' ->
  indentLevel (ctx w') = indentLevel (ctx w) ->
  names (ctx w') = names (ctx w) ->
  map payload (heap w') = map payload (heap w) ->
  w' = w.
Proof.
  intros HI HI' Hl Hn Hp.
  pose proof (linked_payload_ext _ _ (inv_linked _ HI') (inv_linked _ HI) Hp)
    as Hh.
  pose proof (inv_size _ HI). pose proof (inv_size _ HI').
  pose proof (inv_width _ HI). pose proof (inv_width _ HI').
  pose proof (inv_head _ HI). pose proof (inv_head _ HI').
  pose proof (inv_tail _ HI). pose proof (inv_tail _ HI').
  pose proof (inv_console _ HI). pose proof (inv_console _ HI').
  destruct w as [[sz lv wd hd tl ns] h out].
  destruct w' as [[sz' lv' wd' hd' tl' ns'] h' out'].
  simpl in *. subst. reflexivity.
Qed.

(** [indent(args); unindent()], that is [group(args); groupEnd()], does
    what [log(args)] does when there are arguments and nothing when there
    are none; and above level 0, [unindent(); indent()] does nothing. *)
Theorem indent_unindent_round_trip
    (cs : list (call value)) (args : list value) :
  exists w,
    exec (do_calls cs) init = Ok w /\
    exec (exports_indent args;; exports_unindent) w =
    exec (match args with [] => ret tt | _ :: _ => exports_log args end) w /\
    exec (exports_indent [];; exports_unindent) w = Ok w /\
    (0 < indentLevel (ctx w) ->
     exec (exports_unindent;; exports_indent []) w = Ok w).
Proof.
  destruct (reach cs init Inv_init) as (w & _ & Hw & HI & _).
  exists w. split; [exact Hw |].
  assert (Hpair : forall w0, Inv w0 ->
            exec (exports_indent [];; exports_unindent) w0 = Ok w0).
  { intros w0 HI0.
    destruct (indent_spec value util_format w0 [] HI0)
      as (w1 & Hrun1 & HI1 & Hl1 & Hn1 & Hp1).
    destruct (unindent_spec w1 HI1) as (w2 & Hrun2 & HI2 & Hl2 & Hn2 & Hp2).
    apply exec_Ok in Hrun1. rewrite (exec_bind _ _ _ _ Hrun1).
    apply exec_Ok. rewrite Hrun2. do 2 f_equal.
    rewrite app_nil_r in Hp1, Hp2. pose proof (inv_level _ HI0).
    apply (Inv_ext w0 w2 HI0 HI2); [lia | congruence | congruence]. }
  split; [|split; [now apply Hpair |]].
  - destruct args as [|a args]; [now rewrite Hpair |].
    destruct (log_spec value util_format w (a :: args) HI)
      as (w1 & Hrun1 & Heff1).
    specialize (Hpair w1 (proj1 Heff1)).
    rewrite (proj2 (exec_Ok _ _ _) Hrun1), <- Hpair.
    unfold TraceConsole.exports_indent. cbn [length Nat.ltb Nat.leb].
    unfold exec, bind, ret. now rewrite Hrun1.
  - intros Hpos.
    destruct (unindent_spec w HI) as (w1 & Hrun1 & HI1 & Hl1 & Hn1 & Hp1).
    destruct (indent_spec value util_format w1 [] HI1)
      as (w2 & Hrun2 & HI2 & Hl2 & Hn2 & Hp2).
    apply exec_Ok in Hrun1. rewrite (exec_bind _ _ _ _ Hrun1).
    apply exec_Ok. rewrite Hrun2. do 2 f_equal.
    rewrite app_nil_r in Hp1, Hp2.
    apply (Inv_ext w w2 HI HI2); [lia | congruence | congruence].
Qed.


Local Abbreviation balanced := (balanced value).
Local Abbreviation enqueues := (enqueues value).

Lemma effect_retarget (w w' : World) lv ns lv' ns' new :
  effect w w' lv ns new -> lv = lv' -> ns = ns' -> effect w w' lv' ns' new.
Proof. now intros H <- <-. Qed.

(** A balanced sequence keeps level and names. *)
Lemma balanced_run (cs : list (call value)) :
  balanced cs ->
  forall w, Inv w ->
    exists w' new,
      exec (do_calls cs) w = Ok w' /\
      effect w w' (indentLevel (ctx w)) (names (ctx w)) new.
Proof.
  induction 1 as [|args cs _ IH|args cs _ IH|args cs _ IH|args cs _ IH
                  |a x body cs _ IHb _ IH|a body cs _ IHb _ IH];
    intros w HI.
  - exists w, []. split; [reflexivity | now apply effect_refl].
  - destruct (log_spec value util_format w args HI) as (w1 & Hrun & Heff).
    destruct (IH w1 (proj1 Heff)) as (w' & new & Hrun' & Heff').
    destruct Heff as (HI1 & Hl1 & Hn1 & Hp1). rewrite Hl1, Hn1 in Heff'.
    exists w'. eexists. split.
    + rewrite (exec_do_calls_cons (Log value args) _ _ _ Hrun). exact Hrun'.
    + eapply effect_trans; [|exact Heff']. effect_split; eassumption.
  - destruct (warn_spec value util_format w args HI) as (w1 & Hrun & Heff).
    destruct (IH w1 (proj1 Heff)) as (w' & new & Hrun' & Heff').
    destruct Heff as (HI1 & Hl1 & Hn1 & Hp1). rewrite Hl1, Hn1 in Heff'.
    exists w'. eexists. split.
    + rewrite (exec_do_calls_cons (Warn value args) _ _ _ Hrun). exact Hrun'.
    + eapply effect_trans; [|exact Heff']. effect_split; eassumption.
  - destruct (error_spec value util_format w args HI) as (w1 & Hrun & Heff).
    destruct (IH w1 (proj1 Heff)) as (w' & new & Hrun' & Heff').
    destruct Heff as (HI1 & Hl1 & Hn1 & Hp1). rewrite Hl1, Hn1 in Heff'.
    exists w'. eexists. split.
    + rewrite (exec_do_calls_cons (Error value args) _ _ _ Hrun). exact Hrun'.
    + eapply effect_trans; [|exact Heff']. effect_split; eassumption.
  - destruct (IH w HI) as (w' & new & Hrun' & Heff').
    exists w', new. split; [|exact Heff'].
    rewrite (exec_do_calls_cons (Ignore value args) _ w w); [exact Hrun' | reflexivity].
  - destruct (enter_spec value util_format w a HI) as (w1 & Hrun1 & Heff1).
    destruct (IHb w1 (proj1 Heff1)) as (w2 & new2 & Hrun2 & Heff2).
    destruct (leave_spec value util_format w2 x (proj1 Heff2))
      as (w3 & Hrun3 & Heff3).
    destruct (IH w3 (proj1 Heff3)) as (w' & new & Hrun' & Heff').
    pose proof (inv_level _ HI) as Hlv.
    pose proof (effect_trans _ _ _ _ _ _ _ _ _
                  (effect_trans _ _ _ _ _ _ _ _ _
                     (effect_trans _ _ _ _ _ _ _ _ _ Heff1 Heff2) Heff3)
                  Heff') as Heff.
    destruct Heff1 as (_ & Hl1 & Hn1 & _). destruct Heff2 as (_ & Hl2 & Hn2 & _).
    destruct Heff3 as (_ & Hl3 & Hn3 & _).
    exists w'. eexists. split.
    + rewrite (exec_do_calls_cons (Enter value a) _ _ _ Hrun1).
      rewrite (exec_do_calls_app _ _ _ _ Hrun2).
      rewrite (exec_do_calls_cons (Leave value x) _ _ _ Hrun3). exact Hrun'.
    + eapply effect_retarget; [exact Heff | |].
      * rewrite Hl3, Hl2, Hl1. lia.
      * rewrite Hn3, Hn2, Hn1. apply removelast_last.
  - destruct (indent_spec value util_format w a HI) as (w1 & Hrun1 & Heff1).
    destruct (IHb w1 (proj1 Heff1)) as (w2 & new2 & Hrun2 & Heff2).
    destruct (unindent_spec w2 (proj1 Heff2)) as (w3 & Hrun3 & Heff3).
    destruct (IH w3 (proj1 Heff3)) as (w' & new & Hrun' & Heff').
    pose proof (inv_level _ HI) as Hlv.
    pose proof (effect_trans _ _ _ _ _ _ _ _ _
                  (effect_trans _ _ _ _ _ _ _ _ _
                     (effect_trans _ _ _ _ _ _ _ _ _ Heff1 Heff2) Heff3)
                  Heff') as Heff.
    destruct Heff1 as (_ & Hl1 & Hn1 & _). destruct Heff2 as (_ & Hl2 & Hn2 & _).
    destruct Heff3 as (_ & Hl3 & Hn3 & _).
    exists w'. eexists. split.
    + rewrite (exec_do_calls_cons (Indent value a) _ _ _ Hrun1).
      rewrite (exec_do_calls_app _ _ _ _ Hrun2).
      rewrite (exec_do_calls_cons (Unindent value) _ _ _ Hrun3). exact Hrun'.
    + eapply effect_retarget; [exact Heff | |].
      * rewrite Hl3, Hl2, Hl1. lia.
      * rewrite Hn3, Hn2, Hn1. reflexivity.
Qed.

(** In the world after any calls, a balanced sequence of calls (every
    [enter] closed by its [leave], every [indent] by its [unindent])
    returns to the level, the width and the names it started with; and an
    [enter]/[leave] pair around a balanced body enqueues its open line
    first and last its close line, which carries the name saved by that
    [enter], both at the width the pair started with. *)
Theorem balanced_calls_restore_scope
    (cs body : list (call value)) (a x : list value) :
  balanced body ->
  exists w w1 w2 mid,
    exec (do_calls cs) init = Ok w /\
    exec (do_calls body) w = Ok w1 /\
    indentLevel (ctx w1) = indentLevel (ctx w) /\
    indentWidth (ctx w1) = indentWidth (ctx w) /\
    names (ctx w1) = names (ctx w) /\
    exec (do_calls (Enter value a :: body ++ [Leave value x])) w = Ok w2 /\
    indentLevel (ctx w2) = indentLevel (ctx w) /\
    indentWidth (ctx w2) = indentWidth (ctx w) /\
    names (ctx w2) = names (ctx w) /\
    pending w2 =
    (pending w ++
     [(">" +:+ " " +:+ util_format a, indentWidth (ctx w), LOG)] ++
     mid ++
     [("<" +:+ " " +:+ join2 (Some (saved_name (util_format a)))
                            (Some (util_format x)),
       indentWidth (ctx w), LOG)])%list.
Proof.
  intros Hbody.
  destruct (reach cs init Inv_init) as (w & _ & Hw & HI & _).
  destruct (balanced_run body Hbody w HI) as (w1 & new1 & Hrun1 & Heff1).
  destruct (effect_facts _ _ _ _ _ HI Heff1)
    as (HI1 & Hp1 & Hl1 & Hwd1 & Hsz1 & Hn1).
  destruct (enter_spec value util_format w a HI) as (we & Hrune & Heffe).
  destruct (effect_facts _ _ _ _ _ HI Heffe)
    as (HIe & Hpe & Hle & Hwde & Hsze & Hne).
  destruct (balanced_run body Hbody we HIe) as (wb & mid & Hrunb & Heffb).
  destruct (effect_facts _ _ _ _ _ HIe Heffb)
    as (HIb & Hpb & Hlb & Hwdb & Hszb & Hnb).
  destruct (leave_spec value util_format wb x HIb) as (w2 & Hrunl & Heffl).
  destruct (effect_facts _ _ _ _ _ HIb Heffl)
    as (HI2 & Hp2 & Hl2 & Hwd2 & Hsz2 & Hn2).
  pose proof (inv_level _ HI) as Hlv.
  pose proof (inv_width _ HI) as Hwd. rewrite (inv_size _ HI) in Hwd.
  exists w, w1, w2, mid.
  split; [exact Hw |]. split; [exact Hrun1 |]. split; [exact Hl1 |].
  split; [now rewrite Hwd1, Hwd |]. split; [exact Hn1 |].
  split; [|split; [|split; [|split]]].
  - rewrite (exec_do_calls_cons (Enter value a) _ _ _ Hrune).
    rewrite (exec_do_calls_app _ _ _ _ Hrunb).
    rewrite (exec_do_calls_cons (Leave value x) _ _ _ Hrunl). reflexivity.
  - rewrite Hl2, Hlb, Hle. lia.
  - rewrite Hwd2, Hlb, Hle, Hwd. lia.
  - rewrite Hn2, Hnb, Hne. apply removelast_last.
  - rewrite Hp2, Hpb, Hpe, Hnb, Hne, Hlb, Hle, last_snoc, Hwd,
      <- !app_assoc.
    replace (Z.max 0 (indentLevel (ctx w) + 1 - 1))
      with (indentLevel (ctx w)) by lia.
    reflexivity.
Qed.

Lemma do_call_enqueues (w : World) (c : call value) :
  Inv w ->
  exists w' lv ns new,
    do_call c w = Ok (tt, w') /\ effect w w' lv ns new /\
    length new = enqueues c /\ Forall entry_ok new.
Proof.
  intros HI. pose proof (inv_level _ HI) as Hlv.
  pose proof (inv_width _ HI) as Hwd. rewrite (inv_size _ HI) in Hwd.
  assert (Hok : forall txt ty, valid_type ty ->
            Forall entry_ok [(txt, indentWidth (ctx w), ty)]).
  { intros txt ty Hty. constructor; [|constructor].
    split; [|split]; simpl; [lia | | exact Hty].
    rewrite Hwd, Z.even_mul. apply orb_true_r. }
  destruct c as [args|args|args|args|args| |args|args]; simpl.
  - destruct (log_spec value util_format w args HI) as (w' & ? & ?).
    exists w'. do 3 eexists. repeat (split; [eassumption || reflexivity |]).
    apply Hok. left. reflexivity.
  - destruct (warn_spec value util_format w args HI) as (w' & ? & ?).
    exists w'. do 3 eexists. repeat (split; [eassumption || reflexivity |]).
    apply Hok. right. left. reflexivity.
  - destruct (error_spec value util_format w args HI) as (w' & ? & ?).
    exists w'. do 3 eexists. repeat (split; [eassumption || reflexivity |]).
    apply Hok. right. right. reflexivity.
  - exists w. do 3 eexists. split; [reflexivity |].
    split; [apply effect_refl, HI |]. split; [reflexivity | constructor].
  - destruct (indent_spec value util_format w args HI) as (w' & ? & ?).
    exists w'. do 3 eexists. split; [eassumption |]. split; [eassumption |].
    destruct args; split; try reflexivity; [constructor |].
    apply Hok. left. reflexivity.
  - destruct (unindent_spec w HI) as (w' & ? & ?).
    exists w'. do 3 eexists. split; [eassumption |]. split; [eassumption |].
    split; [reflexivity | constructor].
  - destruct (enter_spec value util_format w args HI) as (w' & ? & ?).
    exists w'. do 3 eexists. repeat (split; [eassumption || reflexivity |]).
    apply Hok. left. reflexivity.
  - destruct (leave_spec value util_format w args HI) as (w' & ? & ?).
    exists w'. do 3 eexists. repeat (split; [eassumption || reflexivity |]).
    constructor; [|constructor].
    split; [|split]; simpl; [lia | | left; reflexivity].
    rewrite Z.even_mul. apply orb_true_r.
Qed.

(** The queue only grows, at its end: whatever calls come first, further
    calls leave the messages already queued as they are and add exactly
    one message per call of [log], [warn], [error], [enter], [leave] and
    of [indent] with arguments, and none per call of [ignore], [unindent]
    and [indent] without arguments; every message added has one of the
    three message types and a width that is even and not negative. *)
Theorem queue_grows_by_one_per_message
    (cs1 cs2 : list (call value)) :
  exists w1 w2 new,
    exec (do_calls cs1) init = Ok w1 /\
    exec (do_calls (cs1 ++ cs2)) init = Ok w2 /\
    pending w2 = (pending w1 ++ new)%list /\
    length new = list_sum (map enqueues cs2) /\
    Forall (fun p => 0 <= snd (fst p) /\ Z.even (snd (fst p)) = true /\
                     (snd p = LOG \/ snd p = WARN \/ snd p = ERROR))
           new.
Proof.
  destruct (reach cs1 init Inv_init) as (w1 & _ & Hw1 & HI1 & _).
  assert (Hgen : forall cs w, Inv w ->
            exists w' new,
              exec (do_calls cs) w = Ok w' /\
              pending w' = (pending w ++ new)%list /\
              length new = list_sum (map enqueues cs) /\
              Forall entry_ok new).
  { induction cs as [|c cs IH]; intros w HI.
    - exists w, []. rewrite app_nil_r. repeat split; constructor.
    - destruct (do_call_enqueues w c HI)
        as (wa & lv & ns & na & Hrun & Heff & Hlen & Hok).
      destruct (effect_facts _ _ _ _ _ HI Heff) as (HIa & Hpa & _).
      destruct (IH wa HIa) as (w' & nb & Hrun' & Hp' & Hlen' & Hok').
      exists w', (na ++ nb)%list. split; [|split; [|split]].
      + rewrite (exec_do_calls_cons _ _ _ _ Hrun). exact Hrun'.
      + now rewrite Hp', Hpa, app_assoc.
      + rewrite length_app, Hlen, Hlen'. reflexivity.
      + apply Forall_app. split; assumption. }
  destruct (Hgen cs2 w1 HI1) as (w2 & new & Hrun & Hp & Hlen & Hok).
  exists w1, w2, new. split; [exact Hw1 |].
  split; [now rewrite (exec_do_calls_app _ _ _ _ Hw1) |].
  split; [exact Hp |]. split; [exact Hlen | exact Hok].
Qed.

End WithFormatter.

(** The statement above after [indent()], where the level is 1. *)
Lemma indent_unindent_round_trip_witness :
  exists w,
    exec (do_calls string join_args [Indent string []]) init = Ok w /\
    0 < indentLevel (ctx w) /\
    exec (exports_unindent;; exports_indent string join_args [])%monad w
    = Ok w.
Proof.
  destruct (indent_unindent_round_trip string join_args [Indent string []] [])
    as (w & Hw & _ & _ & Hup).
  exists w. split; [exact Hw |].
  assert (Hpos : 0 < indentLevel (ctx w))
    by (vm_compute in Hw; injection Hw as <-; reflexivity).
  split; [exact Hpos | exact (Hup Hpos)].
Defined.

(** The statement above at [log("x")] around which [enter("f 1")] and
    [leave("done")] are put, at module load. *)
Lemma balanced_calls_restore_scope_witness :
  balanced string [Log string ["x"]] /\
  exists w2,
    exec (do_calls string join_args
            [Enter string ["f 1"]; Log string ["x"]; Leave string ["done"]])
         init = Ok w2 /\
    names (ctx w2) = [] /\
    indentLevel (ctx w2) = 0 /\
    pending w2 = [("> f 1", 0, LOG); ("x", 2, LOG); ("< f done", 0, LOG)].
Proof.
  assert (Hb : balanced string [Log string ["x"]])
    by (repeat constructor).
  split; [exact Hb |].
  destruct (balanced_calls_restore_scope string join_args []
              [Log string ["x"]] ["f 1"] ["done"] Hb)
    as (w & w1 & w2 & mid & Hw & _ & _ & _ & _ & Hrun & Hl & _ & Hn & _).
  vm_compute in Hw. injection Hw as <-.
  exists w2. split; [exact Hrun |]. split; [exact Hn |].
  split; [exact Hl |].
  vm_compute in Hrun. injection Hrun as <-. reflexivity.
Defined.

End ConsoleSequences.

(** ** trace-log against trace-console *)

Module LogVersusConsole.

Section WithFormatter.

Variable value : Type.
Variable util_format : list value -> string.

Lemma same_point_width wc wl :
  same_point wc wl ->
  TraceLog.indentWidth (TraceLog.ctx wl)
  = TraceConsole.indentWidth (TraceConsole.ctx wc).
Proof.
  intros (HIc & HIl & Hl & _).
  rewrite (TraceLog.inv_width _ HIl), (TraceConsole.inv_width _ HIc),
    (TraceLog.inv_size _ HIl), (TraceConsole.inv_size _ HIc), Hl.
  reflexivity.
Qed.

Lemma same_point_step wc wl wc' wl' lv ns lv' ns' newc newl :
  same_point wc wl ->
  TraceConsole.effect wc wc' lv ns newc ->
  TraceLog.effect wl wl' lv' ns' newl ->
  lv' = lv -> ns' = ns -> newl = map strip_type newc ->
  same_point wc' wl'.
Proof.
  intros (_ & _ & _ & _ & Hp) (HIc & Hlc & Hnc & Hpc) (HIl & Hll & Hnl & Hpl)
    -> -> ->.
  repeat (split; [assumption || congruence |]).
  now rewrite Hpl, Hpc, Hp, !map_app.
Qed.

Lemma do_call_same_point wc wl (c : TraceConsole.call value) :
  same_point wc wl ->
  exists wc' wl',
    TraceConsole.do_call value util_format c wc = Ok (tt, wc') /\
    TraceLog.do_call value util_format (to_log_call value c) wl
    = Ok (tt, wl') /\
    same_point wc' wl'.
Proof.
  intros HR. pose proof (same_point_width _ _ HR) as Hwd.
  pose proof HR as (HIc & HIl & Hl & Hn & _).
  destruct c as [args|args|args|args|args| |args|args]; simpl.
  - destruct (ConsoleFacts.log_spec value util_format wc args HIc)
      as (wc' & Hc & Ec).
    destruct (LogFacts.tl_log_spec value util_format wl args HIl)
      as (wl' & Hl' & El).
    exists wc', wl'. split; [exact Hc |]. split; [exact Hl' |].
    eapply same_point_step; eauto. now rewrite Hwd.
  - destruct (ConsoleFacts.warn_spec value util_format wc args HIc)
      as (wc' & Hc & Ec).
    destruct (LogFacts.tl_warn_spec value util_format wl args HIl)
      as (wl' & Hl' & El).
    exists wc', wl'. split; [exact Hc |]. split; [exact Hl' |].
    eapply same_point_step; eauto. now rewrite Hwd.
  - destruct (ConsoleFacts.error_spec value util_format wc args HIc)
      as (wc' & Hc & Ec).
    destruct (LogFacts.tl_error_spec value util_format wl args HIl)
      as (wl' & Hl' & El).
    exists wc', wl'. split; [exact Hc |]. split; [exact Hl' |].
    eapply same_point_step; eauto. now rewrite Hwd.
  - exists wc, wl. auto.
  - destruct (ConsoleFacts.indent_spec value util_format wc args HIc)
      as (wc' & Hc & Ec).
    destruct (LogFacts.tl_indent_spec value util_format wl args HIl)
      as (wl' & Hl' & El).
    exists wc', wl'. split; [exact Hc |]. split; [exact Hl' |].
    eapply same_point_step; eauto; [now rewrite Hl |].
    destruct args; [reflexivity | now rewrite Hwd].
  - destruct (ConsoleFacts.unindent_spec wc HIc) as (wc' & Hc & Ec).
    destruct (LogFacts.tl_unindent_spec wl HIl) as (wl' & Hl' & El).
    exists wc', wl'. split; [exact Hc |]. split; [exact Hl' |].
    eapply same_point_step; eauto. now rewrite Hl.
  - destruct (ConsoleFacts.enter_spec value util_format wc args HIc)
      as (wc' & Hc & Ec).
    destruct (LogFacts.tl_enter_spec value util_format wl args HIl)
      as (wl' & Hl' & El).
    exists wc', wl'. split; [exact Hc |]. split; [exact Hl' |].
    eapply same_point_step; eauto;
      [now rewrite Hl | now rewrite Hn | now rewrite Hwd].
  - destruct (ConsoleFacts.leave_spec value util_format wc args HIc)
      as (wc' & Hc & Ec).
    destruct (LogFacts.tl_leave_spec value util_format wl args HIl)
      as (wl' & Hl' & El).
    exists wc', wl'. split; [exact Hc |]. split; [exact Hl' |].
    eapply same_point_step; eauto;
      [now rewrite Hl | now rewrite Hn | now rewrite Hn, Hl].
Qed.

Lemma do_calls_same_point (cs : list (TraceConsole.call value)) wc wl :
  same_point wc wl ->
  exists wc' wl',
    exec (TraceConsole.do_calls value util_format cs) wc = Ok wc' /\
    exec (TraceLog.do_calls value util_format (map (to_log_call value) cs)) wl
    = Ok wl' /\
    same_point wc' wl'.
Proof.
  revert wc wl. induction cs as [|c cs IH]; intros wc wl HR.
  - exists wc, wl. auto.
  - destruct (do_call_same_point wc wl c HR) as (wc1 & wl1 & Hc & Hl & HR1).
    destruct (IH wc1 wl1 HR1) as (wc' & wl' & Hc' & Hl' & HR').
    exists wc', wl'. split; [|split; [|exact HR']].
    + cbn [TraceConsole.do_calls]. apply exec_Ok in Hc.
      now rewrite (exec_bind _ _ _ _ Hc).
    + cbn [map TraceLog.do_calls]. apply exec_Ok in Hl.
      now rewrite (exec_bind _ _ _ _ Hl).
Qed.

(** The same calls made to trace-log and to trace-console leave the two
    modules at the same level, width and names, with the same messages in
    the same order (trace-log without the type); and at exit trace-log
    prints, line for line, the texts that trace-console prints. *)
Theorem trace_log_prints_what_trace_console_prints
    (cs : list (TraceConsole.call value)) :
  exists wc wl wc' wl',
    exec (TraceConsole.do_calls value util_format cs) TraceConsole.init
    = Ok wc /\
    exec (TraceLog.do_calls value util_format (map (to_log_call value) cs))
         TraceLog.init = Ok wl /\
    TraceLog.indentLevel (TraceLog.ctx wl)
    = TraceConsole.indentLevel (TraceConsole.ctx wc) /\
    TraceLog.indentWidth (TraceLog.ctx wl)
    = TraceConsole.indentWidth (TraceConsole.ctx wc) /\
    TraceLog.names (TraceLog.ctx wl)
    = TraceConsole.names (TraceConsole.ctx wc) /\
    TraceLog.pending wl = map strip_type (TraceConsole.pending wc) /\
    exec TraceConsole.show wc = Ok wc' /\
    exec TraceLog.show wl = Ok wl' /\
    map snd (TraceLog.console wl') = map snd (TraceConsole.console wc').
Proof.
  assert (H0 : same_point TraceConsole.init TraceLog.init).
  { split; [apply ConsoleFacts.Inv_init |].
    split; [apply LogFacts.tl_Inv_init |]. repeat split. }
  destruct (do_calls_same_point cs _ _ H0) as (wc & wl & Hc & Hl & HR).
  pose proof (same_point_width _ _ HR) as Hwd.
  destruct HR as (HIc & HIl & Hlv & Hn & Hp).
  exists wc, wl. do 2 eexists.
  split; [exact Hc |]. split; [exact Hl |]. split; [exact Hlv |].
  split; [exact Hwd |]. split; [exact Hn |].
  split; [now rewrite LogFacts.tl_pending_heap, ConsoleFacts.pending_heap |].
  split; [now apply ConsoleFacts.show_exec |].
  split; [now apply LogFacts.tl_show_exec |].
  cbn [TraceLog.console TraceConsole.console].
  rewrite LogFacts.tl_queue_heap, ConsoleFacts.queue_heap by assumption.
  assert (Hlines :
    map snd (map TraceLog.render (TraceLog.heap wl)) =
    map snd (map TraceConsole.render (TraceConsole.heap wc))).
  { transitivity (map (fun p => indent (spaces (snd p)) (fst p))
                      (map TraceLog.payload (TraceLog.heap wl))).
    - rewrite !map_map. reflexivity.
    - rewrite Hp, !map_map. reflexivity. }
  unfold TraceLog.printed, TraceConsole.printed.
  destruct (TraceLog.heap wl) as [|ml hl], (TraceConsole.heap wc) as [|mc hc];
    try discriminate; [reflexivity |].
  cbn [map snd] in *. now rewrite Hlines.
Qed.

End WithFormatter.

End LogVersusConsole.

(** ** The terminal *)

Module TerminalFacts.

Import Terminal.

Lemma to_lower_upper (c : ascii) : to_lower (to_upper c) = to_lower c.
Proof.
  destruct c as [[] [] [] [] [] [] [] []]; reflexivity.
Qed.

Lemma map_lower_upper (s : string) :
  map_chars to_lower (map_chars to_upper s) = map_chars to_lower s.
Proof.
  induction s as [|c s IH]; simpl; [reflexivity |].
  now rewrite to_lower_upper, IH.
Qed.

Lemma map_chars_append (f : ascii -> ascii) (a b : string) :
  map_chars f (a +:+ b) = map_chars f a +:+ map_chars f b.
Proof. induction a as [|c a IH]; simpl; [reflexivity | now rewrite IH]. Qed.

Lemma prefix_append (p s t : string) :
  String.prefix p s = true -> String.prefix p (s +:+ t) = true.
Proof.
  revert s. induction p as [|c p IH]; intros s H;
    [now destruct (s +:+ t) |].
  destruct s as [|d s]; simpl in *; [discriminate |].
  destruct (ascii_dec c d); [now apply IH | discriminate].
Qed.

Lemma contains_append (p s t : string) :
  contains p s = true -> contains p (s +:+ t) = true.
Proof.
  induction s as [|d s IH]; intros H.
  - simpl in H. rewrite orb_false_r in H.
    destruct p; [|discriminate]. now destruct t.
  - cbn [contains] in H. apply orb_true_iff in H as [H | H].
    + change (String d s +:+ t) with (String d (s +:+ t)) in *.
      cbn [contains]. apply orb_true_iff. left.
      apply (prefix_append p (String d s) t H).
    + change (String d s +:+ t) with (String d (s +:+ t)).
      cbn [contains]. apply orb_true_iff. right. now apply IH.
Qed.

(** The test of the terminal name does not look at the case of letters,
    and a name that passes still passes with anything put after it; an
    unset [TERM] does not pass, so that outside Windows 10 and later no
    colour is used then. *)
Theorem terms_test_case_and_suffix (s t : string) (e : Env) :
  terms_test (map_chars to_upper s) = terms_test s /\
  (terms_test s = true -> terms_test (s +:+ t) = true) /\
  (TERM e = None -> platform e <> "win32" -> hascolor e = false).
Proof.
  split; [|split].
  - unfold terms_test. now rewrite map_lower_upper.
  - unfold terms_test. rewrite map_chars_append.
    set (l := map_chars to_lower s). set (u := map_chars to_lower t).
    intros H.
    repeat (apply orb_true_iff in H as [H | H]);
      repeat (apply orb_true_iff;
              first [ right; solve [auto using prefix_append, contains_append]
                    | left ]);
      auto using prefix_append, contains_append.
  - intros HT Hp. unfold hascolor. rewrite HT.
    destruct (String.eqb_spec (platform e) "win32"); [contradiction |].
    reflexivity.
Qed.

(** The statement above at ["xterm"] with ["-256color"] after it, and at
    a Linux process without [TERM]. *)
Lemma terms_test_case_and_suffix_witness :
  terms_test "XTERM" = true /\
  terms_test "xterm-256color" = true /\
  hascolor (mkEnv "linux" None None true true) = false.
Proof.
  destruct (terms_test_case_and_suffix "xterm" "-256color"
              (mkEnv "linux" None None true true)) as (Hcase & Hsuf & Hunset).
  split; [exact (eq_trans Hcase eq_refl) |].
  split; [exact (Hsuf eq_refl) |].
  apply Hunset; [reflexivity | discriminate].
Defined.

End TerminalFacts.

(** ** trace-color *)

Module ColorFacts.

Import TraceConsole TraceColor.

Local Open Scope monad_scope.

Lemma Printer_log_call (p : Printer) (line : string) :
  Printer_log p line
  = console_call ConsoleLog (Terminal.styled (style_of p ConsoleLog) line).
Proof.
  unfold Printer_log, style_of, Terminal.styled.
  now destruct (Terminal.log (styles p)) as [[s0 s1]|].
Qed.

Lemma Printer_warn_call (p : Printer) (line : string) :
  Printer_warn p line
  = console_call ConsoleWarn (Terminal.styled (style_of p ConsoleWarn) line).
Proof.
  unfold Printer_warn, style_of, Terminal.styled.
  now destruct (Terminal.warn (styles p)) as [[s0 s1]|].
Qed.

Lemma Printer_error_call (p : Printer) (line : string) :
  Printer_error p line
  = console_call ConsoleError (Terminal.styled (style_of p ConsoleError) line).
Proof.
  unfold Printer_error, style_of, Terminal.styled.
  now destruct (Terminal.error (styles p)) as [[s0 s1]|].
Qed.

Lemma color_show_loop_step (p : Printer) (fuel : nat) (i : loc) (iw : Z)
    (ind : string) (c : Ctx) (h : list Message)
    (out : list (console_fn * string)) (m : Message) :
  h !! i = Some m -> 0 <= width m -> repeat " " iw = Ok ind ->
  TraceColor.show_loop p (S fuel) i iw ind (mkWorld c h out) =
  match next m with
  | Some j =>
      TraceColor.show_loop p fuel j (width m) (spaces (width m))
        (mkWorld c h (out ++ [paint p (render m)]))
  | None => Ok (tt, mkWorld c h (out ++ [paint p (render m)]))
  end.
Proof.
  intros Hm Hwm Hind.
  cbn [TraceColor.show_loop]. unfold bind at 1, load at 1. cbn [heap].
  rewrite Hm.
  assert (Hcache :
    (if negb (width m =? iw)
     then bind (lift (repeat " " (width m))) (fun s => ret (width m, s))
     else ret (iw, ind)) (mkWorld c h out)
    = Ok ((width m, spaces (width m)), mkWorld c h out)).
  { destruct (width m =? iw) eqn:E; simpl.
    - apply Z.eqb_eq in E. subst iw.
      rewrite repeat_spaces in Hind by assumption. now injection Hind as <-.
    - unfold bind, lift. now rewrite repeat_spaces by assumption. }
  rewrite (bind_Ok _ _ _ _ _ Hcache). cbn [fst snd].
  rewrite Printer_log_call, Printer_warn_call, Printer_error_call.
  assert (Hprint :
    (if type m =? LOG
     then console_call ConsoleLog
            (Terminal.styled (style_of p ConsoleLog)
               (indent (spaces (width m)) (text m)))
     else if type m =? WARN
       then console_call ConsoleWarn
              (Terminal.styled (style_of p ConsoleWarn)
                 (indent (spaces (width m)) (text m)))
       else console_call ConsoleError
              (Terminal.styled (style_of p ConsoleError)
                 (indent (spaces (width m)) (text m))))
      (mkWorld c h out)
    = Ok (tt, mkWorld c h (out ++ [paint p (render m)]))).
  { unfold paint, render, printer_of. cbn [fst snd].
    destruct (type m =? LOG); [reflexivity |].
    destruct (type m =? WARN); reflexivity. }
  rewrite (bind_Ok _ _ _ _ _ Hprint).
  destruct (next m); reflexivity.
Qed.

Lemma color_show_loop_spec (p : Printer) (h : list Message) :
  linked next h -> Forall (fun m => 0 <= width m) h ->
  forall k i iw ind c out,
    (i + S k = length h)%nat ->
    repeat " " iw = Ok ind ->
    TraceColor.show_loop p (S k) i iw ind (mkWorld c h out) =
    Ok (tt, mkWorld c h (out ++ map (paint p) (map render (drop i h)))).
Proof.
  intros Hl Hw k. induction k as [|k IH]; intros i iw ind c out Hik Hind;
    destruct (lookup_lt_is_Some_2 h i) as [m Hm]; try lia;
    pose proof (Forall_lookup_1 _ _ _ _ Hw Hm) as Hwm; simpl in Hwm;
    rewrite (drop_S _ _ _ Hm),
      (color_show_loop_step _ _ _ _ _ _ _ _ m Hm Hwm Hind), (Hl i m Hm);
    destruct (decide (S i < length h)%nat); try lia.
  - rewrite drop_ge by lia. reflexivity.
  - rewrite IH by (try lia; now apply repeat_spaces).
    cbn [map]. now rewrite <- app_assoc.
Qed.

Lemma color_show_spec (e : Terminal.Env) (w : World) :
  Inv w ->
  TraceColor.show e w =
  Ok (tt, mkWorld (ctx w) (heap w)
            (console w ++ map (paint (new_Printer e)) (printed (heap w)))).
Proof.
  intros HI. pose proof (inv_head _ HI) as Hhd.
  pose proof (inv_linked _ HI) as Hlk. pose proof (inv_widths _ HI) as Hws.
  destruct w as [c h out]. cbn [ctx heap console] in *.
  unfold TraceColor.show, bind at 1, get_ctx. cbn [ctx]. rewrite Hhd.
  destruct (length h) as [|n] eqn:Hlen.
  - destruct h; [|discriminate]. unfold ret, printed. simpl.
    now rewrite app_nil_r.
  - change (repeat "-" 80) with (Ok separator).
    cbv zeta. unfold bind at 1, lift. rewrite Printer_log_call.
    unfold bind, console_call. cbn [ctx heap console]. rewrite Hlen.
    rewrite (color_show_loop_spec _ h Hlk Hws) by (lia || reflexivity).
    rewrite drop_0, <- app_assoc.
    destruct h; [discriminate | reflexivity].
Qed.

Section WithFormatter.

Variable value : Type.
Variable util_format : list value -> string.

(** In the world after any calls, the [show] of trace-color returns,
    changes nothing but the console, and makes the calls to the console
    that the [show] of trace-console makes, in the same order and with the
    same console functions, each line put between the escape sequences of
    its function's style.  A function whose stream is not a terminal has
    no style, and without colour support no function has one: the output
    is then that of trace-console, character for character. *)
Theorem trace_color_paints_trace_console
    (e : Terminal.Env) (cs : list (call value)) :
  exists w w' wc,
    exec (do_calls value util_format cs) init = Ok w /\
    exec (TraceColor.show e) w = Ok w' /\
    exec TraceConsole.show w = Ok wc /\
    ctx w' = ctx w /\ heap w' = heap w /\
    console w' = map (paint (new_Printer e)) (console wc) /\
    (forall f, Terminal.isTTY e (channel_of f) = false ->
               style_of (new_Printer e) f = None) /\
    (Terminal.hascolor e = false -> console w' = console wc).
Proof.
  destruct (ConsoleFacts.do_calls_Inv value util_format cs init
              ConsoleFacts.Inv_init) as (w & _ & Hw & HI & _).
  exists w. do 2 eexists.
  split; [exact Hw |].
  split; [apply exec_Ok; apply (color_show_spec e w HI) |].
  split; [apply (ConsoleFacts.show_exec w HI) |].
  cbn [ctx heap console]. split; [reflexivity |]. split; [reflexivity |].
  rewrite (inv_console _ HI), (ConsoleFacts.queue_heap w HI).
  split; [reflexivity |]. split.
  - intros f Hf. unfold new_Printer, style_of. cbn [styles].
    destruct f; simpl in Hf; rewrite Hf, andb_false_r; reflexivity.
  - intros Hno. simpl.
    transitivity (map (fun ev : console_fn * string => ev) (printed (heap w)));
      [|apply map_id].
    apply map_ext. intros [f line]. unfold paint, new_Printer, style_of.
    cbn [styles fst snd]. rewrite Hno. now destruct f.
Qed.

End WithFormatter.

(** The statement above after [warn("w")], with colour support and
    with the error stream not a terminal. *)
Lemma trace_color_paints_trace_console_witness :
  let e := Terminal.mkEnv "linux" None (Some "xterm") true false in
  Terminal.isTTY e (channel_of ConsoleWarn) = false /\
  exists w w',
    exec (do_calls string join_args [Warn string ["w"]]) init = Ok w /\
    exec (TraceColor.show e) w = Ok w' /\
    console w' =
    [(ConsoleLog, Terminal.styled (Some Terminal.white) separator);
     (ConsoleWarn, "w")].
Proof.
  intros e. split; [reflexivity |].
  destruct (trace_color_paints_trace_console string join_args e
              [Warn string ["w"]])
    as (w & w' & wc & Hw & Hshow & Hc & _ & _ & Hout & Hplain & _).
  exists w, w'. split; [exact Hw |]. split; [exact Hshow |].
  rewrite Hout. vm_compute in Hw. injection Hw as <-.
  vm_compute in Hc. injection Hc as <-.
  unfold paint. cbn [map console fst snd].
  rewrite (Hplain ConsoleWarn eq_refl). reflexivity.
Defined.

End ColorFacts.

(** ** color-log *)

Module ColorLogFacts.

Import ColorLog.

Local Open Scope monad_scope.

Lemma spaces_add_two (w : Z) : 0 <= w -> spaces (w + 2) = spaces w +:+ "  ".
Proof.
  intros H. unfold spaces.
  rewrite Z2Nat.inj_add by lia. apply copies_add.
Qed.

Lemma substring_copies (k n : nat) :
  (k <= n)%nat -> String.substring 0 k (copies n " ") = copies k " ".
Proof.
  revert n. induction k as [|k IH]; intros n H.
  - now destruct (copies n " ").
  - destruct n as [|n]; [lia |]. simpl. f_equal. apply IH. lia.
Qed.

Lemma slice_spaces (w : Z) :
  2 <= w ->
  slice (spaces w) 0 (Z.of_nat (String.length (spaces w)) - 2) = spaces (w - 2).
Proof.
  intros H. unfold slice, spaces. rewrite length_copies_char.
  rewrite Z2Nat.id by lia.
  destruct (0 <? 0) eqn:E0; [discriminate |].
  destruct (w - 2 <? 0) eqn:E1; [apply Z.ltb_lt in E1; lia |].
  rewrite Z.min_l by lia. rewrite (Z.min_l (w - 2) w) by lia.
  rewrite Z.sub_0_r, Z.max_l by lia. simpl Z.to_nat at 1.
  apply substring_copies. lia.
Qed.

Lemma render_by_payload (h : list TraceConsole.Message) :
  map TraceConsole.render h
  = map render_payload (map TraceConsole.payload h).
Proof. rewrite map_map. reflexivity. Qed.

Section WithFormatter.

Variable value : Type.
Variable util_format : list value -> string.
Variable e : Env.

Local Abbreviation paint := (paint e).
Local Abbreviation do_call := (do_call value util_format e).
Local Abbreviation do_calls := (do_calls value util_format e).
Local Abbreviation to_console_call := (to_console_call value).

Local Abbreviation in_step := (in_step e).

Hypothesis no_group : console_group e = false.
Hypothesis no_groupEnd : console_groupEnd e = false.

Lemma print_runs (s : State) (args : list value) :
  exports_log value util_format e args s =
  Ok (tt, mkState (indentation s)
            (console s ++
             [paint (ConsoleLog, indent (indentation s) (util_format args))]))
  /\
  exports_warn value util_format e args s =
  Ok (tt, mkState (indentation s)
            (console s ++
             [paint (ConsoleWarn, indent (indentation s) (util_format args))]))
  /\
  exports_error value util_format e args s =
  Ok (tt, mkState (indentation s)
            (console s ++
             [paint (ConsoleError, indent (indentation s) (util_format args))])).
Proof.
  unfold exports_log, exports_warn, exports_error, ColorLog.paint,
    style_of, indent', Terminal.styled. rewrite no_group. cbn [fst snd].
  repeat split.
  - destruct (if Terminal.stdout_isTTY (term e)
              then Terminal.log (styles e) else None) as [[s0 s1]|];
      reflexivity.
  - destruct (if Terminal.stderr_isTTY (term e)
              then Terminal.warn (styles e) else None) as [[s0 s1]|];
      reflexivity.
  - destruct (if Terminal.stderr_isTTY (term e)
              then Terminal.error (styles e) else None) as [[s0 s1]|];
      reflexivity.
Qed.

Lemma in_step_message (s : State) (wc wc' : TraceConsole.World)
    (f : console_fn) (ty : Z) (txt : string) lv ns :
  in_step s wc ->
  TraceConsole.printer_of ty = f ->
  TraceConsole.effect wc wc' lv ns
    [(txt, TraceConsole.indentWidth (TraceConsole.ctx wc), ty)] ->
  lv = TraceConsole.indentLevel (TraceConsole.ctx wc) ->
  in_step (mkState (indentation s)
             (console s ++ [paint (f, indent (indentation s) txt)])) wc'.
Proof.
  intros (HI & Hind & Hout) Hf (HI' & Hl & Hn & Hp) ->.
  split; [exact HI' |]. cbn [indentation console]. split.
  - rewrite Hind, (TraceConsole.inv_width _ HI'), (TraceConsole.inv_width _ HI),
      (TraceConsole.inv_size _ HI'), (TraceConsole.inv_size _ HI), Hl.
    reflexivity.
  - rewrite Hp, !map_app, Hout, Hind. cbn [map]. unfold render_payload.
    cbn [fst snd]. now rewrite Hf.
Qed.

Lemma do_call_in_step (s : State) (wc : TraceConsole.World) (c : call value) :
  in_step s wc ->
  exists s' wc',
    do_call c s = Ok (tt, s') /\
    TraceConsole.do_call value util_format (to_console_call c) wc
    = Ok (tt, wc') /\
    in_step s' wc'.
Proof.
  intros HS. pose proof HS as (HI & Hind & Hout).
  destruct c as [args|args|args|args|]; cbn [ColorLog.do_call
    ColorLog.to_console_call TraceConsole.do_call].
  - destruct (ConsoleFacts.log_spec value util_format wc args HI)
      as (wc' & Hrun & Heff).
    do 2 eexists. split; [apply (print_runs s args) |].
    split; [exact Hrun |].
    exact (in_step_message s wc wc' ConsoleLog TraceConsole.LOG _ _ _
             HS eq_refl Heff eq_refl).
  - destruct (ConsoleFacts.warn_spec value util_format wc args HI)
      as (wc' & Hrun & Heff).
    do 2 eexists. split; [apply (print_runs s args) |].
    split; [exact Hrun |].
    exact (in_step_message s wc wc' ConsoleWarn TraceConsole.WARN _ _ _
             HS eq_refl Heff eq_refl).
  - destruct (ConsoleFacts.error_spec value util_format wc args HI)
      as (wc' & Hrun & Heff).
    do 2 eexists. split; [apply (print_runs s args) |].
    split; [exact Hrun |].
    exact (in_step_message s wc wc' ConsoleError TraceConsole.ERROR _ _ _
             HS eq_refl Heff eq_refl).
  - destruct (ConsoleFacts.indent_spec value util_format wc args HI)
      as (wc' & Hrun & HI' & Hl & Hn & Hp).
    pose proof (TraceConsole.inv_level _ HI) as Hlv.
    assert (Hwd' : TraceConsole.indentWidth (TraceConsole.ctx wc')
                   = TraceConsole.indentWidth (TraceConsole.ctx wc) + 2).
    { rewrite (TraceConsole.inv_width _ HI'), (TraceConsole.inv_width _ HI),
        (TraceConsole.inv_size _ HI'), (TraceConsole.inv_size _ HI), Hl. lia. }
    assert (Hwd0 : 0 <= TraceConsole.indentWidth (TraceConsole.ctx wc)).
    { rewrite (TraceConsole.inv_width _ HI), (TraceConsole.inv_size _ HI).
      lia. }
    unfold exports_group. rewrite no_group.
    destruct args as [|a args]; cbn [length Nat.ltb Nat.leb].
    + do 2 eexists. split; [reflexivity |]. split; [exact Hrun |].
      split; [exact HI' |]. cbn [indentation console]. split.
      * now rewrite Hwd', spaces_add_two, Hind.
      * rewrite Hp, app_nil_r. exact Hout.
    + do 2 eexists. split.
      * unfold bind. rewrite (proj1 (print_runs s (a :: args))). reflexivity.
      * split; [exact Hrun |].
        split; [exact HI' |]. cbn [indentation console]. split.
        -- now rewrite Hwd', spaces_add_two, Hind.
        -- rewrite Hp, !map_app, Hout, Hind. reflexivity.
  - destruct (ConsoleFacts.unindent_spec wc HI)
      as (wc' & Hrun & HI' & Hl & Hn & Hp).
    pose proof (TraceConsole.inv_level _ HI) as Hlv.
    pose proof (TraceConsole.inv_width _ HI) as Hwd.
    rewrite (TraceConsole.inv_size _ HI) in Hwd.
    pose proof (TraceConsole.inv_width _ HI') as Hwd'.
    rewrite (TraceConsole.inv_size _ HI'), Hl in Hwd'.
    unfold exports_groupEnd. rewrite no_groupEnd, Hind.
    unfold spaces at 1. rewrite length_copies_char.
    destruct (Z.to_nat (TraceConsole.indentWidth (TraceConsole.ctx wc)))
      as [|n] eqn:En; cbn [Nat.eqb negb].
    + exists s, wc'. split; [reflexivity |]. split; [exact Hrun |].
      split; [exact HI' |]. split.
      * rewrite Hind, Hwd'. f_equal. lia.
      * rewrite Hp, app_nil_r. exact Hout.
    + do 2 eexists. split; [reflexivity |]. split; [exact Hrun |].
      split; [exact HI' |]. cbn [indentation console]. split.
      * rewrite slice_spaces by lia. f_equal. lia.
      * rewrite Hp, app_nil_r. exact Hout.
Qed.

Lemma do_calls_in_step (cs : list (call value)) (s : State)
    (wc : TraceConsole.World) :
  in_step s wc ->
  exists s' wc',
    exec (do_calls cs) s = Ok s' /\
    exec (TraceConsole.do_calls value util_format (map to_console_call cs)) wc
    = Ok wc' /\
    in_step s' wc'.
Proof.
  revert s wc. induction cs as [|c cs IH]; intros s wc HS.
  - exists s, wc. auto.
  - destruct (do_call_in_step s wc c HS) as (s1 & wc1 & Hs & Hc & HS1).
    destruct (IH s1 wc1 HS1) as (s' & wc' & Hs' & Hc' & HS').
    exists s', wc'. split; [|split; [|exact HS']].
    + cbn [ColorLog.do_calls]. apply exec_Ok in Hs.
      now rewrite (exec_bind _ _ _ _ Hs).
    + cbn [map TraceConsole.do_calls]. apply exec_Ok in Hc.
      now rewrite (exec_bind _ _ _ _ Hc).
Qed.

(** Without [console.group] and [console.groupEnd], color-log makes to
    the console, call by call, the calls that trace-console makes at exit
    for the same sequence of [log], [warn], [error], [group] and
    [groupEnd] (the separator line apart), and its indentation is the
    current width of trace-console in spaces.  Lines that go through
    [console.log] are never put in a style; lines that go through
    [console.warn] and [console.error] are, when the error stream is a
    terminal with colour support. *)
Theorem color_log_prints_what_trace_console_queues
    (cs : list (call value)) :
  exists s wc wc',
    exec (do_calls cs) init = Ok s /\
    exec (TraceConsole.do_calls value util_format (map to_console_call cs))
         TraceConsole.init = Ok wc /\
    exec TraceConsole.show wc = Ok wc' /\
    indentation s = spaces (TraceConsole.indentWidth (TraceConsole.ctx wc)) /\
    console s = map paint (map TraceConsole.render (TraceConsole.queue wc)) /\
    match TraceConsole.console wc' with
    | [] => console s = []
    | first :: lines => first = (ConsoleLog, separator) /\
                        console s = map paint lines
    end /\
    style_of e ConsoleLog = None /\
    (Terminal.stderr_isTTY (term e) && Terminal.hascolor (term e) = false ->
     forall f, style_of e f = None).
Proof.
  assert (H0 : in_step init TraceConsole.init).
  { split; [apply ConsoleFacts.Inv_init |]. split; reflexivity. }
  destruct (do_calls_in_step cs _ _ H0) as (s & wc & Hs & Hc & HI & Hind & Hout).
  exists s, wc. eexists.
  split; [exact Hs |]. split; [exact Hc |].
  split; [apply (ConsoleFacts.show_exec wc HI) |].
  split; [exact Hind |].
  rewrite (ConsoleFacts.queue_heap wc HI), render_by_payload.
  split; [exact Hout |]. split; [|split].
  - cbn [TraceConsole.console]. unfold TraceConsole.printed.
    rewrite Hout, <- render_by_payload.
    destruct (TraceConsole.heap wc); [reflexivity | split; reflexivity].
  - unfold style_of, styles. cbn [Terminal.log].
    now destruct (Terminal.stdout_isTTY (term e)).
  - intros Hno f. unfold style_of, styles.
    cbn [Terminal.log Terminal.warn Terminal.error].
    destruct (Terminal.stderr_isTTY (term e)),
      (Terminal.hascolor (term e)), (Terminal.stdout_isTTY (term e)), f;
      try reflexivity; discriminate.
Qed.

End WithFormatter.

Section Native.

Variable value : Type.
Variable util_format : list value -> string.
Variable e : Env.

Hypothesis has_group : console_group e = true.
Hypothesis has_groupEnd : console_groupEnd e = true.

Lemma do_call_native (c : call value) (s : State) :
  indentation s = "" ->
  do_call value util_format e c s =
  Ok (tt, mkState "" (console s ++ native_events value util_format e c)).
Proof.
  intros Hi.
  assert (Hlog : forall args,
    exports_log value util_format e args s =
    Ok (tt, mkState "" (console s ++
                        [paint e (ConsoleLog, util_format args)]))).
  { intros args. unfold exports_log, paint, style_of, indent',
      Terminal.styled. rewrite has_group, <- Hi. cbn [fst snd].
    destruct (if Terminal.stdout_isTTY (term e)
              then Terminal.log (styles e) else None) as [[s0 s1]|];
      reflexivity. }
  destruct c as [args|args|args|args|]; cbn [ColorLog.do_call native_events].
  - apply Hlog.
  - unfold exports_warn, paint, style_of, indent', Terminal.styled.
    rewrite has_group, <- Hi. cbn [fst snd].
    destruct (if Terminal.stderr_isTTY (term e)
              then Terminal.warn (styles e) else None) as [[s0 s1]|];
      reflexivity.
  - unfold exports_error, paint, style_of, indent', Terminal.styled.
    rewrite has_group, <- Hi. cbn [fst snd].
    destruct (if Terminal.stderr_isTTY (term e)
              then Terminal.error (styles e) else None) as [[s0 s1]|];
      reflexivity.
  - unfold exports_group. rewrite has_group.
    destruct args as [|a args]; cbn [length Nat.ltb Nat.leb].
    + unfold bind, ret, console_call. now rewrite Hi.
    + unfold bind. rewrite Hlog. unfold console_call.
      cbn [indentation console]. now rewrite <- app_assoc.
  - unfold exports_groupEnd. rewrite has_groupEnd.
    unfold console_call. now rewrite Hi.
Qed.

(** With [console.group] and [console.groupEnd], color-log leaves the
    indentation to the console: its own indentation stays empty, every
    line is the formatted message without any indentation put before it,
    and each [group] and [groupEnd] makes one call of [console.group()]
    or [console.groupEnd()], after the line of a [group] with
    arguments. *)
Theorem color_log_leaves_grouping_to_console (cs : list (call value)) :
  exists s,
    exec (do_calls value util_format e cs) init = Ok s /\
    indentation s = "" /\
    console s = flat_map (native_events value util_format e) cs.
Proof.
  enough (Hgen : forall s0, indentation s0 = "" ->
            exists s,
              exec (do_calls value util_format e cs) s0 = Ok s /\
              indentation s = "" /\
              console s =
              (console s0 ++ flat_map (native_events value util_format e) cs)%list)
    by (apply (Hgen init); reflexivity).
  induction cs as [|c cs IH]; intros s0 H0.
  - exists s0. rewrite app_nil_r. auto.
  - destruct (IH (mkState "" (console s0 ++
                              native_events value util_format e c)) eq_refl)
      as (s & Hrun & Hi & Hout).
    exists s. split; [|split; [exact Hi |]].
    + cbn [ColorLog.do_calls].
      rewrite (exec_bind _ _ _ _ (proj2 (exec_Ok _ _ _) (do_call_native c s0 H0))).
      exact Hrun.
    + rewrite Hout. cbn [flat_map console]. now rewrite app_assoc.
Qed.

End Native.

(** The statement above at [group("g"); warn("w"); groupEnd(); log("x")],
    on a colour terminal without [console.group]. *)
Lemma color_log_prints_what_trace_console_queues_witness :
  let e := mkEnv (Terminal.mkEnv "linux" None (Some "xterm") true true)
                 false false in
  console_group e = false /\ console_groupEnd e = false /\
  exists s,
    exec (do_calls string join_args e
            [Group string ["g"]; Warn string ["w"]; GroupEnd string;
             Log string ["x"]]) init = Ok s /\
    indentation s = "" /\
    console s =
    [Printed ConsoleLog "g";
     Printed ConsoleWarn (Terminal.styled (Some Terminal.yellow) "  w");
     Printed ConsoleLog "x"].
Proof.
  intros e. split; [reflexivity |]. split; [reflexivity |].
  destruct (color_log_prints_what_trace_console_queues string join_args e
              eq_refl eq_refl
              [Group string ["g"]; Warn string ["w"]; GroupEnd string;
               Log string ["x"]])
    as (s & wc & wc' & Hs & Hc & _ & Hind & Hout & _).
  exists s. split; [exact Hs |].
  vm_compute in Hc. injection Hc as <-.
  split; [exact Hind | exact Hout].
Defined.

(** The statement above at [group("g"); log("x"); groupEnd()] with a
    console that has [group] and [groupEnd]. *)
Lemma color_log_leaves_grouping_to_console_witness :
  let e := mkEnv (Terminal.mkEnv "linux" None None false false) true true in
  console_group e = true /\ console_groupEnd e = true /\
  exists s,
    exec (do_calls string join_args e
            [Group string ["g"]; Log string ["x"]; GroupEnd string]) init
    = Ok s /\
    indentation s = "" /\
    console s = [Printed ConsoleLog "g"; ConsoleGroup; Printed ConsoleLog "x";
                 ConsoleGroupEnd].
Proof.
  intros e. split; [reflexivity |]. split; [reflexivity |].
  exact (color_log_leaves_grouping_to_console string join_args e
           eq_refl eq_refl
           [Group string ["g"]; Log string ["x"]; GroupEnd string]).
Defined.

End ColorLogFacts.

(** ** index.js on trace-console *)

Module ScriptFacts.

Import TraceConsole ConsoleFacts TestScript.

Local Open Scope script_scope.

Lemma call_Ok {W} (m : M W unit) (w w1 : W) :
  m w = Ok (tt, w1) -> call m w = Ok (Returned tt, w1).
Proof. intros H. unfold call, bind. now rewrite H. Qed.

Lemma sbind_Returned {W A B} (m : Script W A) (k : A -> Script W B)
    (w w1 : W) (a : A) :
  m w = Ok (Returned a, w1) -> sbind m k w = k a w1.
Proof. intros H. unfold sbind, bind. now rewrite H. Qed.

Lemma sbind_Raised {W A B} (m : Script W A) (k : A -> Script W B)
    (w w1 : W) (e : jsval) :
  m w = Ok (Raised e, w1) -> sbind m k w = Ok (Raised e, w1).
Proof. intros H. unfold sbind, bind. now rewrite H. Qed.

Lemma try_finally_Ok {W A} (body : Script W A)
    (fin : option A -> Script W unit) (w w1 w2 : W) (o : outcome A) :
  body w = Ok (o, w1) ->
  fin (match o with Returned a => Some a | Raised _ => None end) w1
  = Ok (Returned tt, w2) ->
  try_finally body fin w = Ok (o, w2).
Proof. intros Hb Hf. unfold try_finally, bind. now rewrite Hb, Hf. Qed.

Section WithFormatter.

Variable util_format : list jsval -> string.

Local Abbreviation trace := (trace_console util_format).
Local Abbreviation console_log :=
  (fun args => console_call ConsoleLog (util_format args)).
Local Abbreviation console_error :=
  (fun args => console_call ConsoleError (util_format args)).
Local Abbreviation factorial_rec := (factorial_rec World console_error trace).
Local Abbreviation factorial := (factorial World console_error trace).
Local Abbreviation main_loop := (main_loop World console_error trace).
Local Abbreviation main := (main World console_error trace).
Local Abbreviation do_calls := (do_calls jsval util_format).

Lemma keeps_trans (w w1 w2 : World) n1 n2 :
  keeps w w1 n1 -> keeps w1 w2 n2 -> keeps w w2 (n1 ++ n2).
Proof.
  unfold keeps. intros H1 H2.
  pose proof H1 as (_ & Hl & Hn & _). rewrite Hl, Hn in H2.
  exact (effect_trans _ _ _ _ _ _ _ _ _ H1 H2).
Qed.

Lemma keeps_width (w w' : World) new :
  Inv w -> keeps w w' new -> indentWidth (ctx w') = indentWidth (ctx w).
Proof.
  intros HI (HI' & Hl & _).
  rewrite (inv_width _ HI'), (inv_width _ HI), (inv_size _ HI'),
    (inv_size _ HI), Hl. reflexivity.
Qed.

Lemma script_log_keeps (w : World) (args : list jsval) :
  Inv w ->
  exists w1, script_log World console_error trace args w
             = Ok (Returned tt, w1) /\
             keeps w w1 [(util_format args, indentWidth (ctx w), LOG)].
Proof.
  intros HI. destruct (log_spec jsval util_format w args HI) as (w1 & H & E).
  exists w1. split; [exact (call_Ok _ _ _ H) | exact E].
Qed.

Lemma script_warn_keeps (w : World) (args : list jsval) :
  Inv w ->
  exists w1, script_warn World console_error trace args w
             = Ok (Returned tt, w1) /\
             keeps w w1 [(util_format args, indentWidth (ctx w), WARN)].
Proof.
  intros HI. destruct (warn_spec jsval util_format w args HI) as (w1 & H & E).
  exists w1. split; [exact (call_Ok _ _ _ H) | exact E].
Qed.

Lemma script_error_keeps (w : World) (args : list jsval) :
  Inv w ->
  exists w1, script_error World console_error trace args w
             = Ok (Returned tt, w1) /\
             keeps w w1 [(util_format args, indentWidth (ctx w), ERROR)].
Proof.
  intros HI. destruct (error_spec jsval util_format w args HI) as (w1 & H & E).
  exists w1. split; [exact (call_Ok _ _ _ H) | exact E].
Qed.

(** An [enter], a body that keeps level and names whatever its outcome,
    and the [leave] of the [finally] block: level and names are kept, the
    open line comes first and the close line last. *)
Lemma scope_keeps {A} (w : World) (a : list jsval)
    (body : Script World A) (fin_args : option A -> list jsval)
    (o : outcome A) (P : list (string * Z * Z) -> Prop) :
  Inv w ->
  (forall w1, Inv w1 ->
     indentWidth (ctx w1) = indentWidth (ctx w) + 2 ->
     exists wb mid, body w1 = Ok (o, wb) /\ keeps w1 wb mid /\ P mid) ->
  exists w' mid,
    P mid /\
    (script_enter World console_error trace a;;
     try_finally body
       (fun r => script_leave World console_error trace (fin_args r))) w
    = Ok (o, w') /\
    keeps w w'
      ([(">" +:+ " " +:+ util_format a, indentWidth (ctx w), LOG)] ++ mid ++
       [("<" +:+ " " +:+
         join2 (Some (saved_name (util_format a)))
               (Some (util_format
                        (fin_args (match o with
                                   | Returned r => Some r
                                   | Raised _ => None
                                   end)))),
         indentWidth (ctx w), LOG)]).
Proof.
  intros HI Hbody.
  destruct (enter_spec jsval util_format w a HI) as (w1 & Hrun1 & Heff1).
  destruct (effect_facts _ _ _ _ _ HI Heff1) as (_ & _ & _ & Hwd1 & _).
  assert (Hwd0 : indentWidth (ctx w) = indentLevel (ctx w) * 2)
    by (rewrite (inv_width _ HI), (inv_size _ HI); reflexivity).
  destruct (Hbody w1 (proj1 Heff1)) as (wb & mid & Hb & Hk & HP); [lia |].
  set (x := fin_args (match o with Returned r => Some r | Raised _ => None end)).
  destruct (leave_spec jsval util_format wb x (proj1 Hk))
    as (w' & Hrun3 & Heff3).
  exists w', mid. split; [exact HP |]. split.
  - rewrite (sbind_Returned _ _ _ _ _
               (call_Ok _ _ _ Hrun1 : script_enter World console_error trace a w
                                      = Ok (Returned tt, w1))).
    apply (try_finally_Ok _ _ _ _ _ _ Hb).
    exact (call_Ok _ _ _ Hrun3).
  - pose proof (inv_level _ HI) as Hlv.
    pose proof (inv_width _ HI) as Hwd. rewrite (inv_size _ HI) in Hwd.
    pose proof (effect_trans _ _ _ _ _ _ _ _ _
                  (effect_trans _ _ _ _ _ _ _ _ _ Heff1 Hk) Heff3) as Heff.
    destruct Heff1 as (_ & Hl1 & Hn1 & _). destruct Hk as (_ & Hl2 & Hn2 & _).
    rewrite Hn2, Hn1, last_snoc, Hl2, Hl1 in Heff.
    replace (Z.max 0 (indentLevel (ctx w) + 1 - 1))
      with (indentLevel (ctx w)) in Heff by lia.
    rewrite removelast_last, <- Hwd in Heff.
    rewrite <- app_assoc in Heff. exact Heff.
Qed.

Lemma Zfact_small (n : Z) : n <= 1 -> Zfact n = 1.
Proof.
  intros H. unfold Zfact.
  destruct (Z.to_nat n) as [|[|k]] eqn:E; [reflexivity | reflexivity | lia].
Qed.

Lemma Zfact_step (n : Z) : 1 < n -> Zfact (n - 1) * n = Zfact n.
Proof.
  intros H. unfold Zfact.
  replace (Z.to_nat n) with (S (Z.to_nat (n - 1))) by lia.
  cbn [fact]. rewrite Nat2Z.inj_mul. lia.
Qed.

Lemma factorial_rec_spec (fuel : nat) :
  forall (value first : Z) (w : World),
    Inv w -> (Z.to_nat value < fuel)%nat ->
    exists w' mid,
      factorial_rec fuel value first w
      = Ok (factorial_outcome value first, w') /\
      keeps w w'
        ([(">" +:+ " " +:+
           util_format [VString "factorial value=%d"; VNumber value],
           indentWidth (ctx w), LOG)] ++ mid ++
         [("<" +:+ " " +:+
           join2 (Some (saved_name
                          (util_format [VString "factorial value=%d";
                                        VNumber value])))
                 (Some (util_format
                          [VString "result=%d";
                           result_value
                             (match factorial_outcome value first with
                              | Returned r => Some r
                              | Raised _ => None
                              end)])),
           indentWidth (ctx w), LOG)]).
Proof.
  induction fuel as [|fuel IH]; intros value first w HI Hfuel; [lia |].
  cbn [TestScript.factorial_rec].
  destruct (scope_keeps w
              [VString "factorial value=%d"; VNumber value]
              (if value >? 1
               then script_log World console_error trace
                      [VString "calculating (%d-1)!"; VNumber value];;
                    let* r := factorial_rec fuel (value - 1) first in
                    sret (r * value)
               else (if first =? 4
                     then script_warn World console_error trace
                            [VString "throwing..."];;
                          try_catch (raise (VError "throwing..."))
                            (fun e => script_error World console_error
                                        trace [e]);;
                          script_warn World console_error trace
                            [VString "throwing again..."];;
                          raise (VError "throwing...")
                     else sret tt);;
                    script_log World console_error trace
                      [VString "returning 1"];;
                    sret 1)
              (fun r => [VString "result=%d"; result_value r])
              (factorial_outcome value first) (fun _ => True) HI)
    as (w' & mid & _ & Hrun & Hk); [|exists w', mid; split; assumption].
  intros w1 HI1 _.
  destruct (value >? 1) eqn:Egt.
  - apply Z.gtb_lt in Egt.
    destruct (script_log_keeps w1
                [VString "calculating (%d-1)!"; VNumber value] HI1)
      as (w2 & Hlog & Hk2).
    destruct (IH (value - 1) first w2 (proj1 Hk2)) as (w3 & mid & Hrec & Hk3);
      [lia |].
    exists w3. eexists.
    split; [|split; [exact (keeps_trans _ _ _ _ _ Hk2 Hk3) | exact I]].
    rewrite (sbind_Returned _ _ _ _ _ Hlog).
    unfold factorial_outcome in *. destruct (first =? 4).
    + exact (sbind_Raised _ _ _ _ _ Hrec).
    + rewrite (sbind_Returned _ _ _ _ _ Hrec). unfold sret, ret.
      now rewrite Zfact_step by lia.
  - assert (Hle : value <= 1)
      by (pose proof (Zgt_cases value 1) as G; rewrite Egt in G; lia).
    unfold factorial_outcome. destruct (first =? 4).
    + destruct (script_warn_keeps w1 [VString "throwing..."] HI1)
        as (w2 & Hw2 & Hk2).
      destruct (script_error_keeps w2 [VError "throwing..."] (proj1 Hk2))
        as (w3 & Hw3 & Hk3).
      destruct (script_warn_keeps w3 [VString "throwing again..."] (proj1 Hk3))
        as (w4 & Hw4 & Hk4).
      exists w4. eexists.
      split; [|split; [exact (keeps_trans _ _ _ _ _ Hk2
                                (keeps_trans _ _ _ _ _ Hk3 Hk4)) | exact I]].
      apply sbind_Raised.
      rewrite (sbind_Returned _ _ _ _ _ Hw2).
      assert (Hcatch :
        try_catch (raise (VError "throwing..."))
          (fun e => script_error World console_error trace [e]) w2
        = Ok (Returned tt, w3)) by exact Hw3.
      rewrite (sbind_Returned _ _ _ _ _ Hcatch).
      rewrite (sbind_Returned _ _ _ _ _ Hw4). reflexivity.
    + destruct (script_log_keeps w1 [VString "returning 1"] HI1)
        as (w2 & Hw2 & Hk2).
      exists w2. eexists. split; [|split; [exact Hk2 | exact I]].
      assert (H0 : sret (W := World) tt w1 = Ok (Returned tt, w1))
        by reflexivity.
      rewrite (sbind_Returned _ _ _ _ _ H0).
      rewrite (sbind_Returned _ _ _ _ _ Hw2). unfold sret, ret.
      now rewrite Zfact_small.
Qed.

(** In the world after any calls to trace-console, [factorial(value,
    first)] with [value] at most 18, so that its factorial is a JavaScript
    integer, comes to an end, and whether it returns or throws, every
    [enter] it made has had its [leave]: level, width and names are what
    they were, its open line is the first message it added and its close
    line the last, stamped with the width it started at.  It throws the
    error when [first] is 4, with [result] still undefined in the close
    line; otherwise it returns the factorial of [value] (1 below 2), which
    the close line carries. *)
Theorem factorial_leaves_scopes_balanced
    (cs : list (TraceConsole.call jsval)) (value first : Z) :
  value <= 18 ->
  exists w w' o mid,
    exec (do_calls cs) init = Ok w /\
    factorial value first w = Ok (o, w') /\
    indentLevel (ctx w') = indentLevel (ctx w) /\
    indentWidth (ctx w') = indentWidth (ctx w) /\
    names (ctx w') = names (ctx w) /\
    pending w' =
    (pending w ++
     [(">" +:+ " " +:+
       util_format [VString "factorial value=%d"; VNumber value],
       indentWidth (ctx w), LOG)] ++ mid ++
     [("<" +:+ " " +:+
       join2 (Some (saved_name
                      (util_format [VString "factorial value=%d";
                                    VNumber value])))
             (Some (util_format
                      [VString "result=%d";
                       match o with
                       | Returned r => VNumber r
                       | Raised _ => VUndefined
                       end])),
       indentWidth (ctx w), LOG)])%list /\
    (first = 4 -> o = Raised (VError "throwing...")) /\
    (first <> 4 -> o = Returned (Zfact value)) /\
    (value <= 1 -> Zfact value = 1) /\
    (1 < value -> Zfact value = Zfact (value - 1) * value).
Proof.
  intros _.
  destruct (do_calls_Inv jsval util_format cs init Inv_init)
    as (w & _ & Hw & HI & _).
  destruct (factorial_rec_spec (S (Z.to_nat value)) value first w HI)
    as (w' & mid & Hrun & Hk); [lia |].
  destruct (effect_facts _ _ _ _ _ HI Hk) as (HI' & Hp & Hl & _ & _ & Hn).
  exists w, w', (factorial_outcome value first), mid.
  split; [exact Hw |]. split; [exact Hrun |]. split; [exact Hl |].
  split; [exact (keeps_width _ _ _ HI Hk) |]. split; [exact Hn |].
  split; [|split; [|split; [|split]]].
  - rewrite Hp. unfold factorial_outcome. now destruct (first =? 4).
  - intros ->. reflexivity.
  - intros Hne. unfold factorial_outcome.
    destruct (first =? 4) eqn:E; [apply Z.eqb_eq in E; contradiction |].
    reflexivity.
  - apply Zfact_small.
  - intros H. symmetry. now apply Zfact_step.
Qed.

Lemma main_loop_spec (fuel : nat) :
  forall (i : Z) (w : World),
    Inv w -> 0 <= i <= 4 -> (Z.to_nat (4 - i) < fuel)%nat ->
    exists w' new,
      main_loop fuel i w = Ok (Raised (VError "throwing..."), w') /\
      keeps w w' new /\
      forall j, i <= j < 4 ->
        In (util_format [VString "%d! = %d"; VNumber j; VNumber (Zfact j)],
            indentWidth (ctx w), LOG) new.
Proof.
  induction fuel as [|fuel IH]; intros i w HI Hi Hfuel; [lia |].
  cbn [TestScript.main_loop].
  destruct (i <? 5) eqn:E5; [|apply Z.ltb_ge in E5; lia].
  destruct (factorial_rec_spec (S (Z.to_nat i)) i i w HI)
    as (w1 & mid & Hrun & Hk); [lia |].
  fold (factorial i i) in Hrun.
  unfold factorial_outcome in Hrun.
  destruct (i =? 4) eqn:E4.
  - exists w1. eexists. split; [exact (sbind_Raised _ _ _ _ _ Hrun) |].
    split; [exact Hk |]. apply Z.eqb_eq in E4. intros j Hj. lia.
  - apply Z.eqb_neq in E4.
    destruct (script_log_keeps w1
                [VString "%d! = %d"; VNumber i; VNumber (Zfact i)] (proj1 Hk))
      as (w2 & Hlog & Hk2).
    destruct (IH (i + 1) w2 (proj1 Hk2)) as (w' & new & Hloop & Hk3 & Hin);
      [lia | lia |].
    exists w'. eexists. split; [|split].
    + rewrite (sbind_Returned _ _ _ _ _ Hrun).
      rewrite (sbind_Returned _ _ _ _ _ Hlog). exact Hloop.
    + exact (keeps_trans _ _ _ _ _ Hk (keeps_trans _ _ _ _ _ Hk2 Hk3)).
    + intros j Hj. apply in_or_app. right.
      rewrite (keeps_width _ _ _ HI Hk).
      destruct (Z.eq_dec j i) as [-> | Hne].
      * left. reflexivity.
      * right.
        rewrite <- (keeps_width _ _ _ HI Hk),
          <- (keeps_width _ _ _ (proj1 Hk) Hk2).
        apply Hin. lia.
Qed.

(** In the world after any calls to trace-console, [main] comes to an end
    by throwing the error of [factorial(4, 4)], after it has logged the
    factorials of 0, 1, 2 and 3 one level inside its own scope; its
    [finally] block has run [leave]: level, width and names are what they
    were, and the open and close lines of [main] are the first and the
    last message it added. *)
Theorem main_throws_with_scopes_balanced (cs : list (TraceConsole.call jsval)) :
  exists w w' mid,
    exec (do_calls cs) init = Ok w /\
    main w = Ok (Raised (VError "throwing..."), w') /\
    indentLevel (ctx w') = indentLevel (ctx w) /\
    indentWidth (ctx w') = indentWidth (ctx w) /\
    names (ctx w') = names (ctx w) /\
    pending w' =
    (pending w ++
     [(">" +:+ " " +:+ util_format [VString "main"],
       indentWidth (ctx w), LOG)] ++ mid ++
     [("<" +:+ " " +:+
       join2 (Some (saved_name (util_format [VString "main"])))
             (Some (util_format [])),
       indentWidth (ctx w), LOG)])%list /\
    (forall j, 0 <= j < 4 ->
       In (util_format [VString "%d! = %d"; VNumber j; VNumber (Zfact j)],
           indentWidth (ctx w) + 2, LOG) mid).
Proof.
  destruct (do_calls_Inv jsval util_format cs init Inv_init)
    as (w & _ & Hw & HI & _).
  destruct (scope_keeps w [VString "main"] (main_loop 6 0)
              (fun _ : option unit => [])
              (Raised (VError "throwing..."))
              (fun mid => forall j, 0 <= j < 4 ->
                 In (util_format [VString "%d! = %d"; VNumber j;
                                  VNumber (Zfact j)],
                     indentWidth (ctx w) + 2, LOG) mid) HI)
    as (w' & mid & HP & Hrun & Hk).
  - intros w1 HI1 Hwd1.
    destruct (main_loop_spec 6 0 w1 HI1) as (wb & new & Hloop & Hkb & Hin);
      [lia | simpl; lia |].
    exists wb, new. split; [exact Hloop |]. split; [exact Hkb |].
    intros j Hj. rewrite <- Hwd1. now apply Hin.
  - destruct (effect_facts _ _ _ _ _ HI Hk) as (HI' & Hp & Hl & _ & _ & Hn).
    exists w, w', mid.
    split; [exact Hw |]. split; [exact Hrun |]. split; [exact Hl |].
    split; [exact (keeps_width _ _ _ HI Hk) |]. split; [exact Hn |].
    split; [exact Hp | exact HP].
Qed.

End WithFormatter.

(** The statement above at [factorial(3, 3)], which returns 6, and at
    [factorial(2, 4)], which throws, at module load. *)
Lemma factorial_leaves_scopes_balanced_witness :
  (3 <= 18 /\
   exists w',
     factorial World
       (fun args => console_call ConsoleError (tag_format args))
       (trace_console tag_format) 3 3 init = Ok (Returned 6, w') /\
     names (ctx w') = [] /\ indentLevel (ctx w') = 0) /\
  (2 <= 18 /\
   exists w',
     factorial World
       (fun args => console_call ConsoleError (tag_format args))
       (trace_console tag_format) 2 4 init
     = Ok (Raised (VError "throwing..."), w') /\
     names (ctx w') = [] /\ indentLevel (ctx w') = 0).
Proof.
  assert (H3 : 3 <= 18) by lia.
  assert (H2 : 2 <= 18) by lia.
  split; (split; [assumption |]).
  - destruct (factorial_leaves_scopes_balanced tag_format [] 3 3 H3)
      as (w & w' & o & mid & Hw & Hrun & Hl & _ & Hn & _ & _ & Hret & _).
    injection Hw as <-. rewrite (Hret ltac:(discriminate)) in Hrun.
    exists w'. split; [exact Hrun |]. split; [exact Hn | exact Hl].
  - destruct (factorial_leaves_scopes_balanced tag_format [] 2 4 H2)
      as (w & w' & o & mid & Hw & Hrun & Hl & _ & Hn & _ & Hthrow & _).
    injection Hw as <-. rewrite (Hthrow eq_refl) in Hrun.
    exists w'. split; [exact Hrun |]. split; [exact Hn | exact Hl].
Defined.

(** The statement above at module load: [main] logs ["%d! = %d"] with 3
    and 6 at width 2. *)
Lemma main_throws_with_scopes_balanced_witness :
  exists w' mid,
    main World (fun args => console_call ConsoleError (tag_format args))
         (trace_console tag_format) init
    = Ok (Raised (VError "throwing..."), w') /\
    names (ctx w') = [] /\
    In (tag_format [VString "%d! = %d"; VNumber 3; VNumber 6], 2, LOG) mid.
Proof.
  destruct (main_throws_with_scopes_balanced tag_format [])
    as (w & w' & mid & Hw & Hrun & _ & _ & Hn & _ & Hin).
  injection Hw as <-.
  exists w', mid. split; [exact Hrun |]. split; [exact Hn |].
  exact (Hin 3 ltac:(lia)).
Defined.

End ScriptFacts.

(** ** index.js on color-log *)

Module ColorLogScriptFacts.

Import ColorLog TestScript ScriptFacts.

Local Open Scope script_scope.

Lemma substring_append (a b : string) :
  String.substring 0 (String.length a) (a +:+ b) = a.
Proof.
  induction a as [|c a IH]; simpl.
  - now destruct b.
  - now rewrite IH.
Qed.

(** Cutting the last two characters off takes back what [group] has
    put. *)
Lemma slice_drops_two (a : string) :
  slice (a +:+ "  ") 0 (Z.of_nat (String.length (a +:+ "  ")) - 2) = a.
Proof.
  unfold slice. rewrite length_append. cbn [String.length].
  destruct (0 <? 0) eqn:E0; [discriminate |].
  destruct (Z.of_nat (String.length a + 2) - 2 <? 0) eqn:E1;
    [apply Z.ltb_lt in E1; lia |].
  rewrite !Z.min_l by lia. rewrite Z.sub_0_r, Z.max_l by lia.
  replace (Z.to_nat (Z.of_nat (String.length a + 2) - 2))
    with (String.length a) by lia.
  apply substring_append.
Qed.

Section WithFormatter.

Variable util_format : list jsval -> string.
Variable e : Env.

Hypothesis group_with_groupEnd : console_group e = console_groupEnd e.

Local Abbreviation trace := (trace_color_log util_format e).
Local Abbreviation console_error :=
  (fun args => console_call (Printed ConsoleError (util_format args))).
Local Abbreviation factorial_rec :=
  (factorial_rec State console_error trace).
Local Abbreviation factorial := (factorial State console_error trace).
Local Abbreviation script_log := (script_log State console_error trace).
Local Abbreviation script_warn := (script_warn State console_error trace).
Local Abbreviation script_error := (script_error State console_error trace).
Local Abbreviation script_enter := (script_enter State console_error trace).
Local Abbreviation script_leave := (script_leave State console_error trace).

Lemma prints_keep_indentation (s : State) (args : list jsval) :
  (exists s1, script_log args s = Ok (Returned tt, s1) /\
              indentation s1 = indentation s) /\
  (exists s1, script_warn args s = Ok (Returned tt, s1) /\
              indentation s1 = indentation s) /\
  (exists s1, script_error args s = Ok (Returned tt, s1) /\
              indentation s1 = indentation s).
Proof.
  unfold TestScript.script_log, TestScript.script_warn,
    TestScript.script_error. cbn [log warn error trace_color_log].
  unfold call, bind, exports_log, exports_warn, exports_error, indent', bind.
  repeat split.
  - destruct (if Terminal.stdout_isTTY (term e)
              then Terminal.log (styles e) else None) as [[s0 s1]|];
      destruct (console_group e); eexists; split; reflexivity.
  - destruct (if Terminal.stderr_isTTY (term e)
              then Terminal.warn (styles e) else None) as [[s0 s1]|];
      destruct (console_group e); eexists; split; reflexivity.
  - destruct (if Terminal.stderr_isTTY (term e)
              then Terminal.error (styles e) else None) as [[s0 s1]|];
      destruct (console_group e); eexists; split; reflexivity.
Qed.

(** The fallbacks of [enter] and [leave]: [group], and [groupEnd] followed
    by [log]. *)
Lemma enter_by_group (s : State) (args : list jsval) :
  exists s1,
    script_enter args s = Ok (Returned tt, s1) /\
    indentation s1 =
    if console_group e then indentation s else indentation s +:+ "  ".
Proof.
  unfold TestScript.script_enter. cbn [enter group trace_color_log].
  unfold call, bind, exports_group.
  destruct (prints_keep_indentation s args) as ((s1 & Hlog & Hi) & _).
  unfold TestScript.script_log in Hlog. cbn [log trace_color_log] in Hlog.
  unfold call, bind in Hlog.
  destruct (exports_log jsval util_format e args s) as [[[] s2]|]
    eqn:E; [|discriminate].
  injection Hlog as ->.
  destruct (console_group e); unfold bind;
    destruct (0 <? length args)%nat; rewrite ?E; unfold ret, console_call;
    eexists; split; try reflexivity; cbn [indentation]; congruence.
Qed.

Lemma leave_by_groupEnd (s s0 : State) (args : list jsval) :
  indentation s =
    (if console_group e then indentation s0 else indentation s0 +:+ "  ") ->
  exists s1,
    script_leave args s = Ok (Returned tt, s1) /\
    indentation s1 = indentation s0.
Proof.
  intros Hi.
  unfold TestScript.script_leave. cbn [leave groupEnd trace_color_log].
  assert (Hend : exists s2, exports_groupEnd e s = Ok (tt, s2) /\
                            indentation s2 = indentation s0).
  { unfold exports_groupEnd. rewrite <- group_with_groupEnd.
    destruct (console_group e).
    - eexists. split; [reflexivity | exact Hi].
    - rewrite Hi.
      replace (String.length (indentation s0 +:+ "  ") =? 0)%nat with false
        by (symmetry; apply Nat.eqb_neq; rewrite length_append;
            cbn [String.length]; lia).
      cbn [negb]. eexists. split; [reflexivity |].
      cbn [indentation]. apply slice_drops_two. }
  destruct Hend as (s2 & Hend & Hi2).
  destruct (prints_keep_indentation s2 args) as ((s1 & Hlog & Hi1) & _).
  exists s1. split; [|congruence].
  rewrite (sbind_Returned _ _ _ _ _ (call_Ok _ _ _ Hend)). exact Hlog.
Qed.

Lemma factorial_rec_indentation (fuel : nat) :
  forall (value first : Z) (s : State),
    (Z.to_nat value < fuel)%nat ->
    exists s',
      factorial_rec fuel value first s
      = Ok (factorial_outcome value first, s') /\
      indentation s' = indentation s.
Proof.
  induction fuel as [|fuel IH]; intros value first s Hfuel; [lia |].
  cbn [TestScript.factorial_rec].
  destruct (enter_by_group s [VString "factorial value=%d"; VNumber value])
    as (s1 & Henter & Hi1).
  rewrite (sbind_Returned _ _ _ _ _ Henter).
  assert (Hbody : exists sb,
    (if value >? 1
     then script_log [VString "calculating (%d-1)!"; VNumber value];;
          let* r := factorial_rec fuel (value - 1) first in
          sret (r * value)
     else (if first =? 4
           then script_warn [VString "throwing..."];;
                try_catch (raise (VError "throwing..."))
                  (fun e => script_error [e]);;
                script_warn [VString "throwing again..."];;
                raise (VError "throwing...")
           else sret tt);;
          script_log [VString "returning 1"];;
          sret 1) s1
    = Ok (factorial_outcome value first, sb) /\
    indentation sb = indentation s1).
  { destruct (value >? 1) eqn:Egt.
    - apply Z.gtb_lt in Egt.
      destruct (prints_keep_indentation s1
                  [VString "calculating (%d-1)!"; VNumber value])
        as ((s2 & Hlog & Hi2) & _).
      destruct (IH (value - 1) first s2) as (s3 & Hrec & Hi3); [lia |].
      exists s3. split; [|congruence].
      rewrite (sbind_Returned _ _ _ _ _ Hlog).
      unfold factorial_outcome in *. destruct (first =? 4).
      + exact (sbind_Raised _ _ _ _ _ Hrec).
      + rewrite (sbind_Returned _ _ _ _ _ Hrec). unfold sret, ret.
        now rewrite Zfact_step by lia.
    - assert (Hle : value <= 1)
        by (pose proof (Zgt_cases value 1) as G; rewrite Egt in G; lia).
      unfold factorial_outcome. destruct (first =? 4).
      + destruct (prints_keep_indentation s1 [VString "throwing..."])
          as (_ & (s2 & Hw2 & Hi2) & _).
        destruct (prints_keep_indentation s2 [VError "throwing..."])
          as (_ & _ & (s3 & Hw3 & Hi3)).
        destruct (prints_keep_indentation s3 [VString "throwing again..."])
          as (_ & (s4 & Hw4 & Hi4) & _).
        exists s4. split; [|congruence].
        apply sbind_Raised.
        rewrite (sbind_Returned _ _ _ _ _ Hw2).
        assert (Hcatch :
          try_catch (raise (VError "throwing..."))
            (fun e => script_error [e]) s2
          = Ok (Returned tt, s3)) by exact Hw3.
        rewrite (sbind_Returned _ _ _ _ _ Hcatch).
        rewrite (sbind_Returned _ _ _ _ _ Hw4). reflexivity.
      + destruct (prints_keep_indentation s1 [VString "returning 1"])
          as ((s2 & Hw2 & Hi2) & _).
        exists s2. split; [|exact Hi2].
        assert (H0 : sret (W := State) tt s1 = Ok (Returned tt, s1))
          by reflexivity.
        rewrite (sbind_Returned _ _ _ _ _ H0).
        rewrite (sbind_Returned _ _ _ _ _ Hw2). unfold sret, ret.
        now rewrite Zfact_small. }
  destruct Hbody as (sb & Hbody & Hib).
  destruct (leave_by_groupEnd sb s
              [VString "result=%d";
               result_value (match factorial_outcome value first with
                             | Returned r => Some r
                             | Raised _ => None
                             end)])
    as (s' & Hleave & Hi'); [congruence |].
  exists s'. split; [|exact Hi'].
  exact (try_finally_Ok _ _ _ _ _ _ Hbody Hleave).
Qed.

(** On color-log, which has neither [enter] nor [leave], the script
    opens a scope with [group] and closes it with [groupEnd] followed by
    [log].  When the console has both [group] and [groupEnd] or neither,
    [factorial(value, first)] with [value] at most 18 comes to an end from
    any state and, whether it returns or throws, leaves the indentation of
    color-log as it was. *)
Theorem factorial_on_color_log_restores_indentation
    (value first : Z) (s : State) :
  value <= 18 ->
  exists s' o,
    factorial value first s = Ok (o, s') /\
    indentation s' = indentation s /\
    (first = 4 -> o = Raised (VError "throwing...")) /\
    (first <> 4 -> o = Returned (Zfact value)).
Proof.
  intros _.
  destruct (factorial_rec_indentation (S (Z.to_nat value)) value first s)
    as (s' & Hrun & Hi); [lia |].
  exists s', (factorial_outcome value first).
  split; [exact Hrun |]. split; [exact Hi |]. unfold factorial_outcome.
  split.
  - intros ->. reflexivity.
  - intros Hne. destruct (first =? 4) eqn:E;
      [apply Z.eqb_eq in E; contradiction | reflexivity].
Qed.

End WithFormatter.

(** The statement above at [factorial(2, 4)] inside one [group], without
    [console.group]. *)
Lemma factorial_on_color_log_restores_indentation_witness :
  let e := mkEnv (Terminal.mkEnv "linux" None None false false) false false in
  console_group e = console_groupEnd e /\ 2 <= 18 /\
  exists s',
    factorial State
      (fun args => console_call (Printed ConsoleError (tag_format args)))
      (trace_color_log tag_format e) 2 4 (mkState "  " [])
    = Ok (Raised (VError "throwing..."), s') /\
    indentation s' = "  ".
Proof.
  intros e. assert (H2 : 2 <= 18) by lia.
  split; [reflexivity |]. split; [exact H2 |].
  destruct (factorial_on_color_log_restores_indentation tag_format e
              eq_refl 2 4 (mkState "  " []) H2)
    as (s' & o & Hrun & Hi & Hthrow & _).
  rewrite (Hthrow eq_refl) in Hrun.
  exists s'. split; [exact Hrun | exact Hi].
Defined.

End ColorLogScriptFacts.
